(** * Saturn Nebula: gesture state machine, phrase selector, transition
    driver, vertex shader and particle-field generator.

    Shallow embedding of [App.tsx], [components/SaturnScene.tsx] (the
    shader-based scene) and of the CPU-interpolating variant of the scene.

    Conventions.
    - Discrete data (enums, booleans, indices, counts) are modelled as the
      code has them and compute.
    - [Math.random()] is an oracle: a stream [random : nat -> Q] of rationals
      (every binary64 is one) read in call order; theorems assume its
      contract [0 <= random k < 1].
    - JavaScript / GLSL numbers that carry continuous quantities (positions,
      angles, the blend uniform) are modelled as real numbers: neither the
      rounding of binary64 arithmetic nor the rounding of a value stored in
      a [Float32Array] to binary32 is performed. Where a property of the
      stored values depends on that rounding, it is stated for every value
      within a given distance of the computed one.
    - Where the code turns a number into a discrete outcome:
      [Math.floor(PARTICLE_COUNT * fraction)] is computed bit-exactly with
      the IEEE 754 specification of the Standard Library ([SpecFloat]); the
      test [Math.random() > 0.4] compares with the value of the binary64
      literal; [Math.floor(Math.random() * length)] is the floor of the
      exact product (the code floors the rounded product, see
      [App.floor_scaled]).
    - [new Float32Array(n)] succeeds when the engine can allocate the
      buffer: the engine's answer is a parameter ([allocates]).
    - [constants.ts] is not part of the sources at hand: [PHRASES],
      [PARTICLE_COUNT], the radii and [EXPANSION_SCALE] are parameters, and
      so are the [THREE.Color] values built from the hex strings. *)

From Stdlib Require Import String List Bool Arith ZArith QArith Qround Lia.
From Stdlib Require Import Sorting.Permutation.
From Stdlib Require Import Reals Lra Qreals SpecFloat.
Import ListNotations.

Close Scope Q_scope.
Set Implicit Arguments.

(* ===================================================================== *)
(** * types.ts *)
(* ===================================================================== *)

(** [export enum GestureState { CLOSED, OPEN, NONE }] *)
Inductive GestureState : Type :=
  | CLOSED  (* particles gathered (Saturn) *)
  | OPEN    (* particles dispersed *)
  | NONE.   (* no hand detected *)

Definition GestureState_eqb (a b : GestureState) : bool :=
  match a, b with
  | CLOSED, CLOSED | OPEN, OPEN | NONE, NONE => true
  | _, _ => false
  end.

(* ===================================================================== *)
(** * App.tsx *)
(* ===================================================================== *)

Module App.

(** The React state of the component, one field per [useState] the handlers
    touch.  [currentPhrase] holds a JavaScript string or [undefined]
    ([None]): [PHRASES[phraseIndex]] is [undefined] when the index is. *)
Record State : Type := mkState {
  gestureState : GestureState;
  isExpanded : bool;
  currentPhrase : option string;
  availableIndices : list nat
}.

(** A call of one of the state setters. React queues the calls an event
    handler makes and applies them, in order, before the next render. *)
Inductive Update : Type :=
  | SetGestureState (g : GestureState)
  | SetIsExpanded (b : bool)
  | SetCurrentPhrase (p : option string)
  | SetAvailableIndices (l : list nat).

Definition apply_update (s : State) (u : Update) : State :=
  match u with
  | SetGestureState g =>
      mkState g (isExpanded s) (currentPhrase s) (availableIndices s)
  | SetIsExpanded b =>
      mkState (gestureState s) b (currentPhrase s) (availableIndices s)
  | SetCurrentPhrase p =>
      mkState (gestureState s) (isExpanded s) p (availableIndices s)
  | SetAvailableIndices l =>
      mkState (gestureState s) (isExpanded s) (currentPhrase s) l
  end.

Definition commit (s : State) (queue : list Update) : State :=
  fold_left apply_update queue s.

(** What an event handler accumulates while it runs: the queued setter
    calls, the number of [Math.random()] calls made so far, and (ghost) the
    phrase index chosen by every call of [triggerNewPhrase], oldest first. *)
Record Pending : Type := mkPending {
  queue : list Update;
  draws : nat;
  selected : list (option nat)
}.

(** An event handler reads the state captured by the render it was created
    in (its closure) and writes to [Pending]. *)
Definition Handler (A : Type) : Type := State -> Pending -> A * Pending.

Definition ret {A} (a : A) : Handler A := fun _ p => (a, p).

Definition bind {A B} (m : Handler A) (k : A -> Handler B) : Handler B :=
  fun s p => let (a, p') := m s p in k a s p'.

Declare Scope handler_scope.
Delimit Scope handler_scope with handler.
Notation "x <- m ;; k" := (bind m (fun x => k))
  (at level 61, m at next level, right associativity) : handler_scope.
Notation "m ;; k" := (bind m (fun _ => k))
  (at level 61, right associativity) : handler_scope.
Local Open Scope handler_scope.

(** Reading a state variable of the closure. *)
Definition read {A} (f : State -> A) : Handler A := fun s p => (f s, p).

Definition set (u : Update) : Handler unit :=
  fun _ p => (tt, mkPending (queue p ++ [u]) (draws p) (selected p)).

(** [xs.splice(i, 1)]: remove the element at index [i], if there is one. *)
Definition splice1 {A} (i : nat) (xs : list A) : list A :=
  firstn i xs ++ skipn (S i) xs.

(** [Array.from({ length: n }, (_, i) => i)] *)
Definition index_range (n : nat) : list nat := seq 0 n.

Section WithConstants.

(** [PHRASES] of [constants.ts], and the [Math.random()] oracle. *)
Variable PHRASES : list string.
Variable random : nat -> Q.

Definition Math_random : Handler Q :=
  fun _ p => (random (draws p), mkPending (queue p) (S (draws p)) (selected p)).

(** Ghost: remember which index a selection chose (the later revision of
    the component keeps it in state, with [setActivePhraseIndex]). *)
Definition note_selected (i : option nat) : Handler unit :=
  fun _ p => (tt, mkPending (queue p) (draws p) (selected p ++ [i])).

(** [Math.floor(u * n)] for the oracle value [u] and an array length [n],
    the product taken exactly. The code floors the product rounded to
    binary64 ([Binary64.floor_product]), which is the next integer when the
    exact product lies within half a unit in the last place below it
    ([floor_scaled_rounding] has an instance). Both are below [n]
    ([floor_scaled_lt], [floor_product_below]) and every index below [n] is
    the floor of an exact product ([floor_scaled_onto]), so a run of the
    code is a run of this model for some oracle. What is stated below of a
    selection holds for whichever index below [n] is chosen; where an
    input is evaluated, its products are binary64 numbers
    ([floor_scaled_samples]). *)
Definition floor_scaled (u : Q) (n : nat) : nat :=
  Z.to_nat (Qfloor (u * inject_Z (Z.of_nat n))).

(** [PHRASES[phraseIndex]] where [phraseIndex] may be [undefined]. *)
Definition phrase_at (phraseIndex : option nat) : option string :=
  match phraseIndex with
  | Some i => nth_error PHRASES i
  | None => None
  end.

(** [triggerNewPhrase]: pick a random phrase without repetition. *)
Definition triggerNewPhrase : Handler unit :=
  avail <- read availableIndices ;;
  let indices :=
    if Nat.eqb (length avail) 0
    then index_range (length PHRASES)   (* reset if we used all phrases *)
    else avail in
  u <- Math_random ;;
  let randomIndex := floor_scaled u (length indices) in
  let phraseIndex := nth_error indices randomIndex in
  let newIndices := splice1 randomIndex indices in
  note_selected phraseIndex ;;
  set (SetAvailableIndices newIndices) ;;
  set (SetCurrentPhrase (phrase_at phraseIndex)).

(** [handleGestureDetected] *)
Definition handleGestureDetected (detectedState : GestureState) : Handler unit :=
  expanded <- read isExpanded ;;
  (if GestureState_eqb detectedState OPEN && negb expanded then
     set (SetIsExpanded true) ;;
     triggerNewPhrase
   else if GestureState_eqb detectedState CLOSED && expanded then
     set (SetIsExpanded false)
   else ret tt) ;;
  set (SetGestureState detectedState).

(** [handleManualToggle] *)
Definition handleManualToggle : Handler unit :=
  expanded <- read isExpanded ;;
  if expanded then
    set (SetIsExpanded false) ;;
    set (SetGestureState CLOSED)
  else
    set (SetIsExpanded true) ;;
    set (SetGestureState OPEN) ;;
    triggerNewPhrase.

(** The component between two events: the committed state, the position in
    the random stream and the ghost history of selections. *)
Record World : Type := mkWorld {
  app : State;
  rng : nat;
  history : list (option nat)
}.

(** Run a handler whose closure captured the state [closure], and commit
    the updates it queued to the current state. *)
Definition dispatch_from (closure : State) (h : Handler unit) (w : World) : World :=
  let p := snd (h closure (mkPending [] (rng w) (history w))) in
  mkWorld (commit (app w) (queue p)) (draws p) (selected p).

(** Run a handler created by the latest render: its closure holds the
    current state. *)
Definition dispatch (h : Handler unit) (w : World) : World :=
  dispatch_from (app w) h w.

(** The first render: [useState] initial values. *)
Definition initial_state : State :=
  mkState CLOSED false (Some EmptyString) (index_range (length PHRASES)).

Definition initial : World := mkWorld initial_state 0 [].

(** The worlds reached after each handler of a sequence, in order. *)
Fixpoint run (hs : list (Handler unit)) (w : World) : list World :=
  match hs with
  | [] => []
  | h :: hs' => let w' := dispatch h w in w' :: run hs' w'
  end.

(** The worlds reached when every signal goes to the handler of the latest
    render. This is the delivery the handler is written for; the analysis
    loop of CameraHandler delivers as [feed_from] does. *)
Definition feed (signals : list GestureState) (w : World) : list World :=
  run (map handleGestureDetected signals) w.

(** The worlds reached when every signal goes to the handler of one earlier
    render, whose closure captured [closure]: the interval of CameraHandler
    keeps the [onGestureDetected] of the render it was started in. *)
Fixpoint feed_from (closure : State) (signals : list GestureState) (w : World)
    : list World :=
  match signals with
  | [] => []
  | g :: signals' =>
      let w' := dispatch_from closure (handleGestureDetected g) w in
      w' :: feed_from closure signals' w'
  end.

(** Number of transitions of [isExpanded] from [negb b] to [b] along the
    worlds [ws] visited after [w]. *)
Fixpoint entries (b : bool) (w : World) (ws : list World) : nat :=
  match ws with
  | [] => 0
  | w' :: ws' =>
      (if Bool.eqb (isExpanded (app w)) (negb b) && Bool.eqb (isExpanded (app w')) b
       then 1 else 0) + entries b w' ws'
  end.

(** Number of [triggerNewPhrase] calls made so far. *)
Definition selections (w : World) : nat := length (history w).

(** [n] consecutive calls of the phrase selector, each made by the render
    that follows the call before (its closure holds the current
    [availableIndices]), as the clicks on the manual toggle make them. *)
Definition select_times (n : nat) (w : World) : list World :=
  run (repeat triggerNewPhrase n) w.

End WithConstants.

(** The signal the classifier has to deliver for the transition the manual
    toggle performs in state [s]. *)
Definition corresponding_signal (s : State) : GestureState :=
  if isExpanded s then CLOSED else OPEN.

End App.

(** The contract of [Math.random()]: a value in [0, 1). *)
Definition random_ok (rnd : nat -> Q) : Prop :=
  forall k, (0 <= rnd k)%Q /\ (rnd k < 1)%Q.

(* ===================================================================== *)
(** * JavaScript numbers that decide a count: IEEE 754 binary64 *)
(* ===================================================================== *)

Module Binary64.

Definition prec : Z := 53.
Definition emax : Z := 1024.

(** The Number holding the integer [n] (exact below 2^53). *)
Definition of_Z (n : Z) : spec_float := binary_normalize prec emax n 0 false.

(** [x * y] *)
Definition mul (x y : spec_float) : spec_float := SFmul prec emax x y.

(** The literals [0.35] and [0.4]: the nearest binary64 values,
    0x1.6666666666666p-2 and 0x1.999999999999ap-2. *)
Definition literal_0_35 : spec_float :=
  S754_finite false 6305039478318694 (-54).

Definition literal_0_4 : spec_float :=
  S754_finite false 7205759403792794 (-54).

(** The number a finite binary64 stands for. *)
Definition to_Q (x : spec_float) : Q :=
  match x with
  | S754_finite s m e => (inject_Z (cond_Zopp s (Zpos m)) * 2 ^ e)%Q
  | _ => 0%Q
  end.

Definition to_R (x : spec_float) : R := Q2R (to_Q x).

(** [Math.floor(x)] of a finite [x]; [None] stands for NaN and the
    infinities, which [Math.floor] returns unchanged. *)
Definition Math_floor (x : spec_float) : option Z :=
  match x with
  | S754_zero _ => Some 0%Z
  | S754_finite s m e => Some (Z.shiftl (cond_Zopp s (Zpos m)) e)
  | S754_infinity _ | S754_nan => None
  end.

(** [Math.floor(n * fraction)] for an integer [n]. A product that is not
    finite (impossible for [|n| < 2^53]) is mapped to 0. *)
Definition floor_fraction (fraction : spec_float) (n : Z) : Z :=
  match Math_floor (mul (of_Z n) fraction) with
  | Some z => z
  | None => 0%Z
  end.

(** [Math.floor(u * n)] for a random number [u] and an array length [n]. *)
Definition floor_product (u : spec_float) (n : Z) : Z :=
  match Math_floor (mul u (of_Z n)) with
  | Some z => z
  | None => 0%Z
  end.

(** The binary64 numbers in [0, 1) that are zero or normal (at least
    2^-1022): the multiples of 2^-53 below 1 are among them. *)
Definition unit_random (u : spec_float) : Prop :=
  match u with
  | S754_zero false => True
  | S754_finite false m e =>
      (2 ^ 52 <= Zpos m < 2 ^ 53)%Z /\ (-1074 <= e <= -53)%Z
  | _ => False
  end.

(** [x + y], [x - y], and the literals [0.04], [0.99], [0] and [1]. *)
Definition add (x y : spec_float) : spec_float := SFadd prec emax x y.
Definition sub (x y : spec_float) : spec_float := SFsub prec emax x y.

Definition literal_0_04 : spec_float :=
  S754_finite false 5764607523034235 (-57).

Definition literal_0_99 : spec_float :=
  S754_finite false 8917127262193582 (-53).

Definition zero : spec_float := of_Z 0.
Definition one : spec_float := of_Z 1.

(** [value += (target - value) * 0.04] as the render loop computes it. *)
Definition lerp_step (target value : spec_float) : spec_float :=
  add value (mul (sub target value) literal_0_04).

(** The values of the uniform after each of [n] frames with one target. *)
Fixpoint trajectory (n : nat) (target value : spec_float) : list spec_float :=
  match n with
  | O => []
  | S n' =>
      let value' := lerp_step target value in
      value' :: trajectory n' target value'
  end.

End Binary64.

(* ===================================================================== *)
(** * components/SaturnScene.tsx (shader-based scene) *)
(* ===================================================================== *)

Module Scene.

Local Open Scope R_scope.

Record vec3 : Type := mkVec3 { vx : R; vy : R; vz : R }.

(** A [THREE.Color]: its r, g, b components. *)
Record Color : Type := mkColor { red : R; green : R; blue : R }.

(** ** GLSL built-ins used by the vertex shader *)

Definition clamp (x minVal maxVal : R) : R := Rmin (Rmax x minVal) maxVal.

Definition smoothstep (edge0 edge1 x : R) : R :=
  let t := clamp ((x - edge0) / (edge1 - edge0)) 0 1 in
  t * t * (3 - 2 * t).

Definition mix (x y a : R) : R := x * (1 - a) + y * a.

Definition mix3 (p q : vec3) (a : R) : vec3 :=
  mkVec3 (mix (vx p) (vx q) a) (mix (vy p) (vy q) a) (mix (vz p) (vz q) a).

(** ** The vertex shader *)

(** The "organic movement" added to the nebula position. *)
Definition wander (uTime : R) (aRandomPosition : vec3) : vec3 :=
  let noiseFreq := 0.5 in
  let noiseAmp := 2.0 in
  mkVec3
    (vx aRandomPosition + sin (uTime * 0.5 + vy aRandomPosition * noiseFreq) * noiseAmp)
    (vy aRandomPosition + cos (uTime * 0.3 + vx aRandomPosition * noiseFreq) * noiseAmp)
    (vz aRandomPosition + sin (uTime * 0.4 + vz aRandomPosition * noiseFreq) * noiseAmp).

(** The "subtle breathing effect" of the Saturn position. *)
Definition bob (uTime : R) (position : vec3) : vec3 :=
  mkVec3 (vx position)
         (vy position + sin (uTime * 2.0 + vx position) * 0.1)
         (vz position).

(** [nebulaPos] and [saturnPos] as [main] has them when it interpolates. *)
Definition nebulaPos (uTime uExpansion : R) (aRandomPosition : vec3) : vec3 :=
  if Rlt_dec 0.01 uExpansion then wander uTime aRandomPosition
  else aRandomPosition.

Definition saturnPos (uTime uExpansion : R) (position : vec3) : vec3 :=
  if Rlt_dec uExpansion 0.99 then bob uTime position else position.

(** [finalPos] of [main]. *)
Definition finalPos (uTime uExpansion : R) (position aRandomPosition : vec3) : vec3 :=
  let t := smoothstep 0.0 1.0 uExpansion in
  mix3 (saturnPos uTime uExpansion position)
       (nebulaPos uTime uExpansion aRandomPosition) t.

(** [vAlpha] of [main]. *)
Definition vAlpha (uExpansion : R) : R :=
  1.0 - smoothstep 0.0 1.0 uExpansion * 0.3.

(** [x] lies between [a] and [b], whichever is the larger. *)
Definition between (a b x : R) : Prop := Rmin a b <= x <= Rmax a b.

Definition between3 (p q v : vec3) : Prop :=
  between (vx p) (vx q) (vx v) /\
  between (vy p) (vy q) (vy v) /\
  between (vz p) (vz q) (vz v).

(** ** Typed arrays *)

(** The elements are real numbers: a store keeps the value it is given,
    where the code rounds it to the nearest binary32 (a relative error of
    at most 2^-24 in the normal range of binary32). Properties of stored
    values that rounding would break are stated with a margin, for every
    value [Shading.near] the one kept here. *)
Definition Float32Array : Type := list R.

(** [new Float32Array(n)]: zero-filled. It throws a RangeError ([None])
    for a negative length or one above 2^53 - 1, and whenever the engine
    cannot allocate the buffer; which lengths it can allocate is up to the
    engine and the memory left: [allocated] is its answer. *)
Definition new_Float32Array (allocated : Z -> bool) (n : Z) : option Float32Array :=
  if ((n <? 0) || (2 ^ 53 <=? n))%Z then None
  else if allocated n then Some (repeat 0 (Z.to_nat n))
  else None.

(** [a[i] = v]: a store outside the array is ignored. *)
Definition store (a : Float32Array) (i : Z) (v : R) : Float32Array :=
  if ((0 <=? i) && (i <? Z.of_nat (length a)))%Z
  then firstn (Z.to_nat i) a ++ v :: skipn (S (Z.to_nat i)) a
  else a.

Definition store3 (a : Float32Array) (i : Z) (v : vec3) : Float32Array :=
  store (store (store a i (vx v)) (i + 1) (vy v)) (i + 2) (vz v).

(** [for (let i = 0; i < n; i++) body] *)
Definition for_loop {S : Type} (n : nat) (body : nat -> S -> S) (s : S) : S :=
  fold_left (fun acc i => body i acc) (seq 0 n) s.

(** The four attribute buffers the scene hands to the GPU. *)
Record Attributes : Type := mkAttributes {
  positions : Float32Array;
  randomPositions : Float32Array;
  colors : Float32Array;
  sizes : Float32Array
}.

(** The two structural groups. *)
Inductive Group : Type := Body | Ring.

Section Generator.

(** The engine's answer to the [k]-th allocation of a typed array the
    generator asks for, constants of [constants.ts], the four [THREE.Color]
    values the generator builds, and the [Math.random()] oracle. *)
Variable allocates : nat -> Z -> bool.
Variable PARTICLE_COUNT : Z.
Variables SATURN_RADIUS RING_INNER_RADIUS RING_OUTER_RADIUS EXPANSION_SCALE : R.
Variables colorSaturn1 colorSaturn2 colorRing1 colorRing2 : Color.
Variable random : nat -> Q.

(** [Math.random()] as a real number, [k]-th call. *)
Definition rnd (k : nat) : R := Q2R (random k).

(** [const sphereCount = Math.floor(PARTICLE_COUNT * 0.35)] *)
Definition sphereCount : Z :=
  Binary64.floor_fraction Binary64.literal_0_35 PARTICLE_COUNT.

(** [const ringCount = PARTICLE_COUNT - sphereCount] *)
Definition ringCount : Z := (PARTICLE_COUNT - sphereCount)%Z.

(** [Math.sqrt(t) * (RING_OUTER_RADIUS - RING_INNER_RADIUS) + RING_INNER_RADIUS] *)
Definition ring_radius (inner outer t : R) : R :=
  sqrt t * (outer - inner) + inner.

(** The state of the generator while its loops run. *)
Record Gen : Type := mkGen {
  pos : Float32Array;
  randPos : Float32Array;
  cols : Float32Array;
  siz : Float32Array;
  idx : Z;
  drawn : nat
}.

Definition color_vec (c : Color) : vec3 := mkVec3 (red c) (green c) (blue c).

(** Body of the first loop ("1. Planet Sphere"). *)
Definition sphere_body (i : nat) (g : Gen) : Gen :=
  let phi := acos (-1 + (2 * INR i) / IZR sphereCount) in
  let theta := sqrt (IZR sphereCount * PI) * phi in
  let r := SATURN_RADIUS in
  let x := r * cos theta * sin phi in
  let y := (r * sin theta * sin phi) * 0.9 in
  let z := r * cos phi in
  let k := drawn g in
  let pos' := store3 (pos g) (idx g) (mkVec3 x y z) in
  let randPos' :=
    store3 (randPos g) (idx g)
      (mkVec3 ((rnd k - 0.5) * EXPANSION_SCALE * 2.5)
              ((rnd (k + 1) - 0.5) * EXPANSION_SCALE * 2.5)
              ((rnd (k + 2) - 0.5) * EXPANSION_SCALE * 2.5)) in
  let c := if Nat.even i then colorSaturn1 else colorSaturn2 in
  let cols' := store3 (cols g) (idx g) (color_vec c) in
  let siz' := store (siz g) (Z.of_nat i) (rnd (k + 3) * 0.4 + 0.2) in
  mkGen pos' randPos' cols' siz' (idx g + 3) (k + 4).

(** Body of the second loop ("2. Rings"). In [Math.random() > 0.4] the
    literal is the binary64 0.40000000000000002220446..., not 2/5. *)
Definition ring_body (i : nat) (g : Gen) : Gen :=
  let k := drawn g in
  let angle := rnd k * PI * 2 in
  let t := rnd (k + 1) in
  let r := ring_radius RING_INNER_RADIUS RING_OUTER_RADIUS t in
  let x := cos angle * r in
  let z := sin angle * r in
  let y := (rnd (k + 2) - 0.5) * 0.4 in
  let pos' := store3 (pos g) (idx g) (mkVec3 x y z) in
  let randPos' :=
    store3 (randPos g) (idx g)
      (mkVec3 ((rnd (k + 3) - 0.5) * EXPANSION_SCALE * 4)
              ((rnd (k + 4) - 0.5) * EXPANSION_SCALE * 4)
              ((rnd (k + 5) - 0.5) * EXPANSION_SCALE * 4)) in
  let c := if Rlt_dec (Binary64.to_R Binary64.literal_0_4) (rnd (k + 6))
           then colorRing1 else colorRing2 in
  let cols' := store3 (cols g) (idx g) (color_vec c) in
  let siz' := store (siz g) (sphereCount + Z.of_nat i) (rnd (k + 7) * 0.25 + 0.1) in
  mkGen pos' randPos' cols' siz' (idx g + 3) (k + 8).

(** The [useMemo] that generates the particle data. [None]: an
    allocation threw a RangeError. *)
Definition generate : option Attributes :=
  match new_Float32Array (allocates 0) (PARTICLE_COUNT * 3),
        new_Float32Array (allocates 1) (PARTICLE_COUNT * 3),
        new_Float32Array (allocates 2) (PARTICLE_COUNT * 3),
        new_Float32Array (allocates 3) PARTICLE_COUNT with
  | Some pos0, Some randPos0, Some cols0, Some siz0 =>
      let g0 := mkGen pos0 randPos0 cols0 siz0 0 0 in
      let g1 := for_loop (Z.to_nat sphereCount) sphere_body g0 in
      let g2 := for_loop (Z.to_nat ringCount) ring_body g1 in
      Some (mkAttributes (pos g2) (randPos g2) (cols g2) (siz g2))
  | _, _, _, _ => None
  end.

(** *** What each particle holds, in closed form *)

(** One particle: its slots of the four buffers. *)
Record Particle : Type := mkParticle {
  home : vec3;
  scatter : vec3;
  color : Color;
  size : R
}.

(** The [i]-th particle of the planet body; it uses the random numbers
    [4 i .. 4 i + 3]. *)
Definition body_particle (i : nat) : Particle :=
  let phi := acos (-1 + (2 * INR i) / IZR sphereCount) in
  let theta := sqrt (IZR sphereCount * PI) * phi in
  let k := (4 * i)%nat in
  mkParticle
    (mkVec3 (SATURN_RADIUS * cos theta * sin phi)
            ((SATURN_RADIUS * sin theta * sin phi) * 0.9)
            (SATURN_RADIUS * cos phi))
    (mkVec3 ((rnd k - 0.5) * EXPANSION_SCALE * 2.5)
            ((rnd (k + 1) - 0.5) * EXPANSION_SCALE * 2.5)
            ((rnd (k + 2) - 0.5) * EXPANSION_SCALE * 2.5))
    (if Nat.even i then colorSaturn1 else colorSaturn2)
    (rnd (k + 3) * 0.4 + 0.2).

(** The [j]-th particle of the ring; it uses the random numbers
    [base + 8 j .. base + 8 j + 7], [base] being the number of calls the
    first loop made. *)
Definition ring_particle (j : nat) : Particle :=
  let k := (4 * Z.to_nat sphereCount + 8 * j)%nat in
  let angle := rnd k * PI * 2 in
  let r := ring_radius RING_INNER_RADIUS RING_OUTER_RADIUS (rnd (k + 1)) in
  mkParticle
    (mkVec3 (cos angle * r) ((rnd (k + 2) - 0.5) * 0.4) (sin angle * r))
    (mkVec3 ((rnd (k + 3) - 0.5) * EXPANSION_SCALE * 4)
            ((rnd (k + 4) - 0.5) * EXPANSION_SCALE * 4)
            ((rnd (k + 5) - 0.5) * EXPANSION_SCALE * 4))
    (if Rlt_dec (Binary64.to_R Binary64.literal_0_4) (rnd (k + 6))
     then colorRing1 else colorRing2)
    (rnd (k + 7) * 0.25 + 0.1).

(** The particles in buffer order: the body group, then the ring group. *)
Definition particles_of_groups : list (Group * Particle) :=
  map (fun i => (Body, body_particle i)) (seq 0 (Z.to_nat sphereCount)) ++
  map (fun j => (Ring, ring_particle j)) (seq 0 (Z.to_nat ringCount)).

End Generator.

(** Laying particles out in buffers of item size 3 and 1. *)
Definition flatten3 (vs : list vec3) : Float32Array :=
  flat_map (fun v => [vx v; vy v; vz v]) vs.

Definition layout (ps : list Particle) : Attributes :=
  mkAttributes (flatten3 (map home ps))
               (flatten3 (map scatter ps))
               (flatten3 (map (fun p => color_vec (color p)) ps))
               (map size ps).

(** One iteration of either loop, seen as the write of one particle: its
    three coordinates, scatter target and colour at [idx], its size at
    [sizeIndex]. *)
Definition write_particle (p : Particle) (sizeIndex : Z) (drawn' : nat) (g : Gen) : Gen :=
  mkGen (store3 (pos g) (idx g) (home p))
        (store3 (randPos g) (idx g) (scatter p))
        (store3 (cols g) (idx g) (color_vec (color p)))
        (store (siz g) sizeIndex (size p))
        (idx g + 3) drawn'.

(** The generator state in which the particles [ps] are written and [rest]
    zeroed slots remain, after [k] random numbers. *)
Definition filled (ps : list Particle) (rest k : nat) : Gen :=
  mkGen (flatten3 (map home ps) ++ repeat 0 (3 * rest))
        (flatten3 (map scatter ps) ++ repeat 0 (3 * rest))
        (flatten3 (map (fun p => color_vec (color p)) ps) ++ repeat 0 (3 * rest))
        (map size ps ++ repeat 0 rest)
        (Z.of_nat (3 * length ps)) k.




(** "Invalid construction parameters make the initialization fail": a
    non-positive count, an inner radius not below the outer one, or a
    negative radius. *)
Definition rejects_invalid_parameters : Prop :=
  forall (allocates : nat -> Z -> bool)
         (N : Z) (saturn inner outer scale : R) (c1 c2 c3 c4 : Color)
         (random : nat -> Q),
    (N <= 0)%Z \/ outer <= inner \/ inner < 0 \/ outer < 0 \/ saturn < 0 ->
    generate allocates N saturn inner outer scale c1 c2 c3 c4 random = None.

(** ** The render loop *)

(** [pointsRef.current.rotation] *)
Record Euler : Type := mkEuler { rot_x : R; rot_y : R; rot_z : R }.

(** What [useFrame] reads and writes: the two uniforms, the rotation of the
    points object ([None] while [pointsRef.current] is null) and the
    attribute buffers of the geometry. *)
Record Component : Type := mkComponent {
  uTime : R;
  uExpansion : R;
  rotation : option Euler;
  attributes : Attributes
}.

(** The [useFrame] callback, for the [isExpanded] prop of the current
    render and the clock's [elapsedTime]. *)
Definition useFrame (isExpanded : bool) (elapsedTime : R) (c : Component) : Component :=
  let target := if isExpanded then 1.0 else 0.0 in
  mkComponent
    elapsedTime
    (uExpansion c + (target - uExpansion c) * 0.04)
    (match rotation c with
     | Some r =>
         Some (mkEuler (PI / 12)
                       (if isExpanded then rot_y r else rot_y r + 0.001)
                       (PI / 6))
     | None => None
     end)
    (attributes c).

(** A frame: the [isExpanded] prop and the clock value it is rendered with. *)
Definition Frame : Type := (bool * R)%type.

Definition run_frames (frames : list Frame) (c : Component) : Component :=
  fold_left (fun acc f => useFrame (fst f) (snd f) acc) frames c.

(** The component once mounted: uniforms at 0, the points object unrotated. *)
Definition mounted (a : Attributes) : Component :=
  mkComponent 0 0 (Some (mkEuler 0 0 0)) a.



(** [n] frames with the same [isExpanded], rendered at clock values [ts]. *)
Definition frames_with (isExpanded : bool) (ts : list R) : list Frame :=
  map (fun t => (isExpanded, t)) ts.


(** "Every intermediate blend yields, per coordinate, a value between the
    compact-mode formula and the dispersed-mode formula." *)
Definition interpolates_between_formulas : Prop :=
  forall (uTime blend : R) (position aRandomPosition : vec3),
    0 < blend < 1 ->
    between3 (bob uTime position) (wander uTime aRandomPosition)
             (finalPos uTime blend position aRandomPosition).

(** "The square of the ring radius is uniform on [inner^2, outer^2]".
    For [t] uniform on [0, 1) an event [t <= c] has probability [c], so the
    statement is: at every level [y] of that interval, the event
    [radius^2 <= y] is the event [t <= (y - inner^2) / (outer^2 - inner^2)],
    whose probability is the uniform distribution function at [y]. *)
Definition radius_squared_uniform (inner outer : R) : Prop :=
  forall y t : R,
    inner * inner <= y <= outer * outer ->
    0 <= t < 1 ->
    (ring_radius inner outer t * ring_radius inner outer t <= y
     <-> t <= (y - inner * inner) / (outer * outer - inner * inner)).

End Scene.

(* ===================================================================== *)
(** * The CPU-interpolating variant of SaturnScene *)
(* ===================================================================== *)

Module CpuScene.

Import Scene.
Local Open Scope R_scope.

(** [ParticlePoint] of [types.ts]. *)
Record ParticlePoint : Type := mkParticlePoint {
  x : R;
  y : R;
  z : R;
  initialX : R;
  initialY : R;
  initialZ : R;
  randomX : R;
  randomY : R;
  randomZ : R;
  color : string;
  size : R
}.

Section Generator.

Variable PARTICLE_COUNT : Z.
Variables SATURN_RADIUS RING_INNER_RADIUS RING_OUTER_RADIUS EXPANSION_SCALE : R.
Variable random : nat -> Q.

(** [const sphereCount = Math.floor(PARTICLE_COUNT * 0.4)] *)
Definition sphereCount : Z :=
  Binary64.floor_fraction Binary64.literal_0_4 PARTICLE_COUNT.

Definition ringCount : Z := (PARTICLE_COUNT - sphereCount)%Z.

(** The array [temp] and the number of [Math.random()] calls made. *)
Definition Gen : Type := (list ParticlePoint * nat)%type.

(** Body of the "Create Planet Sphere" loop: one [temp.push]. *)
Definition sphere_body (i : nat) (g : Gen) : Gen :=
  let (temp, k) := g in
  let phi := acos (-1 + (2 * INR i) / IZR sphereCount) in
  let theta := sqrt (IZR sphereCount * PI) * phi in
  let x := SATURN_RADIUS * cos theta * sin phi in
  let y := SATURN_RADIUS * sin theta * sin phi in
  let z := SATURN_RADIUS * cos phi in
  let flattenedY := y * 0.9 in
  (temp ++ [mkParticlePoint x flattenedY z x flattenedY z
              ((rnd random k - 0.5) * EXPANSION_SCALE * 2)
              ((rnd random (k + 1) - 0.5) * EXPANSION_SCALE * 2)
              ((rnd random (k + 2) - 0.5) * EXPANSION_SCALE * 2)
              (if Nat.even i then "#C5A984" else "#EAD6B8")%string
              (rnd random (k + 3) * 0.3 + 0.1)],
   (k + 4)%nat).

(** Body of the "Create Rings" loop. *)
Definition ring_body (i : nat) (g : Gen) : Gen :=
  let (temp, k) := g in
  let angle := rnd random k * PI * 2 in
  let distance :=
    ring_radius RING_INNER_RADIUS RING_OUTER_RADIUS (rnd random (k + 1)) in
  let x := cos angle * distance in
  let z := sin angle * distance in
  let y := (rnd random (k + 2) - 0.5) * 0.5 in
  (temp ++ [mkParticlePoint x y z x y z
              ((rnd random (k + 3) - 0.5) * EXPANSION_SCALE * 3)
              ((rnd random (k + 4) - 0.5) * EXPANSION_SCALE * 3)
              ((rnd random (k + 5) - 0.5) * EXPANSION_SCALE * 3)
              (if Rlt_dec 0.5 (rnd random (k + 6)) then "#A89F91" else "#8B7355")%string
              (rnd random (k + 7) * 0.2 + 0.05)],
   (k + 8)%nat).

(** The [useMemo] that initializes [particles]. *)
Definition particles : list ParticlePoint :=
  let g1 := for_loop (Z.to_nat sphereCount) sphere_body ([], 0%nat) in
  let g2 := for_loop (Z.to_nat ringCount) ring_body g1 in
  fst g2.

End Generator.

(** The target of particle [i] in [useFrame]. *)
Definition target (isExpanded : bool) (time : R) (i : nat) (p : ParticlePoint) : vec3 :=
  if isExpanded then
    mkVec3 (initialX p + randomX p + sin (time + INR i) * 2)
           (initialY p + randomY p + cos (time + INR i) * 2)
           (initialZ p + randomZ p + sin (time * 0.5 + INR i) * 2)
  else
    let rotationSpeed := 0.2 in
    let cosRot := cos (time * rotationSpeed) in
    let sinRot := sin (time * rotationSpeed) in
    mkVec3 (initialX p * cosRot - initialZ p * sinRot)
           (initialY p + sin (time * 2 + initialX p) * 0.1)
           (initialX p * sinRot + initialZ p * cosRot).

(** [current + (target - current) * lerpSpeed] on the three coordinates. *)
Definition lerp_towards (isExpanded : bool) (current tgt : vec3) : vec3 :=
  let lerpSpeed := if isExpanded then 0.03 else 0.05 in
  mkVec3 (vx current + (vx tgt - vx current) * lerpSpeed)
         (vy current + (vy tgt - vy current) * lerpSpeed)
         (vz current + (vz tgt - vz current) * lerpSpeed).

(** Rotation of [v] by [angle] around the vertical (Y) axis. *)
Definition rotate_y (angle : R) (v : vec3) : vec3 :=
  mkVec3 (vx v * cos angle - vz v * sin angle)
         (vy v)
         (vx v * sin angle + vz v * cos angle).

Definition initial_position (p : ParticlePoint) : vec3 :=
  mkVec3 (initialX p) (initialY p) (initialZ p).

End CpuScene.

(* ===================================================================== *)
(** * App.tsx: sequences of events, and the memoised gesture handler *)
(* ===================================================================== *)

Module AppRuns.

Import App.

(** What reaches the component: a call of [handleGestureDetected], or a
    click on the button bound to [handleManualToggle]. *)
Inductive Event : Type :=
  | Signal (g : GestureState)
  | ManualToggle.

Section WithConstants.

Variable PHRASES : list string.
Variable random : nat -> Q.

Definition handler (e : Event) : Handler unit :=
  match e with
  | Signal g => handleGestureDetected PHRASES random g
  | ManualToggle => handleManualToggle PHRASES random
  end.

(** The worlds reached after each event, every event being handled by the
    handler of the latest render. *)
Definition play (es : list Event) (w : World) : list World :=
  run (map handler es) w.

(** [useCallback(..., [isExpanded])]: a render keeps the callback of the
    render before unless [isExpanded] differs from the value that callback
    was created with. A callback sees the state of the render that created
    it; [memo] is that state for the current [handleGestureDetected]. The
    plain function [handleManualToggle] is re-created by every render. *)
Record Rendered : Type := mkRendered {
  world : World;
  memo : State
}.

Definition render (previous : State) (w : World) : Rendered :=
  mkRendered w
    (if Bool.eqb (isExpanded previous) (isExpanded (app w))
     then previous else app w).

(** One event, delivered to the callbacks the latest render handed out. *)
Definition deliver (r : Rendered) (e : Event) : Rendered :=
  render (memo r)
    (match e with
     | Signal g =>
         dispatch_from (memo r) (handleGestureDetected PHRASES random g) (world r)
     | ManualToggle =>
         dispatch (handleManualToggle PHRASES random) (world r)
     end).

Definition first_render : Rendered :=
  mkRendered (initial PHRASES) (initial_state PHRASES).

Definition play_memoised (es : list Event) (r : Rendered) : Rendered :=
  fold_left deliver es r.

(** The worlds the component can be in when a gesture signal may come from
    the handler of any render so far (an interval keeps the handler it was
    started with) and is never NONE (CameraHandler passes OPEN and CLOSED
    only), and a click goes to the toggle of the latest render. *)
Inductive reachable : World -> Prop :=
  | reachable_initial : reachable (initial PHRASES)
  | reachable_signal (w c : World) (g : GestureState) :
      reachable w -> reachable c -> g <> NONE ->
      reachable (dispatch_from (app c) (handleGestureDetected PHRASES random g) w)
  | reachable_toggle (w : World) :
      reachable w ->
      reachable (dispatch (handleManualToggle PHRASES random) w).

End WithConstants.

End AppRuns.

(* ===================================================================== *)
(** * services/visionService.ts *)
(* ===================================================================== *)

Module Vision.

(** The value [detectGesture] resolves to, as far as its caller looks at
    it. [JSON.parse] may return any JSON value: [null], on which reading a
    property throws, or a value whose [gesture] property is a string
    ([Some]) or something else - absent, a number, an object - ([None]);
    likewise [confidence] is a number or not. *)
Inductive Parsed : Type :=
  | ParsedNull
  | ParsedValue (gesture : option string) (confidence : option Q).

(** What [ai.models.generateContent] does with a request: it throws (the
    promise rejects), or yields a response whose [text] is a string or
    [undefined]. *)
Inductive ApiResult : Type :=
  | ApiError
  | ApiResponse (text : option string).

(** [s] without its prefix [p]; [None] when [s] does not start with [p]. *)
Fixpoint strip_prefix (p s : string) : option string :=
  match p, s with
  | EmptyString, _ => Some s
  | String a p', String b s' =>
      if Ascii.eqb a b then strip_prefix p' s' else None
  | String _ _, EmptyString => None
  end.

(** The strings the pattern [/^data:image\/(png|jpeg|webp);base64,/] matches
    at the start of its input, in the order of its alternatives. *)
Definition data_url_prefixes : list string :=
  ["data:image/png;base64,"; "data:image/jpeg;base64,";
   "data:image/webp;base64,"]%string.

Fixpoint strip_first (ps : list string) (s : string) : string :=
  match ps with
  | [] => s
  | p :: ps' =>
      match strip_prefix p s with
      | Some rest => rest
      | None => strip_first ps' s
      end
  end.

(** [base64Image.replace(/^data:image\/(png|jpeg|webp);base64,/, "")] *)
Definition clean_base64 (base64Image : string) : string :=
  strip_first data_url_prefixes base64Image.

(** [{ gesture: 'NONE', confidence: 0 }] *)
Definition no_gesture : Parsed := ParsedValue (Some "NONE"%string) (Some 0%Q).

Section Service.

(** The model call, as a function of the inline image data it is sent, and
    [JSON.parse] ([None]: it throws a SyntaxError). *)
Variable generateContent : string -> ApiResult.
Variable JSON_parse : string -> option Parsed.

(** [detectGesture]: the value its promise resolves to. The whole body is
    inside [try], so the promise never rejects. *)
Definition detectGesture (base64Image : string) : Parsed :=
  let cleanBase64 := clean_base64 base64Image in
  match generateContent cleanBase64 with
  | ApiError => no_gesture                      (* catch *)
  | ApiResponse None => no_gesture              (* !text *)
  | ApiResponse (Some text) =>
      if String.eqb text EmptyString then no_gesture   (* !text *)
      else match JSON_parse text with
           | Some result => result
           | None => no_gesture                 (* catch *)
           end
  end.

End Service.

End Vision.

(* ===================================================================== *)
(** * components/CameraHandler.tsx *)
(* ===================================================================== *)

Module Camera.

(** [response.gesture === name] for a string literal [name]. *)
Definition gesture_is (name : string) (gesture : option string) : bool :=
  match gesture with
  | Some s => String.eqb s name
  | None => false
  end.

(** The [then] callback of the analysis loop: the call of
    [onGestureDetected] it makes, if any. On [null] the property read
    throws and nothing is called. *)
Definition on_response (response : Vision.Parsed) : option GestureState :=
  match response with
  | Vision.ParsedNull => None
  | Vision.ParsedValue gesture _ =>
      if negb (gesture_is "NONE" gesture) then
        Some (if gesture_is "OPEN" gesture then OPEN else CLOSED)
      else None
  end.

Section Loop.

Variable PHRASES : list string.
Variable random : nat -> Q.

(** One response arriving in a loop whose callback holds the
    [onGestureDetected] of a render with state [captured]. *)
Definition respond (captured : App.State) (response : Vision.Parsed)
    (w : App.World) : App.World :=
  match on_response response with
  | Some state =>
      App.dispatch_from captured
        (App.handleGestureDetected PHRASES random state) w
  | None => w
  end.

(** The worlds reached after each of the responses of one loop, in their
    order of arrival. *)
Fixpoint analysis_loop (captured : App.State) (responses : list Vision.Parsed)
    (w : App.World) : list App.World :=
  match responses with
  | [] => []
  | r :: responses' =>
      let w' := respond captured r w in
      w' :: analysis_loop captured responses' w'
  end.

(** The responses of a classifier that reports the given gestures, in
    their order, each with confidence 1. *)
Definition reports (gestures : list string) : list Vision.Parsed :=
  map (fun gesture => Vision.ParsedValue (Some gesture) (Some 1%Q)) gestures.

(** The responses of a list that make the loop call the handler with OPEN. *)
Definition opens (responses : list Vision.Parsed) : nat :=
  length (filter (fun r => match on_response r with
                           | Some OPEN => true
                           | _ => false
                           end) responses).

Variable generateContent : string -> Vision.ApiResult.
Variable JSON_parse : string -> option Vision.Parsed.

(** One run of the interval callback, with its response: [frame] is the
    data URL of the captured video frame, [None] when the video element,
    the canvas or its 2d context is missing (the callback returns). *)
Definition tick (captured : App.State) (frame : option string)
    (w : App.World) : App.World :=
  match frame with
  | None => w
  | Some dataUrl =>
      respond captured (Vision.detectGesture generateContent JSON_parse dataUrl) w
  end.

End Loop.

(** ** The interval of the analysis loop *)

(** [intervalRef.current], the intervals of this component the browser
    still runs, and the number of [setInterval] calls made so far. *)
Record LoopState : Type := mkLoopState {
  intervalRef : option nat;
  live : list nat;
  calls : nat
}.

(** The truthiness of [intervalRef.current]: [null] and 0 are falsy. *)
Definition truthy (ref : option nat) : option nat :=
  match ref with
  | Some id => if Nat.eqb id 0 then None else Some id
  | None => None
  end.

Definition clearInterval (id : nat) (running : list nat) : list nat :=
  filter (fun j => negb (Nat.eqb j id)) running.

Section Intervals.

(** The handle the browser returns for the [k]-th [setInterval] call. *)
Variable handle_of : nat -> nat.

Definition startAnalysisLoop (l : LoopState) : LoopState :=
  let running :=
    match truthy (intervalRef l) with
    | Some id => clearInterval id (live l)
    | None => live l
    end in
  let id := handle_of (calls l) in
  mkLoopState (Some id) (id :: running) (S (calls l)).

Definition stopAnalysisLoop (l : LoopState) : LoopState :=
  match truthy (intervalRef l) with
  | Some id => mkLoopState None (clearInterval id (live l)) (calls l)
  | None => l
  end.

(** The calls the component makes on the loop. *)
Inductive LoopCall : Type := Start | Stop.

Definition loop_call (l : LoopState) (c : LoopCall) : LoopState :=
  match c with
  | Start => startAnalysisLoop l
  | Stop => stopAnalysisLoop l
  end.

(** The effect with dependencies [active, hasPermission], and a render in
    which one of them changed: React runs the cleanup of the previous
    effect, then the effect. *)
Definition analysis_effect (active hasPermission : bool) (l : LoopState) : LoopState :=
  if active && hasPermission then startAnalysisLoop l else stopAnalysisLoop l.

Definition rerun_effect (l : LoopState) (deps : bool * bool) : LoopState :=
  analysis_effect (fst deps) (snd deps) (stopAnalysisLoop l).

Definition unmounted : LoopState := mkLoopState None [] 0.

End Intervals.

(** ** Camera start-up *)

Record CameraState : Type := mkCameraState {
  hasPermission : bool;
  loading : bool;
  error : option string
}.

(** The steps of [startCamera]: the call itself ([setLoading(true)]), and
    its completion - [getUserMedia] resolved, [videoMounted] telling whether
    [videoRef.current] is set, or it threw. *)
Inductive CameraEvent : Type :=
  | Started
  | Resolved (videoMounted : bool)
  | Rejected.

Definition camera_error : string := "Camera access denied or unavailable.".

Definition camera_step (s : CameraState) (e : CameraEvent) : CameraState :=
  match e with
  | Started => mkCameraState (hasPermission s) true (error s)
  | Resolved true => mkCameraState true false (error s)
  | Resolved false => mkCameraState (hasPermission s) false (error s)
  | Rejected => mkCameraState false false (Some camera_error)
  end.

(** [error] as a condition: [null] and the empty string are falsy. *)
Definition error_shown (s : CameraState) : bool :=
  match error s with
  | Some m => negb (String.eqb m EmptyString)
  | None => false
  end.

(** The two buttons whose [onClick] is [startCamera]. *)
Definition retry_button (s : CameraState) : bool :=
  negb (hasPermission s) && negb (loading s) && negb (error_shown s).

Definition restart_button (s : CameraState) : bool := hasPermission s.

(** The component with the number of [startCamera] calls still waiting for
    [getUserMedia]. *)
Record Cam : Type := mkCam {
  cam : CameraState;
  pending : nat
}.

(** After mounting: the first effect has called [startCamera]. *)
Definition mounted_cam : Cam := mkCam (mkCameraState false true None) 1.

(** An event can happen: a call needs one of the buttons, a completion a
    waiting call. *)
Definition enabled (c : Cam) (e : CameraEvent) : bool :=
  match e with
  | Started => retry_button (cam c) || restart_button (cam c)
  | Resolved _ | Rejected => negb (Nat.eqb (pending c) 0)
  end.

Definition fire (c : Cam) (e : CameraEvent) : Cam :=
  mkCam (camera_step (cam c) e)
        (match e with
         | Started => S (pending c)
         | Resolved _ | Rejected => Nat.pred (pending c)
         end).

End Camera.

(* ===================================================================== *)
(** * components/SaturnScene.tsx: buffer items and the fragment shader *)
(* ===================================================================== *)

Module Shading.

Import Scene.
Local Open Scope R_scope.

(** Item [k] of a buffer attribute of item size 3, as the GPU reads it;
    [None] when the buffer is too short. *)
Definition attribute3 (array : Float32Array) (k : nat) : option vec3 :=
  match nth_error array (3 * k), nth_error array (3 * k + 1),
        nth_error array (3 * k + 2) with
  | Some a, Some b, Some c => Some (mkVec3 a b c)
  | _, _, _ => None
  end.

(** Item [k] of a buffer attribute of item size 1. *)
Definition attribute1 (array : Float32Array) (k : nat) : option R :=
  nth_error array k.

(** [v'] is within [eps] of [v]. A [Float32Array] keeps of a number
    written to it the nearest binary32: for a number of magnitude at most
    [m], in the range of binary32, that is within [m * 2^-24] of it. *)
Definition near (eps v v' : R) : Prop := Rabs (v' - v) <= eps.

Definition near3 (eps : R) (v v' : vec3) : Prop :=
  near eps (vx v) (vx v') /\ near eps (vy v) (vy v') /\ near eps (vz v) (vz v').

(** Every coordinate of [v] is within [bound] of 0. *)
Definition in_box (bound : R) (v : vec3) : Prop :=
  - bound <= vx v <= bound /\
  - bound <= vy v <= bound /\
  - bound <= vz v <= bound.

Record vec4 : Type := mkVec4 { v4x : R; v4y : R; v4z : R; v4w : R }.

(** [main] of the fragment shader: [gl_FragColor], or [None] for [discard].
    [pow(glow, 2.0)] is applied to a [glow] that is not negative (the
    fragment is discarded otherwise), where it is the square. *)
Definition fragment (vColor : vec3) (vAlpha : R) (gl_PointCoord : R * R)
    : option vec4 :=
  let x := fst gl_PointCoord - 0.5 in
  let y := snd gl_PointCoord - 0.5 in
  let r := sqrt (x * x + y * y) in
  if Rlt_dec 0.5 r then None
  else
    let glow := 1.0 - r * 2.0 in
    let glow := glow ^ 2 in
    Some (mkVec4 (vx vColor) (vy vColor) (vz vColor) (glow * vAlpha)).

(** The distance of a fragment from the centre of its point. *)
Definition centre_distance (gl_PointCoord : R * R) : R :=
  sqrt ((fst gl_PointCoord - 0.5) * (fst gl_PointCoord - 0.5)
        + (snd gl_PointCoord - 0.5) * (snd gl_PointCoord - 0.5)).

End Shading.

(* ===================================================================== *)
(** * The CPU-interpolating variant: the frame loop *)
(* ===================================================================== *)

Module CpuFrame.

Import Scene CpuScene.
Local Open Scope R_scope.

(** What a callback does: it returns, or an exception leaves it. *)
Inductive Outcome (A : Type) : Type :=
  | Done (a : A)
  | Threw.

Arguments Done {A} a.
Arguments Threw {A}.

(** [array[i]]: [undefined] outside the array. *)
Definition load (array : Float32Array) (i : Z) : option R :=
  if (0 <=? i)%Z then nth_error array (Z.to_nat i) else None.

(** [array[i] = current + (target - current) * lerpSpeed]. When [current]
    was read outside the array the value is NaN and the store, outside the
    array too, is ignored. *)
Definition store_lerp (array : Float32Array) (i : Z) (current : option R)
    (tgt lerpSpeed : R) : Float32Array :=
  match current with
  | Some c => store array i (c + (tgt - c) * lerpSpeed)
  | None => array
  end.

Section Frame.

Variable PARTICLE_COUNT : Z.
Variable particles : list ParticlePoint.

(** Body of the loop of [useFrame] over the particles. *)
Definition move (isExpanded : bool) (time : R) (i : nat)
    (st : Outcome Float32Array) : Outcome Float32Array :=
  match st with
  | Threw => Threw
  | Done positionsArray =>
      match nth_error particles i with
      | None => Threw     (* [p] is undefined: reading [p.initialX] throws *)
      | Some p =>
          let i3 := (Z.of_nat i * 3)%Z in
          let tgt := target isExpanded time i p in
          let currentX := load positionsArray i3 in
          let currentY := load positionsArray (i3 + 1) in
          let currentZ := load positionsArray (i3 + 2) in
          let lerpSpeed := if isExpanded then 0.03 else 0.05 in
          let a1 := store_lerp positionsArray i3 currentX (vx tgt) lerpSpeed in
          let a2 := store_lerp a1 (i3 + 1) currentY (vy tgt) lerpSpeed in
          Done (store_lerp a2 (i3 + 2) currentZ (vz tgt) lerpSpeed)
      end
  end.

(** The points object: its position buffer and its rotation; [None] while
    [pointsRef.current] is null. *)
Definition Points : Type := option (Float32Array * Euler).

(** The [useFrame] callback. *)
Definition useFrame (isExpanded : bool) (time : R) (points : Points)
    : Outcome Points :=
  match points with
  | None => Done None
  | Some (positionsArray, rotation) =>
      match for_loop (Z.to_nat PARTICLE_COUNT) (move isExpanded time)
              (Done positionsArray) with
      | Threw => Threw
      | Done positionsArray' =>
          Done (Some (positionsArray',
                      mkEuler (PI / 12) (rot_y rotation) (PI / 6)))
      end
  end.

(** Frames in a row; the run ends at the first frame that throws. *)
Fixpoint run_frames (frames : list Frame) (points : Points) : Outcome Points :=
  match frames with
  | [] => Done points
  | f :: frames' =>
      match useFrame (fst f) (snd f) points with
      | Done points' => run_frames frames' points'
      | Threw => Threw
      end
  end.

End Frame.

(** The position of particle [i] in the buffer. *)
Definition position_of (array : Float32Array) (i : nat) : option vec3 :=
  Shading.attribute3 array i.

(** A particle whose home lies within [m] of the vertical axis and of the
    horizontal plane, and whose random offset lies within [s] of 0 on each
    coordinate. *)
Definition particle_within (m s : R) (p : ParticlePoint) : Prop :=
  initialX p * initialX p + initialZ p * initialZ p <= m * m /\
  - m <= initialY p <= m /\
  Shading.in_box s (mkVec3 (randomX p) (randomY p) (randomZ p)).


Section Prefill.

(** [colorObj.set(hex)]: the colour a hex string stands for. *)
Variable set_color : string -> Color.



End Prefill.

End CpuFrame.

(** Sample constants used to exercise the theorems on concrete inputs. *)
Definition sample_phrases : list string :=
  ["Ad astra"; "Per aspera"; "Carpe noctem"]%string.

Definition sample_random (k : nat) : Q := Z.of_nat (k mod 3) # 4.

Definition sample_color : Scene.Color := Scene.mkColor 1 1 1.

Definition no_particles : Scene.Attributes := Scene.mkAttributes [] [] [] [].

(* ===================================================================== *)
(** * Properties of App.tsx *)
(* ===================================================================== *)

Section AppProperties.

Import App.

Variable PHRASES : list string.
Variable random : nat -> Q.

Local Abbreviation handle := (handleGestureDetected PHRASES random).
Local Abbreviation trigger := (triggerNewPhrase PHRASES random).
Local Abbreviation toggle := (handleManualToggle PHRASES random).

Lemma floor_scaled_lt (u : Q) (n : nat) :
  (0 <= u)%Q -> (u < 1)%Q -> 0 < n -> floor_scaled u n < n.
Proof.
  intros H0 H1 Hn. unfold floor_scaled.
  set (q := inject_Z (Z.of_nat n)).
  assert (Hq : (0 < q)%Q).
  { unfold q. change 0%Q with (inject_Z 0). rewrite <- Zlt_Qlt. lia. }
  assert (Hlo : (0 <= Qfloor (u * q))%Z).
  { rewrite <- (Qfloor_Z 0). apply Qfloor_resp_le.
    apply Qmult_le_0_compat; [assumption|]. now apply Qlt_le_weak. }
  assert (Hhi : (Qfloor (u * q) < Z.of_nat n)%Z).
  { rewrite Zlt_Qlt. apply Qle_lt_trans with (u * q)%Q; [apply Qfloor_le|].
    fold q. setoid_replace q with (1 * q)%Q at 2 by ring.
    apply Qmult_lt_compat_r; assumption. }
  lia.
Qed.

(** Every index below [n] is chosen for some value of the oracle. *)
Lemma floor_scaled_onto (i n : nat) :
  i < n -> floor_scaled (Z.of_nat i # Pos.of_nat n) n = i.
Proof.
  intros Hi. unfold floor_scaled.
  assert (E : ((Z.of_nat i # Pos.of_nat n) * inject_Z (Z.of_nat n)
               == inject_Z (Z.of_nat i))%Q).
  { unfold Qeq, Qmult, inject_Z. cbn [Qnum Qden].
    rewrite Pos.mul_1_r, Z.mul_1_r.
    replace (Zpos (Pos.of_nat n)) with (Z.of_nat n); [reflexivity|].
    destruct n as [|n]; lia. }
  rewrite E, Qfloor_Z. apply Nat2Z.id.
Qed.

Lemma last_cons_default {A} (x d : A) (xs : list A) :
  last (x :: xs) d = last xs x.
Proof.
  revert x d. induction xs as [|y ys IH]; intros x d; [reflexivity|].
  change (last (x :: y :: ys) d) with (last (y :: ys) d).
  now rewrite (IH y d), (IH y x).
Qed.

Lemma splice1_length {A} (i : nat) (xs : list A) :
  i < length xs -> length (splice1 i xs) = length xs - 1.
Proof.
  intros Hi. unfold splice1.
  rewrite length_app, length_firstn, length_skipn. lia.
Qed.

Lemma splice1_perm {A} (i : nat) (xs : list A) (x : A) :
  nth_error xs i = Some x -> Permutation (x :: splice1 i xs) xs.
Proof.
  revert xs. induction i as [|i IH]; intros [|y ys] H; try discriminate.
  - injection H as ->. apply Permutation_refl.
  - cbn in H. specialize (IH ys H). unfold splice1 in *. cbn.
    eapply perm_trans; [apply perm_swap|]. now constructor.
Qed.

(** ** The gesture state machine *)

Lemma isExpanded_handle (g : GestureState) (w : World) :
  isExpanded (app (dispatch (handle g) w)) =
  match g with
  | OPEN => true
  | CLOSED => false
  | NONE => isExpanded (app w)
  end.
Proof. destruct w as [[gs [|] p a] r h], g; reflexivity. Qed.

Lemma selections_handle (g : GestureState) (w : World) :
  selections (dispatch (handle g) w) =
  selections w +
  (if GestureState_eqb g OPEN && negb (isExpanded (app w)) then 1 else 0).
Proof.
  destruct w as [[gs [|] p a] r h], g; unfold selections; cbn;
    rewrite ?length_app; cbn; lia.
Qed.

Lemma gestureState_handle (g : GestureState) (w : World) :
  gestureState (app (dispatch (handle g) w)) = g.
Proof. destruct w as [[gs [|] p a] r h], g; reflexivity. Qed.

(** A signal that does not change the mode changes nothing but the stored
    gesture state. *)
Lemma redundant_signal_noop (g : GestureState) (w : World) :
  (GestureState_eqb g OPEN && negb (isExpanded (app w)) = false) ->
  (GestureState_eqb g CLOSED && isExpanded (app w) = false) ->
  dispatch (handle g) w =
  mkWorld (mkState g (isExpanded (app w)) (currentPhrase (app w))
             (availableIndices (app w)))
          (rng w) (history w).
Proof.
  destruct w as [[gs [|] p a] r h], g; cbn; intros H1 H2;
    try discriminate; reflexivity.
Qed.

(** C10: the handler called with NONE keeps the mode, the current phrase
    and the remaining-index set, stores NONE as the gesture state and
    selects no phrase (no selection is recorded, no random number drawn). *)
Theorem handleGestureDetected_NONE_frame (w : World) :
  let w' := dispatch (handle NONE) w in
  isExpanded (app w') = isExpanded (app w) /\
  currentPhrase (app w') = currentPhrase (app w) /\
  availableIndices (app w') = availableIndices (app w) /\
  gestureState (app w') = NONE /\
  selections w' = selections w /\
  history w' = history w /\
  rng w' = rng w.
Proof.
  destruct w as [[gs e p a] r h]. cbn. repeat split; reflexivity.
Qed.

(** One manual toggle reaches the very same world (mode, gesture state,
    phrase, remaining indices, selections made) as the gesture handler of
    the current render fed the corresponding signal; the mode flips, and
    the phrase selector runs once when leaving COLLAPSED and not at all
    when leaving EXPANDED. *)
Lemma manual_toggle_equiv_handler (w : World) :
  let w1 := dispatch toggle w in
  let w2 := dispatch (handle (corresponding_signal (app w))) w in
  w1 = w2 /\
  isExpanded (app w1) = isExpanded (app w2) /\
  gestureState (app w1) = gestureState (app w2) /\
  selections w1 = selections w2 /\
  isExpanded (app w1) = negb (isExpanded (app w)) /\
  selections w1 = selections w + (if isExpanded (app w) then 0 else 1).
Proof.
  destruct w as [[gs [|] p a] r h]; unfold selections; cbn;
    rewrite ?length_app; cbn; repeat split; lia.
Qed.

(** Two manual toggles in a row from an expanded state are the signals
    CLOSED, OPEN: the same worlds, one new selection. *)
Lemma manual_toggle_twice (w : World) :
  isExpanded (app w) = true ->
  run [toggle; toggle] w = feed PHRASES random [CLOSED; OPEN] w /\
  selections (last (run [toggle; toggle] w) w) = S (selections w).
Proof.
  destruct w as [[gs e p a] r h]. cbn. intros ->.
  unfold selections. cbn. rewrite length_app. cbn. split; [reflexivity | lia].
Qed.

(** Delivered each to the handler of the current render, from a collapsed
    state the signals CLOSED, OPEN, OPEN, CLOSED, CLOSED enter EXPANDED
    exactly once and COLLAPSED exactly once, and the phrase selector is
    called exactly once. *)
Lemma gesture_sequence_once (w : World) :
  isExpanded (app w) = false ->
  let ws := feed PHRASES random [CLOSED; OPEN; OPEN; CLOSED; CLOSED] w in
  entries true w ws = 1 /\
  entries false w ws = 1 /\
  map (fun x => isExpanded (app x)) ws = [false; true; true; false; false] /\
  map selections ws =
    map (fun k => selections w + k) [0; 1; 1; 1; 1] /\
  selections (last ws w) = S (selections w).
Proof.
  intros Hc. destruct w as [[gs e p a] r h]. cbn in Hc. subst e.
  unfold selections. cbn. rewrite ?length_app. cbn.
  repeat split; repeat f_equal; lia.
Qed.

(** A handler of an earlier render acts on the state it captured, not on
    the current one. An interval that keeps calling the handler of a
    collapsed render (as [startAnalysisLoop] of CameraHandler does with the
    [onGestureDetected] it was started with) therefore never collapses an
    expanded scene and selects a phrase on every OPEN. *)
Lemma stale_handler_CLOSED (s0 : State) (w : World) :
  isExpanded s0 = false ->
  isExpanded (app (dispatch_from s0 (handle CLOSED) w)) = isExpanded (app w).
Proof.
  destruct s0 as [g0 e0 p0 a0], w as [[gs e p a] r h]. cbn. intros ->.
  reflexivity.
Qed.

Lemma stale_handler_OPEN (s0 : State) (w : World) :
  isExpanded s0 = false ->
  isExpanded (app (dispatch_from s0 (handle OPEN) w)) = true /\
  selections (dispatch_from s0 (handle OPEN) w) = S (selections w).
Proof.
  destruct s0 as [g0 e0 p0 a0], w as [[gs e p a] r h]. cbn. intros ->.
  unfold selections. cbn. rewrite length_app. cbn. split; [reflexivity | lia].
Qed.

(** The signals CLOSED, OPEN, OPEN, CLOSED, CLOSED, all delivered to the
    handler of the first (collapsed) render: the scene expands at the first
    OPEN and stays expanded, and both OPEN signals select a phrase. *)
Lemma stale_handler_sequence (w : World) :
  let ws :=
    feed_from PHRASES random (initial_state PHRASES)
      [CLOSED; OPEN; OPEN; CLOSED; CLOSED] w in
  isExpanded (app w) = false ->
  map (fun x => isExpanded (app x)) ws = [false; true; true; true; true] /\
  entries false w ws = 0 /\
  selections (last ws w) = S (S (selections w)).
Proof.
  destruct w as [[gs e p a] r h]. cbn. intros ->.
  unfold selections. cbn. rewrite !length_app. cbn.
  repeat split; lia.
Qed.

(** ** The phrase selector *)

Lemma dispatch_trigger (w : World) :
  let avail := availableIndices (app w) in
  let indices :=
    if Nat.eqb (length avail) 0 then index_range (length PHRASES) else avail in
  let r := floor_scaled (random (rng w)) (length indices) in
  dispatch trigger w =
  mkWorld (mkState (gestureState (app w)) (isExpanded (app w))
             (phrase_at PHRASES (nth_error indices r)) (splice1 r indices))
          (S (rng w)) (history w ++ [nth_error indices r]).
Proof. destruct w as [[gs e p a] r h]. reflexivity. Qed.

(** A selection from a non-empty index list picks one of its elements and
    leaves the others. *)
Lemma floor_scaled_pick (indices : list nat) (k : nat) :
  random_ok random -> indices <> [] ->
  exists i, nth_error indices (floor_scaled (random k) (length indices)) = Some i.
Proof.
  intros Hr Hne. destruct (Hr k) as [H0 H1].
  assert (Hlen : 0 < length indices) by (destruct indices; [congruence | cbn; lia]).
  pose proof (floor_scaled_lt H0 H1 Hlen) as Hlt.
  apply nth_error_Some in Hlt.
  destruct (nth_error indices _) as [i|]; [now exists i | congruence].
Qed.

(** Emptying a cycle: [n] selections from [n] remaining indices choose each
    of them once. *)
Lemma select_times_drains (Hr : random_ok random) (n : nat) :
  forall w, length (availableIndices (app w)) = n ->
  exists idxs,
    Permutation idxs (availableIndices (app w)) /\
    map (fun x => currentPhrase (app x)) (select_times PHRASES random n w)
      = map (nth_error PHRASES) idxs /\
    history (last (select_times PHRASES random n w) w)
      = history w ++ map Some idxs /\
    availableIndices (app (last (select_times PHRASES random n w) w)) = [].
Proof.
  induction n as [|n IH]; intros w Hlen.
  - exists []. apply length_zero_iff_nil in Hlen. rewrite Hlen. cbn.
    rewrite app_nil_r. repeat split; auto.
  - unfold select_times. cbn [repeat run].
    pose proof (dispatch_trigger w) as Hd. cbv zeta in Hd.
    rewrite Hlen in Hd. cbn [Nat.eqb] in Hd. rewrite Hlen in Hd.
    assert (Hne : availableIndices (app w) <> []).
    { intros E. rewrite E in Hlen. discriminate. }
    destruct (floor_scaled_pick (rng w) Hr Hne) as [i Hi].
    rewrite Hlen in Hi. rewrite Hi in Hd.
    set (w' := dispatch trigger w) in *.
    assert (Hlen' : length (availableIndices (app w')) = n).
    { rewrite Hd. cbn. rewrite splice1_length.
      - lia.
      - apply nth_error_Some. congruence. }
    destruct (IH w' Hlen') as (idxs & Hp & Hs & Hh & Ha).
    exists (i :: idxs). fold (select_times PHRASES random n w').
    rewrite last_cons_default. repeat split.
    + eapply perm_trans; [apply perm_skip, Hp|].
      rewrite Hd. cbn. now apply splice1_perm.
    + cbn [map]. f_equal; [|exact Hs]. rewrite Hd. reflexivity.
    + rewrite Hh. rewrite Hd. cbn. now rewrite <- app_assoc.
    + exact Ha.
Qed.

(** When every selection is made by the render that follows the one
    before: starting a cycle (all [K >= 1] indices available), [K]
    consecutive selections choose [K] pairwise distinct indices - a
    permutation of [0..K-1] - and show the phrases stored at them, which
    are pairwise distinct whenever the pool entries are; the next selection
    refills the exhausted index set and shows a phrase of the pool again. *)
Lemma phrase_cycle_distinct (w : World) :
  random_ok random ->
  1 <= length PHRASES ->
  availableIndices (app w) = index_range (length PHRASES) ->
  let K := length PHRASES in
  let ws := select_times PHRASES random K w in
  let shown := map (fun x => currentPhrase (app x)) ws in
  exists idxs,
    history (last ws w) = history w ++ map Some idxs /\
    length idxs = K /\
    NoDup idxs /\
    Permutation idxs (index_range K) /\
    shown = map (nth_error PHRASES) idxs /\
    Forall (fun p => p <> None) shown /\
    (NoDup PHRASES -> NoDup shown) /\
    let w' := dispatch trigger (last ws w) in
    exists i,
      i < K /\
      history w' = history (last ws w) ++ [Some i] /\
      currentPhrase (app w') = nth_error PHRASES i /\
      currentPhrase (app w') <> None /\
      length (availableIndices (app w')) = K - 1.
Proof.
  intros Hr HK Hfresh K ws shown.
  assert (Hlen : length (availableIndices (app w)) = K).
  { rewrite Hfresh. apply length_seq. }
  destruct (select_times_drains Hr w Hlen) as (idxs & Hp & Hs & Hh & Ha).
  fold ws in Hs, Hh, Ha. fold shown in Hs. rewrite Hfresh in Hp.
  assert (Hnd : NoDup idxs).
  { eapply Permutation_NoDup; [apply Permutation_sym, Hp | apply seq_NoDup]. }
  assert (Hin : forall i, In i idxs -> i < K).
  { intros i Hi. eapply Permutation_in in Hi; [|exact Hp].
    apply in_seq in Hi. lia. }
  exists idxs. split; [exact Hh|]. split.
  { rewrite (Permutation_length Hp). apply length_seq. }
  split; [exact Hnd|]. split; [exact Hp|]. split; [exact Hs|]. split.
  { rewrite Hs. apply Forall_forall. intros p Hpin.
    apply in_map_iff in Hpin. destruct Hpin as (i & <- & Hi).
    apply nth_error_Some. now apply Hin. }
  split.
  { intros Hpool. rewrite Hs. apply NoDup_map_NoDup_ForallPairs; [|exact Hnd].
    intros i j Hi Hj E.
    exact (proj1 (NoDup_nth_error PHRASES) Hpool i j (Hin i Hi) E). }
  pose proof (dispatch_trigger (last ws w)) as Hd. cbv zeta in Hd.
  rewrite Ha in Hd. cbn [length Nat.eqb] in Hd.
  destruct (Hr (rng (last ws w))) as [H0 H1].
  assert (Hpos : 0 < length (index_range (length PHRASES))).
  { unfold index_range. rewrite length_seq. lia. }
  pose proof (floor_scaled_lt H0 H1 Hpos) as Hlt.
  set (r := floor_scaled _ _) in *.
  assert (Hr' : r < K).
  { unfold index_range in Hlt. now rewrite length_seq in Hlt. }
  assert (Hnth : nth_error (index_range (length PHRASES)) r = Some r).
  { unfold index_range. rewrite nth_error_seq.
    apply Nat.ltb_lt in Hr'. fold K. now rewrite Hr'. }
  rewrite Hnth in Hd. exists r. rewrite Hd. cbn.
  split; [exact Hr'|]. split; [reflexivity|]. split; [reflexivity|]. split.
  - now apply nth_error_Some.
  - rewrite splice1_length; [|exact Hlt]. unfold index_range.
    now rewrite length_seq.
Qed.

End AppProperties.

Lemma sample_random_ok : random_ok sample_random.
Proof.
  intros k. unfold sample_random, Qle, Qlt. cbn [Qnum Qden].
  assert (k mod 3 < 3) by (apply Nat.mod_upper_bound; discriminate). lia.
Qed.

(* ===================================================================== *)
(** * Properties of the render loop (SaturnScene.tsx, useFrame) *)
(* ===================================================================== *)

Section RenderLoop.

Import Scene.
Local Open Scope R_scope.

Lemma run_frames_app (fs gs : list Frame) (c : Component) :
  run_frames (fs ++ gs) c = run_frames gs (run_frames fs c).
Proof. unfold run_frames. apply fold_left_app. Qed.


(** ** The transition driver *)

Lemma blend_step_range (b : bool) (t : R) (c : Component) :
  0 <= uExpansion c < 1 -> 0 <= uExpansion (useFrame b t c) < 1.
Proof. intros H. destruct b; cbn; lra. Qed.

Lemma blend_range (frames : list Frame) (c : Component) :
  0 <= uExpansion c < 1 -> 0 <= uExpansion (run_frames frames c) < 1.
Proof.
  revert c. induction frames as [|f fs IH]; intros c H; [exact H|].
  cbn. apply IH. now apply blend_step_range.
Qed.

(** While the target is DISPERSED the distance to 1 shrinks by the factor
    0.96 per frame. *)
Lemma dispersed_gap (ts : list R) (c : Component) :
  1 - uExpansion (run_frames (frames_with true ts) c)
  = (1 - uExpansion c) * 0.96 ^ length ts.
Proof.
  revert c. induction ts as [|t ts IH]; intros c.
  - cbn. lra.
  - cbn [frames_with map run_frames fold_left length].
    change (fold_left _ (map _ ts) ?x) with (run_frames (frames_with true ts) x).
    rewrite IH. cbn. lra.
Qed.

Lemma pow_096_113 : 0.96 ^ 113 < 0.01.
Proof. cbn. lra. Qed.

(** From blend 0, 112 frames are not yet enough. *)
Lemma pow_096_112 : 0.01 < 0.96 ^ 112.
Proof. cbn. lra. Qed.

Lemma pow_096_small (n : nat) : (113 <= n)%nat -> 0.96 ^ n < 0.01.
Proof.
  intros Hn. replace n with (113 + (n - 113))%nat by lia.
  rewrite pow_add.
  assert (H1 : 0 < 0.96 ^ 113) by (apply pow_lt; lra).
  assert (H2 : 0.96 ^ (n - 113) <= 1).
  { rewrite <- (pow1 (n - 113)). apply pow_incr. lra. }
  pose proof pow_096_113. nra.
Qed.

(** C3: from blend 0, whatever the sequence of modes, the blend stays in
    [0, 1) - never below 0, never above 1, never equal to 1 - and after at
    least 113 further consecutive frames in DISPERSED mode it is within
    0.01 of 1. *)
Theorem blend_bounded_and_converges
    (a : Attributes) (frames : list Frame) (ts : list R) :
  (113 <= length ts)%nat ->
  0 <= uExpansion (run_frames frames (mounted a)) < 1 /\
  0.99 < uExpansion (run_frames (frames ++ frames_with true ts) (mounted a)) < 1.
Proof.
  intros Hn.
  assert (H0 : 0 <= uExpansion (mounted a) < 1) by (cbn; lra).
  pose proof (blend_range frames _ H0) as Hpre.
  split; [exact Hpre|].
  rewrite run_frames_app.
  pose proof (blend_range (frames_with true ts) _ Hpre) as Hpost.
  pose proof (dispersed_gap ts (run_frames frames (mounted a))) as Hgap.
  pose proof (pow_096_small Hn) as Hsmall.
  assert (Hpos : 0 < 0.96 ^ length ts) by (apply pow_lt; lra).
  split; [nra | lra].
Qed.

(** ** The rotation of the points object *)



(** The legacy target of a compact particle: the home position turned by
    the angle [0.2 * time] around the vertical axis, plus the bob. *)
Lemma cpu_target_compact (time : R) (i : nat) (p : CpuScene.ParticlePoint) :
  CpuScene.target false time i p =
  let v := CpuScene.rotate_y (time * 0.2) (CpuScene.initial_position p) in
  mkVec3 (vx v)
         (vy v + sin (time * 2 + CpuScene.initialX p) * 0.1)
         (vz v).
Proof. reflexivity. Qed.



End RenderLoop.

(* ===================================================================== *)
(** * Properties of the vertex shader *)
(* ===================================================================== *)

Section VertexShader.

Import Scene.
Local Open Scope R_scope.

Lemma smoothstep_unit (x : R) :
  smoothstep 0.0 1.0 x = let t := clamp x 0 1 in t * t * (3 - 2 * t).
Proof.
  unfold smoothstep.
  replace ((x - 0.0) / (1.0 - 0.0)) with x; [reflexivity|].
  unfold Rdiv. replace (1.0 - 0.0) with 1 by lra. rewrite Rinv_1. lra.
Qed.

Lemma clamp_unit_range (x : R) : 0 <= clamp x 0 1 <= 1.
Proof.
  unfold clamp. unfold Rmin, Rmax.
  destruct (Rle_dec x 0); destruct (Rle_dec _ 1); lra.
Qed.

Lemma clamp_unit_id (x : R) : 0 <= x <= 1 -> clamp x 0 1 = x.
Proof.
  intros H. unfold clamp, Rmin, Rmax.
  destruct (Rle_dec x 0); destruct (Rle_dec _ 1); lra.
Qed.

Lemma smoothstep_range (x : R) : 0 <= smoothstep 0.0 1.0 x <= 1.
Proof.
  rewrite smoothstep_unit. cbv zeta.
  pose proof (clamp_unit_range x) as H. set (t := clamp x 0 1) in *.
  split.
  - apply Rmult_le_pos; [apply Rmult_le_pos|]; lra.
  - assert (E : 1 - t * t * (3 - 2 * t) = (1 - t) * (1 - t) * (1 + 2 * t))
      by ring.
    assert (0 <= (1 - t) * (1 - t) * (1 + 2 * t)).
    { apply Rmult_le_pos; [apply Rmult_le_pos|]; lra. }
    lra.
Qed.

Lemma smoothstep_0 : smoothstep 0.0 1.0 0 = 0.
Proof. rewrite smoothstep_unit, clamp_unit_id by lra. cbv zeta. lra. Qed.

Lemma smoothstep_1 : smoothstep 0.0 1.0 1 = 1.
Proof. rewrite smoothstep_unit, clamp_unit_id by lra. cbv zeta. lra. Qed.

Lemma mix_between (a b s : R) : 0 <= s <= 1 -> between a b (mix a b s).
Proof.
  intros H. unfold between, mix, Rmin, Rmax.
  destruct (Rle_dec a b); nra.
Qed.

Lemma mix3_between (p q : vec3) (s : R) :
  0 <= s <= 1 -> between3 p q (mix3 p q s).
Proof. intros H. repeat split; apply mix_between; exact H. Qed.

Lemma mix3_0 (p q : vec3) : mix3 p q 0 = p.
Proof. destruct p, q. unfold mix3, mix. cbn. f_equal; lra. Qed.

Lemma mix3_1 (p q : vec3) : mix3 p q 1 = q.
Proof. destruct p, q. unfold mix3, mix. cbn. f_equal; lra. Qed.

Lemma vAlpha_range (blend : R) : 0.7 <= vAlpha blend <= 1.
Proof.
  unfold vAlpha. pose proof (smoothstep_range blend). lra.
Qed.


(** C8 (amended): the output is the smoothstep-weighted mix of the two
    positions as [main] has them, and lies between them per coordinate;
    at blend 0 it is the compact formula (home plus bob), at blend 1 the
    dispersed formula (scatter plus wander); and for a blend strictly
    between the two gates 0.01 and 0.99 both formulas are in force, so the
    output lies between them per coordinate. *)
Theorem shader_interpolation
    (uTime blend : R) (position aRandomPosition : vec3) :
  finalPos uTime blend position aRandomPosition
    = mix3 (saturnPos uTime blend position)
           (nebulaPos uTime blend aRandomPosition)
           (smoothstep 0.0 1.0 blend) /\
  between3 (saturnPos uTime blend position)
           (nebulaPos uTime blend aRandomPosition)
           (finalPos uTime blend position aRandomPosition) /\
  finalPos uTime 0 position aRandomPosition = bob uTime position /\
  finalPos uTime 1 position aRandomPosition = wander uTime aRandomPosition /\
  (0.01 < blend < 0.99 ->
   between3 (bob uTime position) (wander uTime aRandomPosition)
            (finalPos uTime blend position aRandomPosition)).
Proof.
  split; [reflexivity|]. split.
  { apply mix3_between, smoothstep_range. }
  split.
  { unfold finalPos, saturnPos. rewrite smoothstep_0.
    destruct (Rlt_dec 0 0.99); [|lra]. apply mix3_0. }
  split.
  { unfold finalPos, nebulaPos. rewrite smoothstep_1.
    destruct (Rlt_dec 0.01 1); [|lra]. apply mix3_1. }
  intros [Hlo Hhi]. unfold finalPos, saturnPos, nebulaPos.
  destruct (Rlt_dec 0.01 blend); [|lra].
  destruct (Rlt_dec blend 0.99); [|lra].
  apply mix3_between, smoothstep_range.
Qed.

(** C8 (as stated) fails at blend 0.01, where the wander is still gated
    off: with home (0, 1, 0), scatter (0, 0, 0) and time 0 the compact
    formula has y = 1 and the dispersed formula y = 2, but the output has
    y = 1 - smoothstep(0.01) < 1. *)
Lemma shader_leaves_formula_range : ~ interpolates_between_formulas.
Proof.
  intros H.
  assert (Hb : 0 < 0.01 < 1) by lra.
  destruct (H 0 0.01 (mkVec3 0 1 0) (mkVec3 0 0 0) Hb) as (_ & Hy & _).
  unfold between, finalPos, saturnPos, nebulaPos in Hy.
  destruct (Rlt_dec 0.01 0.01); [lra|].
  destruct (Rlt_dec 0.01 0.99); [|lra].
  rewrite smoothstep_unit, clamp_unit_id in Hy by lra.
  cbn in Hy. replace (0 * 2.0 + 0) with 0 in Hy by lra.
  replace (0 * 0.3 + 0 * 0.5) with 0 in Hy by lra.
  rewrite sin_0, cos_0 in Hy.
  unfold mix, Rmin in Hy. destruct (Rle_dec _ _); lra.
Qed.

End VertexShader.

(* ===================================================================== *)
(** * Properties of the ring radius *)
(* ===================================================================== *)

Section RingRadius.

Import Scene.
Local Open Scope R_scope.

Lemma sqrt_unit (t : R) : 0 <= t < 1 -> 0 <= sqrt t < 1.
Proof.
  intros [H0 H1]. split; [apply sqrt_pos|].
  rewrite <- sqrt_1. apply sqrt_lt_1; lra.
Qed.

Lemma sqrt_le_iff_square (t u : R) :
  0 <= t -> 0 <= u -> (sqrt t <= u <-> t <= u * u).
Proof.
  intros Ht Hu. split; intros H.
  - rewrite <- (sqrt_sqrt t Ht). pose proof (sqrt_pos t). nra.
  - rewrite <- (sqrt_square u Hu). apply sqrt_le_1; nra.
Qed.

Lemma ring_radius_range (inner outer t : R) :
  inner < outer -> 0 <= t < 1 ->
  inner <= ring_radius inner outer t < outer.
Proof.
  intros Hio Ht. pose proof (sqrt_unit Ht) as Hs.
  unfold ring_radius. nra.
Qed.

(** The distribution function of the radius: [radius <= rho] is the event
    [t <= ((rho - inner) / (outer - inner))^2]. *)
Lemma ring_radius_cdf (inner outer t rho : R) :
  inner < outer -> 0 <= t < 1 -> inner <= rho <= outer ->
  (ring_radius inner outer t <= rho
   <-> t <= ((rho - inner) / (outer - inner)) * ((rho - inner) / (outer - inner))).
Proof.
  intros Hio Ht Hrho.
  set (u := (rho - inner) / (outer - inner)).
  assert (Hu : 0 <= u <= 1).
  { unfold u. split.
    - apply Rmult_le_pos; [lra|]. left. apply Rinv_0_lt_compat. lra.
    - apply Rmult_le_reg_r with (outer - inner); [lra|].
      unfold Rdiv. rewrite Rmult_assoc, Rinv_l by lra. lra. }
  assert (Eu : u * (outer - inner) = rho - inner).
  { unfold u, Rdiv. rewrite Rmult_assoc, Rinv_l by lra. lra. }
  rewrite <- sqrt_le_iff_square by lra.
  unfold ring_radius. split; intros H; nra.
Qed.

Lemma radius_squared_uniform_inner_0 (outer : R) :
  0 < outer -> radius_squared_uniform 0 outer.
Proof.
  intros Ho y t Hy Ht. unfold ring_radius.
  replace (sqrt t * (outer - 0) + 0) with (sqrt t * outer) by lra.
  replace (sqrt t * outer * (sqrt t * outer))
    with (sqrt t * sqrt t * (outer * outer)) by ring.
  rewrite sqrt_sqrt by lra.
  replace ((y - 0 * 0) / (outer * outer - 0 * 0)) with (y / (outer * outer))
    by (f_equal; lra).
  assert (Hoo : 0 < outer * outer) by nra.
  split; intros H.
  - apply Rmult_le_reg_r with (outer * outer); [exact Hoo|].
    unfold Rdiv. rewrite Rmult_assoc, Rinv_l by lra. lra.
  - apply Rmult_le_compat_r with (r := outer * outer) in H; [|lra].
    unfold Rdiv in H. rewrite Rmult_assoc, Rinv_l in H by lra. lra.
Qed.

(** With a positive inner radius the squared radius is not uniform: at the
    level of the mid radius the event [radius^2 <= y] has probability 1/4,
    the uniform law gives more. *)
Lemma radius_squared_not_uniform (inner outer : R) :
  0 < inner < outer -> ~ radius_squared_uniform inner outer.
Proof.
  intros [Hi Hio] H.
  set (rho := (inner + outer) / 2).
  set (y := rho * rho).
  set (c := (y - inner * inner) / (outer * outer - inner * inner)).
  assert (Hden : 0 < outer * outer - inner * inner) by nra.
  assert (Ec : c * (outer * outer - inner * inner) = y - inner * inner).
  { unfold c, Rdiv. rewrite Rmult_assoc, Rinv_l by lra. lra. }
  assert (Hc : 1 / 4 < c < 1).
  { unfold y, rho in Ec. split.
    - apply Rmult_lt_reg_r with (outer * outer - inner * inner); [exact Hden|].
      nra.
    - apply Rmult_lt_reg_r with (outer * outer - inner * inner); [exact Hden|].
      nra. }
  assert (Hy : inner * inner <= y <= outer * outer) by (unfold y, rho; nra).
  assert (Ht : 0 <= c < 1) by lra.
  destruct (H y c Hy Ht) as [_ Hback].
  specialize (Hback (Rle_refl c)).
  assert (Hs : / 2 < sqrt c).
  { replace (/ 2) with (sqrt (/ 2 * / 2)) by (apply sqrt_square; lra).
    apply sqrt_lt_1; lra. }
  assert (Hr : rho < ring_radius inner outer c).
  { unfold ring_radius, rho. nra. }
  assert (Hrho : 0 < rho) by (unfold rho; lra).
  unfold y in Hback. nra.
Qed.

(** C2 (amended): for [0 <= inner < outer] and [t] in [0, 1) the radius
    lies in [inner, outer) and [radius <= rho] holds exactly when
    [t <= ((rho - inner) / (outer - inner))^2]: it is [(radius - inner)^2],
    not [radius^2], that is uniform. The squared radius is uniform on
    [inner^2, outer^2] when [inner = 0], and only then. *)
Theorem ring_radius_law (inner outer : R) :
  0 <= inner < outer ->
  (forall t, 0 <= t < 1 -> inner <= ring_radius inner outer t < outer) /\
  (forall t rho, 0 <= t < 1 -> inner <= rho <= outer ->
     (ring_radius inner outer t <= rho
      <-> t <= ((rho - inner) / (outer - inner)) * ((rho - inner) / (outer - inner)))) /\
  (radius_squared_uniform inner outer <-> inner = 0).
Proof.
  intros [Hi Hio]. split; [|split].
  - intros t Ht. now apply ring_radius_range.
  - intros t rho Ht Hrho. now apply ring_radius_cdf.
  - split.
    + intros Hu. destruct (Req_dec inner 0) as [E|E]; [exact E|].
      exfalso. apply (@radius_squared_not_uniform inner outer); [lra | exact Hu].
    + intros ->. apply radius_squared_uniform_inner_0. lra.
Qed.

(** C2 (as stated) fails for inner radius 1 and outer radius 3. *)
Lemma radius_squared_not_uniform_1_3 : ~ radius_squared_uniform 1 3.
Proof. apply radius_squared_not_uniform. lra. Qed.

End RingRadius.

(* ===================================================================== *)
(** * Properties of the binary64 product [Math.floor(N * fraction)] *)
(* ===================================================================== *)

Section Binary64Properties.

Local Open Scope Z_scope.

Lemma digits2_pos_size (p : positive) : digits2_pos p = Pos.size p.
Proof. induction p; cbn; congruence. Qed.

Lemma digits2_pos_bounds (p : positive) :
  2 ^ (Zpos (digits2_pos p) - 1) <= Zpos p < 2 ^ Zpos (digits2_pos p).
Proof.
  rewrite digits2_pos_size. split.
  - pose proof (Pos.size_le p) as H.
    assert (E : 2 ^ Zpos (Pos.size p) = 2 * 2 ^ (Zpos (Pos.size p) - 1)).
    { rewrite <- Z.pow_succ_r by lia. f_equal. lia. }
    assert (H' : 2 ^ Zpos (Pos.size p) <= Zpos p~0).
    { rewrite <- Pos2Z.inj_pow. apply Pos2Z.pos_le_pos. exact H. }
    lia.
  - pose proof (Pos.size_gt p) as H.
    rewrite <- Pos2Z.inj_pow. apply Pos2Z.pos_lt_pos. exact H.
Qed.

(** The number of digits is determined by the binade. *)
Lemma digits2_pos_unique (p : positive) (n : Z) :
  2 ^ (n - 1) <= Zpos p < 2 ^ n -> Zpos (digits2_pos p) = n.
Proof.
  intros [Hlo Hhi]. pose proof (digits2_pos_bounds p) as [Dlo Dhi].
  set (d := Zpos (digits2_pos p)) in *.
  assert (0 < n).
  { destruct (Z_lt_le_dec 0 n); [assumption|].
    rewrite Z.pow_neg_r in Hlo by lia.
    assert (2 ^ n <= 2 ^ 0) by (destruct (Z.eq_dec n 0) as [->|]; [lia|rewrite Z.pow_neg_r by lia; cbn; lia]).
    cbn in *. lia. }
  destruct (Z.lt_trichotomy d n) as [Hlt|[Heq|Hgt]]; [|exact Heq|].
  - assert (2 ^ d <= 2 ^ (n - 1)) by (apply Z.pow_le_mono_r; lia). lia.
  - assert (2 ^ n <= 2 ^ (d - 1)) by (apply Z.pow_le_mono_r; lia). lia.
Qed.

Lemma shr_1_m (mrs : shr_record) :
  0 <= shr_m mrs -> shr_m (shr_1 mrs) = shr_m mrs / 2.
Proof.
  destruct mrs as [m r s]. cbn [shr_m]. intros Hm.
  rewrite <- Z.div2_div.
  destruct m as [|[p|p|]|p]; cbn; try reflexivity. lia.
Qed.

Lemma shr_1_nonneg (mrs : shr_record) :
  0 <= shr_m mrs -> 0 <= shr_m (shr_1 mrs).
Proof. intros H. rewrite shr_1_m by assumption. apply Z.div_pos; lia. Qed.

Lemma iter_shr_1_m (n : positive) :
  forall mrs, 0 <= shr_m mrs ->
  shr_m (iter_pos shr_1 n mrs) = shr_m mrs / 2 ^ Zpos n.
Proof.
  assert (Hdiv : forall a k, 0 <= a -> 0 <= a / 2 ^ Zpos k).
  { intros a k Ha. apply Z.div_pos; [exact Ha|]. apply Z.pow_pos_nonneg; lia. }
  assert (Hpow : forall k, 0 < 2 ^ Zpos k) by (intros; apply Z.pow_pos_nonneg; lia).
  induction n as [n IH|n IH|]; intros mrs Hm; cbn [iter_pos].
  - pose proof (@shr_1_nonneg mrs Hm) as H1.
    pose proof (IH _ H1) as E1.
    assert (H2 : 0 <= shr_m (iter_pos shr_1 n (shr_1 mrs))).
    { rewrite E1. now apply Hdiv. }
    rewrite (IH _ H2), E1, shr_1_m by assumption.
    pose proof (Hpow n) as Hn.
    rewrite !Z.div_div by lia. f_equal.
    replace (Zpos n~1) with (1 + (Zpos n + Zpos n)) by lia.
    rewrite !Z.pow_add_r by lia. reflexivity.
  - pose proof (IH _ Hm) as E1.
    assert (H2 : 0 <= shr_m (iter_pos shr_1 n mrs)).
    { rewrite E1. now apply Hdiv. }
    rewrite (IH _ H2), E1.
    pose proof (Hpow n) as Hn.
    rewrite Z.div_div by lia. f_equal.
    replace (Zpos n~0) with (Zpos n + Zpos n) by lia.
    rewrite Z.pow_add_r by lia. reflexivity.
  - rewrite shr_1_m by assumption. reflexivity.
Qed.

Lemma fexp_normal (d : Z) : -1074 <= d - 53 -> fexp 53 1024 d = d - 53.
Proof. unfold fexp, emin. lia. Qed.

(** A 53-digit mantissa in range is already a binary64: nothing is lost. *)
Lemma binary_round_aux_exact (m : positive) (e : Z) :
  Zpos (digits2_pos m) = 53 -> -1074 <= e <= 971 ->
  binary_round_aux 53 1024 false (Zpos m) e loc_Exact = S754_finite false m e.
Proof.
  intros Hd He. unfold binary_round_aux, shr_fexp. cbn [Zdigits2].
  rewrite Hd, fexp_normal by lia.
  replace (53 + e - 53 - e) with 0 by lia.
  cbn [shr shr_record_of_loc loc_of_shr_record shr_m round_nearest_even Zdigits2].
  rewrite Hd, fexp_normal by lia.
  replace (53 + e - 53 - e) with 0 by lia.
  cbn [shr shr_record_of_loc shr_m].
  destruct (Z.leb_spec e (1024 - 53)); [reflexivity | lia].
Qed.

Lemma round_nearest_even_cases (q : Z) (l : location) :
  round_nearest_even q l = q \/ round_nearest_even q l = q + 1.
Proof.
  destruct l as [|[| |]]; cbn; auto. destruct (Z.even q); auto.
Qed.

(** Rounding a longer mantissa keeps its 53 leading digits [Q] or moves to
    [Q + 1]; when [Q + 1] is the power [2^53] the result is renormalized. *)
Lemma binary_round_aux_inexact (m : positive) (e : Z) (k : positive) :
  Zpos (digits2_pos m) = 53 + Zpos k ->
  -1074 <= e -> e + Zpos k + 1 <= 971 ->
  exists m' e',
    binary_round_aux 53 1024 false (Zpos m) e loc_Exact = S754_finite false m' e' /\
    ((e' = e + Zpos k /\
      (Zpos m' = Zpos m / 2 ^ Zpos k \/ Zpos m' = Zpos m / 2 ^ Zpos k + 1)) \/
     (e' = e + Zpos k + 1 /\ 2 * Zpos m' = Zpos m / 2 ^ Zpos k + 1)).
Proof.
  intros Hd Hlo Hhi. unfold binary_round_aux, shr_fexp. cbn [Zdigits2].
  rewrite Hd, fexp_normal by lia.
  replace (53 + Zpos k + e - 53 - e) with (Zpos k) by lia.
  cbn [shr shr_record_of_loc].
  set (mrs := iter_pos shr_1 k _).
  assert (Eq : shr_m mrs = Zpos m / 2 ^ Zpos k).
  { unfold mrs. rewrite iter_shr_1_m; cbn [shr_m]; [reflexivity | lia]. }
  set (Q := Zpos m / 2 ^ Zpos k) in *.
  assert (HQ : 2 ^ 52 <= Q < 2 ^ 53).
  { pose proof (digits2_pos_bounds m) as [Dlo Dhi]. rewrite Hd in Dlo, Dhi.
    assert (Hk : 0 < 2 ^ Zpos k) by (apply Z.pow_pos_nonneg; lia).
    replace (53 + Zpos k - 1) with (Zpos k + 52) in Dlo by lia.
    replace (53 + Zpos k) with (Zpos k + 53) in Dhi by lia.
    rewrite Z.pow_add_r in Dlo, Dhi by lia.
    unfold Q. split.
    - apply Z.div_le_lower_bound; assumption.
    - apply Z.div_lt_upper_bound; assumption. }
  destruct (round_nearest_even_cases (shr_m mrs) (loc_of_shr_record mrs)) as [E|E];
    rewrite E, Eq; clear E.
  - (* the leading digits are kept *)
    destruct Q as [|q|q] eqn:EQ; try (cbn in HQ; lia).
    assert (Dq : Zpos (digits2_pos q) = 53).
    { apply digits2_pos_unique. exact HQ. }
    cbn [Zdigits2]. rewrite Dq, fexp_normal by lia.
    replace (53 + (e + Zpos k) - 53 - (e + Zpos k)) with 0 by lia.
    cbn [shr shr_record_of_loc shr_m].
    destruct (Z.leb_spec (e + Zpos k) (1024 - 53)); [|lia].
    exists q, (e + Zpos k). split; [reflexivity|]. left. auto.
  - (* one unit in the last place is added *)
    destruct (Z.eq_dec (Q + 1) (2 ^ 53)) as [Ecarry|Ecarry].
    + rewrite Ecarry. change (2 ^ 53) with (Zpos 9007199254740992).
      cbn [Zdigits2]. change (Zpos (digits2_pos 9007199254740992)) with 54.
      rewrite fexp_normal by lia.
      replace (54 + (e + Zpos k) - 53 - (e + Zpos k)) with 1 by lia.
      cbn [shr shr_record_of_loc iter_pos shr_1 shr_m].
      destruct (Z.leb_spec (e + Zpos k + 1) (1024 - 53)); [|lia].
      exists 4503599627370496%positive, (e + Zpos k + 1).
      split; [reflexivity|]. right. split; [reflexivity|].
      reflexivity.
    + destruct (Q + 1) as [|q|q] eqn:EQ; try lia.
      assert (Dq : Zpos (digits2_pos q) = 53).
      { apply digits2_pos_unique. change (2 ^ (53 - 1)) with (2 ^ 52). lia. }
      cbn [Zdigits2]. rewrite Dq, fexp_normal by lia.
      replace (53 + (e + Zpos k) - 53 - (e + Zpos k)) with 0 by lia.
      cbn [shr shr_record_of_loc shr_m].
      destruct (Z.leb_spec (e + Zpos k) (1024 - 53)); [|lia].
      exists q, (e + Zpos k). split; [reflexivity|]. left. auto.
Qed.

Lemma iter_xO_pow2 (n p : positive) :
  Zpos (Pos.iter xO n p) = Zpos n * 2 ^ Zpos p.
Proof.
  induction p as [|p IH] using Pos.peano_ind.
  - cbn. lia.
  - rewrite Pos.iter_succ, Pos2Z.inj_xO, IH, Pos2Z.inj_succ, Z.pow_succ_r by lia.
    lia.
Qed.

(** An integer below 2^53 is a binary64: its mantissa is the integer
    shifted left to 53 digits. *)
Lemma of_Z_normal (N : Z) :
  1 <= N < 2 ^ 53 ->
  exists mz s,
    Binary64.of_Z N = S754_finite false mz (- s) /\
    Zpos mz = N * 2 ^ s /\ 0 <= s <= 52 /\ 2 ^ 52 <= Zpos mz < 2 ^ 53.
Proof.
  intros [H1 H53]. destruct N as [|n|n]; try lia.
  pose proof (digits2_pos_bounds n) as [Dlo Dhi].
  set (d := Zpos (digits2_pos n)) in *.
  assert (Hd : 1 <= d <= 53).
  { split; [unfold d; lia|].
    destruct (Z_le_gt_dec d 53) as [|Hgt]; [assumption|].
    assert (2 ^ 53 <= 2 ^ (d - 1)) by (apply Z.pow_le_mono_r; lia). lia. }
  unfold Binary64.of_Z, Binary64.prec, Binary64.emax, binary_normalize, binary_round. fold d.
  rewrite fexp_normal by lia. unfold shl_align.
  destruct (Z.eq_dec d 53) as [E53|N53].
  - replace (d + 0 - 53 - 0) with 0 by lia.
    rewrite binary_round_aux_exact by (fold d; lia).
    exists n, 0. rewrite E53 in Dlo. cbn in Dlo |- *.
    repeat split; try lia; try reflexivity.
  - destruct (d + 0 - 53 - 0) as [|p|p] eqn:Ep; try lia.
    assert (Emz : Zpos (Pos.iter xO n p) = Zpos n * 2 ^ Zpos p)
      by apply iter_xO_pow2.
    assert (Hp : Zpos p = 53 - d) by lia.
    assert (Hrange : 2 ^ 52 <= Zpos (Pos.iter xO n p) < 2 ^ 53).
    { rewrite Emz.
      assert (E52 : 2 ^ 52 = 2 ^ (d - 1) * 2 ^ Zpos p).
      { rewrite <- Z.pow_add_r by lia. f_equal. lia. }
      assert (E53 : 2 ^ 53 = 2 ^ d * 2 ^ Zpos p).
      { rewrite <- Z.pow_add_r by lia. f_equal. lia. }
      assert (0 < 2 ^ Zpos p) by (apply Z.pow_pos_nonneg; lia).
      rewrite E52, E53. split.
      - apply Z.mul_le_mono_nonneg_r; lia.
      - apply Z.mul_lt_mono_pos_r; lia. }
    rewrite binary_round_aux_exact.
    + exists (Pos.iter xO n p), (Zpos p).
      replace (d + 0 - 53) with (- Zpos p) by lia.
      repeat split; try lia; try exact Emz.
    + apply digits2_pos_unique. exact Hrange.
    + lia.
Qed.

(** [Math.floor(N * c)] for a binary64 constant [c = M * 2^-54] of 53
    digits: with the product scaled by [S2] to fill the mantissa of [N],
    [T] the weight of the digits rounded away and [J] the weight of the
    fractional digits of the rounded product, it is [m1 / J] for [m1] one
    of the two neighbours of the exact quotient. *)
Lemma floor_mul_bracket (N : Z) (M : positive) :
  1 <= N < 2 ^ 53 -> 2 ^ 52 <= Zpos M < 2 ^ 53 ->
  exists S2 T J m1,
    0 < S2 /\ 0 < T <= 2 ^ 53 /\ 0 < J /\ J * T = 2 ^ 54 * S2 /\
    2 ^ 52 <= N * S2 < 2 ^ 53 /\
    (m1 = N * S2 * Zpos M / T \/ m1 = N * S2 * Zpos M / T + 1) /\
    Binary64.Math_floor
      (Binary64.mul (Binary64.of_Z N) (S754_finite false M (-54)))
    = Some (m1 / J).
Proof.
  intros HN HM. destruct (@of_Z_normal N HN) as (mz & s & Eof & Emz & Hs & Hmz).
  rewrite Eof. unfold Binary64.mul, Binary64.prec, Binary64.emax, SFmul.
  cbn [xorb].
  set (P := (mz * M)%positive).
  assert (HP : 2 ^ 104 <= Zpos P < 2 ^ 106).
  { unfold P. rewrite Pos2Z.inj_mul.
    change (2 ^ 104) with (2 ^ 52 * 2 ^ 52). change (2 ^ 106) with (2 ^ 53 * 2 ^ 53).
    split; [apply Z.mul_le_mono_nonneg | apply Z.mul_lt_mono_nonneg]; lia. }
  pose proof (digits2_pos_bounds P) as [Dlo Dhi].
  set (d := Zpos (digits2_pos P)) in *.
  assert (Hd : d = 105 \/ d = 106).
  { assert (104 < d).
    { destruct (Z_lt_le_dec 104 d); [assumption|].
      assert (2 ^ d <= 2 ^ 104) by (apply Z.pow_le_mono_r; lia). lia. }
    assert (d - 1 < 106).
    { destruct (Z_lt_le_dec (d - 1) 106); [assumption|].
      assert (2 ^ 106 <= 2 ^ (d - 1)) by (apply Z.pow_le_mono_r; lia). lia. }
    lia. }
  assert (Hk : exists k : positive, d = 53 + Zpos k /\ 52 <= Zpos k <= 53).
  { destruct Hd as [-> | ->]; [exists 52%positive | exists 53%positive]; lia. }
  destruct Hk as (k & Edk & Hk).
  destruct (@binary_round_aux_inexact P (- s + -54) k)
    as (m' & e' & Eres & Hcases); [exact Edk | lia | lia |].
  rewrite Eres. cbn [Binary64.Math_floor cond_Zopp].
  assert (HS2 : 0 < 2 ^ s) by (apply Z.pow_pos_nonneg; lia).
  assert (HT : 0 < 2 ^ Zpos k) by (apply Z.pow_pos_nonneg; lia).
  assert (HTle : 2 ^ Zpos k <= 2 ^ 53) by (apply Z.pow_le_mono_r; lia).
  assert (HJ : 0 < 2 ^ (s + 54 - Zpos k)) by (apply Z.pow_pos_nonneg; lia).
  assert (EJT : 2 ^ (s + 54 - Zpos k) * 2 ^ Zpos k = 2 ^ 54 * 2 ^ s).
  { rewrite <- !Z.pow_add_r by lia. f_equal. lia. }
  assert (EP : Zpos P = N * 2 ^ s * Zpos M).
  { unfold P. rewrite Pos2Z.inj_mul, Emz. reflexivity. }
  destruct Hcases as [[Ee' Hm'] | [Ee' Hm']].
  - exists (2 ^ s), (2 ^ Zpos k), (2 ^ (s + 54 - Zpos k)), (Zpos m').
    rewrite <- EP, <- Emz.
    repeat split; try assumption; try lia.
    rewrite Z.shiftl_div_pow2 by lia. do 3 f_equal. lia.
  - exists (2 ^ s), (2 ^ Zpos k), (2 ^ (s + 54 - Zpos k)), (2 * Zpos m').
    rewrite <- EP, <- Emz.
    repeat split; try assumption; try lia.
    rewrite Z.shiftl_div_pow2 by lia. f_equal.
    replace (s + 54 - Zpos k) with (1 + (- e')) by lia.
    rewrite Z.pow_add_r by lia. change (2 ^ 1) with 2.
    rewrite Z.div_mul_cancel_l; [reflexivity | | lia].
    assert (0 < 2 ^ (- e')) by (apply Z.pow_pos_nonneg; lia). lia.
Qed.

(** The arithmetic of the bracket: an integer below the exact product is
    below the result, and an integer above the exact product by more than
    the weight [X * 2^-54] of a rounded digit is above the result. *)
Lemma rounded_floor_bounds (N M S2 T J m1 K X : Z) :
  0 < S2 -> 0 < T -> 0 < J -> J * T = 2 ^ 54 * S2 ->
  (m1 = N * S2 * M / T \/ m1 = N * S2 * M / T + 1) ->
  (K * 2 ^ 54 <= N * M -> K <= m1 / J) /\
  (T <= X * S2 -> N * M + X < K * 2 ^ 54 -> m1 / J < K).
Proof.
  intros HS2 HT HJ EJT Hm1.
  set (Q := N * S2 * M / T) in *.
  assert (HQlo : T * Q <= N * S2 * M) by (apply Z.mul_div_le; lia).
  split.
  - intros HK. apply Z.div_le_lower_bound; [exact HJ|].
    assert (J * K <= Q).
    { apply Z.div_le_lower_bound; [lia|].
      replace (T * (J * K)) with (K * (J * T)) by ring. rewrite EJT.
      replace (K * (2 ^ 54 * S2)) with (K * 2 ^ 54 * S2) by ring.
      replace (N * S2 * M) with (N * M * S2) by ring.
      apply Z.mul_le_mono_nonneg_r; lia. }
    lia.
  - intros HX HK. apply Z.div_lt_upper_bound; [exact HJ|].
    assert (Hlt : T * (Q + 1) < T * (J * K)).
    { replace (T * (J * K)) with (K * 2 ^ 54 * S2)
        by (rewrite <- Z.mul_assoc, <- EJT; ring).
      assert ((N * M + X) * S2 < K * 2 ^ 54 * S2)
        by (apply Z.mul_lt_mono_pos_r; lia).
      nia. }
    apply Z.mul_lt_mono_pos_l in Hlt; lia.
Qed.

(** Powers of two that the bounds below compare with. *)
Ltac pow2_constants :=
  change (2 ^ 48) with 281474976710656 in *;
  change (2 ^ 49) with 562949953421312 in *;
  change (2 ^ 52) with 4503599627370496 in *;
  change (2 ^ 53) with 9007199254740992 in *;
  change (2 ^ 54) with 18014398509481984 in *.

(** The count never exceeds the number it is a fraction of. *)
Lemma floor_fraction_range (N : Z) (M : positive) :
  1 <= N < 2 ^ 53 -> 2 ^ 52 <= Zpos M < 2 ^ 53 ->
  0 <= Binary64.floor_fraction (S754_finite false M (-54)) N <= N.
Proof.
  intros HN HM.
  destruct (@floor_mul_bracket N M HN HM)
    as (S2 & T & J & m1 & HS2 & HT & HJ & EJT & Hmz & Hm1 & Efloor).
  unfold Binary64.floor_fraction. rewrite Efloor.
  destruct (@rounded_floor_bounds N (Zpos M) S2 T J m1 0 0 HS2 (proj1 HT) HJ EJT Hm1)
    as [Hlb _].
  destruct (@rounded_floor_bounds N (Zpos M) S2 T J m1 (N + 1) (2 ^ 53)
              HS2 (proj1 HT) HJ EJT Hm1) as [_ Hub].
  assert (Hlo : 0 * 2 ^ 54 <= N * Zpos M) by nia.
  assert (HX : T <= 2 ^ 53 * S2) by nia.
  assert (Hhi : N * Zpos M + 2 ^ 53 < (N + 1) * 2 ^ 54).
  { pow2_constants. nia. }
  specialize (Hlb Hlo). specialize (Hub HX Hhi). lia.
Qed.




(** The two literals are the binary64 values nearest to 7/20 and 2/5:
    they differ from them by less than half a unit in the last place,
    [2^-55]. *)
Lemma literals_nearest :
  Z.abs (20 * 6305039478318694 - 7 * 2 ^ 54) * 2 < 20 /\
  Z.abs (5 * 7205759403792794 - 2 * 2 ^ 54) * 2 < 5 /\
  2 ^ 52 <= 6305039478318694 < 2 ^ 53 /\
  2 ^ 52 <= 7205759403792794 < 2 ^ 53.
Proof. repeat split; try reflexivity; discriminate. Qed.

(** 180 * 0.35: the exact product of 180 and the literal is
    62.999999999999996003...; the nearest binary64 is not 63 but
    8866461766385663 * 2^-47 = 62.999999999999993. *)
Lemma mul_180_0_35 :
  Binary64.mul (Binary64.of_Z 180) Binary64.literal_0_35
  = S754_finite false 8866461766385663 (-47).
Proof. reflexivity. Qed.

Lemma floor_fraction_0_35_180 :
  Binary64.floor_fraction Binary64.literal_0_35 180 = 62.
Proof. reflexivity. Qed.

(** Other counts, for comparison. *)
Lemma floor_fraction_samples :
  Binary64.floor_fraction Binary64.literal_0_35 20 = 7 /\
  Binary64.floor_fraction Binary64.literal_0_35 100 = 35 /\
  Binary64.floor_fraction Binary64.literal_0_35 5000 = 1750 /\
  Binary64.floor_fraction Binary64.literal_0_35 15000 = 5250 /\
  Binary64.floor_fraction Binary64.literal_0_4 180 = 72 /\
  Binary64.floor_fraction Binary64.literal_0_4 15000 = 6000.
Proof. repeat split; reflexivity. Qed.

(** The transition driver in binary64, for the run that stays DISPERSED
    from blend 0: every value is below 1, from frame 113 on every value is
    above 0.99, and the blend stops moving at [1 - 12 * 2^-53]. The run
    back to COMPACT never goes below 0. This is what the real-number model
    of the render loop says of these runs. *)
Lemma binary64_blend_runs :
  let up := Binary64.trajectory 1000 Binary64.one Binary64.zero in
  let rest := S754_finite false 9007199254740980 (-53) in
  forallb (fun b => SFltb b Binary64.one) up = true /\
  forallb (fun b => SFltb Binary64.literal_0_99 b) (skipn 112 up) = true /\
  last up Binary64.zero = rest /\
  Binary64.lerp_step Binary64.one rest = rest /\
  forallb (fun b => SFleb Binary64.zero b)
          (Binary64.trajectory 1000 Binary64.zero rest) = true.
Proof. vm_compute. repeat split; reflexivity. Qed.

Lemma floor_fraction_0 (c : positive) (e : Z) :
  Binary64.floor_fraction (S754_finite false c e) 0 = 0.
Proof. reflexivity. Qed.

(** The round bit after [k] shifts is digit [k - 1] of the mantissa. *)
Lemma shr_1_r (mrs : shr_record) :
  0 <= shr_m mrs -> shr_r (shr_1 mrs) = Z.odd (shr_m mrs).
Proof.
  destruct mrs as [m r s]. cbn [shr_m]. intros Hm.
  destruct m as [|[p|p|]|p]; cbn; try reflexivity. lia.
Qed.

Lemma iter_shr_1_r (n : positive) :
  forall mrs, 0 <= shr_m mrs ->
  shr_r (iter_pos shr_1 n mrs) = Z.odd (shr_m mrs / 2 ^ (Zpos n - 1)).
Proof.
  assert (Hpow : forall k, 0 <= k -> 0 < 2 ^ k) by (intros; apply Z.pow_pos_nonneg; lia).
  induction n as [n IH|n IH|]; intros mrs Hm; cbn [iter_pos].
  - pose proof (@shr_1_nonneg mrs Hm) as H1.
    assert (H2 : 0 <= shr_m (iter_pos shr_1 n (shr_1 mrs))).
    { rewrite iter_shr_1_m by assumption. apply Z.div_pos; [assumption|]. apply Hpow. lia. }
    rewrite (IH _ H2), iter_shr_1_m, shr_1_m by assumption.
    rewrite !Z.div_div by (try apply Hpow; lia). f_equal. f_equal.
    replace (Zpos n~1 - 1) with (1 + (Zpos n + (Zpos n - 1))) by lia.
    rewrite !Z.pow_add_r by lia. reflexivity.
  - assert (H2 : 0 <= shr_m (iter_pos shr_1 n mrs)).
    { rewrite iter_shr_1_m by assumption. apply Z.div_pos; [assumption|]. apply Hpow. lia. }
    rewrite (IH _ H2), iter_shr_1_m by assumption.
    rewrite Z.div_div by (try apply Hpow; lia). f_equal. f_equal.
    replace (Zpos n~0 - 1) with (Zpos n + (Zpos n - 1)) by lia.
    rewrite Z.pow_add_r by lia. reflexivity.
  - rewrite shr_1_r by assumption. change (2 ^ (1 - 1)) with 1. now rewrite Z.div_1_r.
Qed.

(** Without the round bit the mantissa is kept. *)
Lemma round_nearest_even_down (q : Z) (mrs : shr_record) :
  shr_r mrs = false -> round_nearest_even q (loc_of_shr_record mrs) = q.
Proof. destruct mrs as [m [|] [|]]; cbn; congruence. Qed.

(** Rounding a longer mantissa to nearest: the 53 leading digits [Q] are
    kept, or, only when the first digit rounded away is 1, [Q + 1] is
    taken (renormalized when it is the power [2^53]). *)
Lemma binary_round_aux_nearest (m : positive) (e : Z) (k : positive) :
  Zpos (digits2_pos m) = 53 + Zpos k ->
  -1074 <= e + Zpos k -> e + Zpos k + 1 <= 971 ->
  exists m' e' R,
    binary_round_aux 53 1024 false (Zpos m) e loc_Exact = S754_finite false m' e' /\
    (R = Zpos m / 2 ^ Zpos k \/
     (R = Zpos m / 2 ^ Zpos k + 1 /\ Z.odd (Zpos m / 2 ^ (Zpos k - 1)) = true)) /\
    ((e' = e + Zpos k /\ Zpos m' = R) \/
     (e' = e + Zpos k + 1 /\ 2 * Zpos m' = R)).
Proof.
  intros Hd Hlo Hhi. unfold binary_round_aux, shr_fexp. cbn [Zdigits2].
  rewrite Hd, fexp_normal by lia.
  replace (53 + Zpos k + e - 53 - e) with (Zpos k) by lia.
  cbn [shr shr_record_of_loc].
  set (mrs := iter_pos shr_1 k _).
  assert (Eq : shr_m mrs = Zpos m / 2 ^ Zpos k).
  { unfold mrs. rewrite iter_shr_1_m; cbn [shr_m]; [reflexivity | lia]. }
  assert (Er : shr_r mrs = Z.odd (Zpos m / 2 ^ (Zpos k - 1))).
  { unfold mrs. rewrite iter_shr_1_r; cbn [shr_m]; [reflexivity | lia]. }
  set (Q := Zpos m / 2 ^ Zpos k) in *.
  assert (HQ : 2 ^ 52 <= Q < 2 ^ 53).
  { pose proof (digits2_pos_bounds m) as [Dlo Dhi]. rewrite Hd in Dlo, Dhi.
    assert (Hk : 0 < 2 ^ Zpos k) by (apply Z.pow_pos_nonneg; lia).
    replace (53 + Zpos k - 1) with (Zpos k + 52) in Dlo by lia.
    replace (53 + Zpos k) with (Zpos k + 53) in Dhi by lia.
    rewrite Z.pow_add_r in Dlo, Dhi by lia.
    unfold Q. split.
    - apply Z.div_le_lower_bound; assumption.
    - apply Z.div_lt_upper_bound; assumption. }
  assert (Hround : round_nearest_even (shr_m mrs) (loc_of_shr_record mrs) = Q \/
                   (round_nearest_even (shr_m mrs) (loc_of_shr_record mrs) = Q + 1 /\
                    Z.odd (Zpos m / 2 ^ (Zpos k - 1)) = true)).
  { destruct (shr_r mrs) eqn:Ebit.
    - destruct (round_nearest_even_cases (shr_m mrs) (loc_of_shr_record mrs)) as [E|E];
        rewrite E, Eq; [left; reflexivity | right; split; [reflexivity | now symmetry]].
    - left. rewrite round_nearest_even_down by exact Ebit. exact Eq. }
  destruct Hround as [E|[E Hodd]]; rewrite E; clear E.
  - (* the leading digits are kept *)
    destruct Q as [|q|q] eqn:EQ; try (cbn in HQ; lia).
    assert (Dq : Zpos (digits2_pos q) = 53).
    { apply digits2_pos_unique. exact HQ. }
    cbn [Zdigits2]. rewrite Dq, fexp_normal by lia.
    replace (53 + (e + Zpos k) - 53 - (e + Zpos k)) with 0 by lia.
    cbn [shr shr_record_of_loc shr_m].
    destruct (Z.leb_spec (e + Zpos k) (1024 - 53)); [|lia].
    exists q, (e + Zpos k), (Zpos q). split; [reflexivity|]. split; [now left|].
    left. auto.
  - (* one unit in the last place is added *)
    destruct (Z.eq_dec (Q + 1) (2 ^ 53)) as [Ecarry|Ecarry].
    + rewrite Ecarry. change (2 ^ 53) with (Zpos 9007199254740992).
      cbn [Zdigits2]. change (Zpos (digits2_pos 9007199254740992)) with 54.
      rewrite fexp_normal by lia.
      replace (54 + (e + Zpos k) - 53 - (e + Zpos k)) with 1 by lia.
      cbn [shr shr_record_of_loc iter_pos shr_1 shr_m].
      destruct (Z.leb_spec (e + Zpos k + 1) (1024 - 53)); [|lia].
      exists 4503599627370496%positive, (e + Zpos k + 1), (Q + 1).
      split; [reflexivity|]. split; [right; now split|].
      right. split; [reflexivity|]. rewrite Ecarry. reflexivity.
    + destruct (Q + 1) as [|q|q] eqn:EQ; try lia.
      assert (Dq : Zpos (digits2_pos q) = 53).
      { apply digits2_pos_unique. change (2 ^ (53 - 1)) with (2 ^ 52). lia. }
      cbn [Zdigits2]. rewrite Dq, fexp_normal by lia.
      replace (53 + (e + Zpos k) - 53 - (e + Zpos k)) with 0 by lia.
      cbn [shr shr_record_of_loc shr_m].
      destruct (Z.leb_spec (e + Zpos k) (1024 - 53)); [|lia].
      exists q, (e + Zpos k), (Zpos q). split; [reflexivity|].
      split; [right; split; [lia | exact Hodd]|]. left. auto.
Qed.

(** [Math.floor(N * u)] for a normal binary64 [u = M * 2^-E] below 1 is
    below [N]: in units of the last place of the rounded product, [N] is
    an integer above the exact product by at least half a unit, and by
    exactly half a unit only where the product has a digit less. *)
Lemma floor_product_below (N : Z) (M : positive) (E : Z) :
  1 <= N < 2 ^ 53 -> 2 ^ 52 <= Zpos M < 2 ^ 53 -> 53 <= E <= 1074 ->
  0 <= Binary64.floor_fraction (S754_finite false M (- E)) N < N.
Proof.
  intros HN HM HE. destruct (@of_Z_normal N HN) as (mz & s & Eof & Emz & Hs & Hmz).
  unfold Binary64.floor_fraction. rewrite Eof.
  unfold Binary64.mul, Binary64.prec, Binary64.emax, SFmul. cbn [xorb].
  set (P := (mz * M)%positive).
  assert (EP : Zpos P = Zpos mz * Zpos M) by (unfold P; apply Pos2Z.inj_mul).
  assert (HP : 2 ^ 104 <= Zpos P < 2 ^ 106).
  { rewrite EP.
    change (2 ^ 104) with (2 ^ 52 * 2 ^ 52). change (2 ^ 106) with (2 ^ 53 * 2 ^ 53).
    split; [apply Z.mul_le_mono_nonneg | apply Z.mul_lt_mono_nonneg]; lia. }
  pose proof (digits2_pos_bounds P) as [Dlo Dhi].
  set (d := Zpos (digits2_pos P)) in *.
  assert (Hd : d = 105 \/ d = 106).
  { assert (104 < d).
    { destruct (Z_lt_le_dec 104 d); [assumption|].
      assert (2 ^ d <= 2 ^ 104) by (apply Z.pow_le_mono_r; lia). lia. }
    assert (d - 1 < 106).
    { destruct (Z_lt_le_dec (d - 1) 106); [assumption|].
      assert (2 ^ 106 <= 2 ^ (d - 1)) by (apply Z.pow_le_mono_r; lia). lia. }
    lia. }
  assert (Hk : exists k : positive, d = 53 + Zpos k /\ (Zpos k = 52 \/ Zpos k = 53)).
  { destruct Hd as [-> | ->]; [exists 52%positive | exists 53%positive]; lia. }
  destruct Hk as (k & Edk & Hk).
  destruct (@binary_round_aux_nearest P (- s + - E) k)
    as (m' & e' & R & Eres & HR & Hme); [exact Edk | lia | lia |].
  rewrite Eres. cbn [Binary64.Math_floor cond_Zopp].
  set (j := s + E - Zpos k).
  assert (Hj : 0 <= j) by (unfold j; lia).
  set (J := 2 ^ j).
  set (T := 2 ^ Zpos k) in *.
  set (H := 2 ^ (Zpos k - 1)) in *.
  set (pE := 2 ^ E).
  assert (HJ : 0 < J) by (apply Z.pow_pos_nonneg; lia).
  assert (HT : 0 < T) by (apply Z.pow_pos_nonneg; lia).
  assert (HH : 0 < H) by (apply Z.pow_pos_nonneg; lia).
  assert (ETH : T = 2 * H).
  { unfold T, H. rewrite <- Z.pow_succ_r by lia. f_equal. lia. }
  assert (HpE : 2 ^ 53 <= pE) by (apply Z.pow_le_mono_r; lia).
  assert (F2 : Zpos mz * pE = N * J * T).
  { rewrite Emz. unfold pE, J, T, j.
    rewrite <- !Z.mul_assoc, <- !Z.pow_add_r by lia. do 2 f_equal. lia. }
  (* the floor of the result is [R / J] *)
  assert (Efloor : Z.shiftl (Zpos m') e' = R / J).
  { destruct Hme as [[-> ->] | [-> Hm']].
    - replace (- s + - E + Zpos k) with (- j) by (unfold j; lia).
      rewrite Z.shiftl_div_pow2 by lia. rewrite Z.opp_involutive. reflexivity.
    - destruct (Z.eq_dec j 0) as [Ej|Ej].
      + replace (- s + - E + Zpos k + 1) with 1 by (unfold j in Ej; lia).
        unfold J. rewrite Ej. change (2 ^ 0) with 1. rewrite Z.div_1_r.
        rewrite Z.shiftl_mul_pow2 by lia. change (2 ^ 1) with 2. lia.
      + replace (- s + - E + Zpos k + 1) with (- (j - 1)) by (unfold j; lia).
        rewrite Z.shiftl_div_pow2 by lia. rewrite Z.opp_involutive, <- Hm'.
        unfold J. replace j with (1 + (j - 1)) at 2 by lia.
        rewrite Z.pow_add_r by lia. change (2 ^ 1) with 2.
        rewrite Z.div_mul_cancel_l; [reflexivity | | lia].
        assert (0 < 2 ^ (j - 1)) by (apply Z.pow_pos_nonneg; lia). lia. }
  rewrite Efloor.
  set (Q := Zpos P / T) in *.
  assert (F3 : T * Q <= Zpos P < T * (Q + 1)).
  { unfold Q. split; [apply Z.mul_div_le; lia|].
    rewrite Z.mul_add_distr_l, Z.mul_1_r.
    pose proof (Z.mul_succ_div_gt (Zpos P) T HT). lia. }
  assert (HQ0 : 0 <= Q) by (unfold Q; apply Z.div_pos; lia).
  assert (HPlt : Zpos P < N * J * T).
  { rewrite <- F2, EP. apply Z.mul_lt_mono_pos_l; lia. }
  assert (HQlt : Q < N * J).
  { apply (Z.mul_lt_mono_pos_l T); [exact HT|]. lia. }
  assert (HRlt : 0 <= R < N * J).
  { destruct HR as [->|[-> Hodd]]; [lia|].
    split; [lia|].
    destruct (Z_lt_le_dec (Q + 1) (N * J)) as [|Hge]; [assumption|exfalso].
    assert (EQ : Q = N * J - 1) by lia.
    set (h := Zpos P / H) in *.
    assert (Eh2 : Q = h / 2).
    { unfold Q, h. rewrite ETH, Z.mul_comm, Z.div_div by lia. reflexivity. }
    assert (Eh : h = 2 * Q + 1).
    { rewrite Eh2. pose proof (Zdiv2_odd_eqn h) as Eqn. rewrite Hodd in Eqn.
      rewrite Z.div2_div in Eqn. lia. }
    assert (F4 : H * h <= Zpos P) by (unfold h; apply Z.mul_div_le; lia).
    assert (F5 : Zpos mz * (pE - Zpos M) <= H).
    { rewrite Eh, EQ, EP in F4. rewrite ETH in F2. lia. }
    assert (F6 : Zpos mz * 1 <= Zpos mz * (pE - Zpos M))
      by (apply Z.mul_le_mono_nonneg_l; lia).
    destruct Hk as [Hk|Hk].
    - assert (EH : H = 2 ^ 51) by (unfold H; rewrite Hk; reflexivity).
      change (2 ^ 52) with (2 * 2 ^ 51) in Hmz. lia.
    - assert (EH : H = 2 ^ 52) by (unfold H; rewrite Hk; reflexivity).
      assert (E1 : Zpos mz = 2 ^ 52) by lia.
      assert (Hd106 : d - 1 = 105) by lia.
      rewrite Hd106, EP, E1 in Dlo.
      change (2 ^ 105) with (2 ^ 52 * 2 ^ 53) in Dlo.
      apply Z.mul_le_mono_pos_l in Dlo; lia. }
  split.
  - apply Z.div_pos; lia.
  - apply Z.div_lt_upper_bound; [exact HJ|]. lia.
Qed.


Lemma floor_product_zero (n : Z) :
  1 <= n < 2 ^ 53 -> Binary64.floor_product (S754_zero false) n = 0.
Proof.
  intros Hn. destruct (@of_Z_normal n Hn) as (mz & s & Eof & _).
  unfold Binary64.floor_product. rewrite Eof. reflexivity.
Qed.

Lemma floor_product_comm (m : positive) (e n : Z) :
  1 <= n < 2 ^ 53 ->
  Binary64.floor_product (S754_finite false m e) n
  = Binary64.floor_fraction (S754_finite false m e) n.
Proof.
  intros Hn. destruct (@of_Z_normal n Hn) as (mz & s & Eof & _).
  unfold Binary64.floor_product, Binary64.floor_fraction. rewrite Eof.
  unfold Binary64.mul, SFmul. now rewrite Pos.mul_comm, Z.add_comm.
Qed.

(** X30: the index [Math.floor(Math.random() * indices.length)] as the
    code computes it, with the product rounded to binary64, is a valid
    position: for every random number in [0, 1) that is zero or normal and
    every length from 1 to 2^53 - 1 it is at least 0 and below the length,
    and it is the index the floor of the exact product gives for some
    number in [0, 1). *)
Theorem random_index_in_range (u : spec_float) (n : nat) :
  Binary64.unit_random u ->
  (1 <= n)%nat -> Z.of_nat n < 2 ^ 53 ->
  let index := Binary64.floor_product u (Z.of_nat n) in
  0 <= index < Z.of_nat n /\
  exists u' : Q,
    (0 <= u')%Q /\ (u' < 1)%Q /\ App.floor_scaled u' n = Z.to_nat index.
Proof.
  intros Hu Hn Hmax index.
  assert (HN : 1 <= Z.of_nat n < 2 ^ 53) by lia.
  assert (Hidx : 0 <= index < Z.of_nat n).
  { unfold index. destruct u as [[|]| | |[|] m e]; try contradiction.
    - rewrite floor_product_zero by exact HN. lia.
    - destruct Hu as [Hm He]. rewrite floor_product_comm by exact HN.
      replace e with (- - e) by lia. apply floor_product_below; lia. }
  split; [exact Hidx|].
  exists (Qmake index (Pos.of_nat n)). split; [|split].
  - unfold Qle. cbn [Qnum Qden]. lia.
  - unfold Qlt. cbn [Qnum Qden].
    replace (Zpos (Pos.of_nat n)) with (Z.of_nat n) by (destruct n; lia). lia.
  - rewrite <- (Z2Nat.id index) at 1 by lia.
    apply floor_scaled_onto. lia.
Qed.

(** The literal [0.4] stands for a number above 2/5: a random number
    between the two is "> 0.4" in exact arithmetic and not in the code. *)
Lemma literal_0_4_value :
  (2 / 5 < Binary64.to_R Binary64.literal_0_4 < 2 / 5 + / 10 ^ 16)%R.
Proof.
  unfold Binary64.to_R.
  let q := eval vm_compute in (Binary64.to_Q Binary64.literal_0_4) in
  change (Binary64.to_Q Binary64.literal_0_4) with q.
  unfold Q2R. cbn [Qnum Qden]. lra.
Qed.

(** The index of a selection. For the random number
    6004799503160661 * 2^-53 and three indices the exact product is below
    2 by 2^-53, the binary64 product is 2: the code chooses index 2 where
    the floor of the exact product is 1. *)
Lemma floor_scaled_rounding :
  let u := S754_finite false 6004799503160661 (-53) in
  (Binary64.to_Q u == 6004799503160661 # 9007199254740992)%Q /\
  Binary64.floor_fraction u 3 = 2 /\
  App.floor_scaled (6004799503160661 # 9007199254740992) 3 = 1%nat.
Proof.
  cbv zeta. split; [vm_compute; reflexivity|].
  split; [reflexivity | vm_compute; reflexivity].
Qed.

(** For the random numbers 0, 1/4 and 1/2 and up to three indices the
    product is a binary64 and both floors agree. *)
Lemma floor_scaled_samples :
  let zero := S754_zero false in
  let quarter := S754_finite false 4503599627370496 (-54) in
  let half := S754_finite false 4503599627370496 (-53) in
  (Binary64.to_Q quarter == 1 # 4)%Q /\ (Binary64.to_Q half == 1 # 2)%Q /\
  forallb (fun n =>
             (Binary64.floor_fraction zero (Z.of_nat n)
              =? Z.of_nat (App.floor_scaled (0 # 4) n))
             && (Binary64.floor_fraction quarter (Z.of_nat n)
                 =? Z.of_nat (App.floor_scaled (1 # 4) n))
             && (Binary64.floor_fraction half (Z.of_nat n)
                 =? Z.of_nat (App.floor_scaled (2 # 4) n)))
          [1; 2; 3]%nat = true.
Proof.
  cbv zeta. split; [vm_compute; reflexivity|].
  split; vm_compute; reflexivity.
Qed.

End Binary64Properties.

(* ===================================================================== *)
(** * Properties of the particle-field generator *)
(* ===================================================================== *)

Section TypedArrays.

Import Scene.
Local Open Scope R_scope.

Lemma for_loop_S {S : Type} (n : nat) (body : nat -> S -> S) (s : S) :
  for_loop (Datatypes.S n) body s = body n (for_loop n body s).
Proof. unfold for_loop. rewrite seq_S, fold_left_app. reflexivity. Qed.

Lemma flatten3_length (vs : list vec3) : length (flatten3 vs) = (3 * length vs)%nat.
Proof.
  induction vs as [|v vs IH]; [reflexivity|].
  change (flatten3 (v :: vs)) with (vx v :: vy v :: vz v :: flatten3 vs).
  cbn [length]. rewrite IH. lia.
Qed.

Lemma flatten3_snoc (vs : list vec3) (v : vec3) :
  flatten3 (vs ++ [v]) = flatten3 vs ++ [vx v; vy v; vz v].
Proof. unfold flatten3. rewrite flat_map_app. reflexivity. Qed.

(** A store just behind a prefix replaces the element found there. *)
Lemma store_after_prefix (a b : Float32Array) (old v : R) (i : Z) :
  i = Z.of_nat (length a) -> store (a ++ old :: b) i v = a ++ v :: b.
Proof.
  intros ->. unfold store. rewrite length_app. cbn [length].
  replace ((0 <=? Z.of_nat (length a))%Z) with true by (symmetry; apply Z.leb_le; lia).
  replace ((Z.of_nat (length a) <? Z.of_nat (length a + S (length b)))%Z) with true
    by (symmetry; apply Z.ltb_lt; lia).
  cbn [andb]. rewrite Nat2Z.id.
  rewrite firstn_app, Nat.sub_diag, firstn_all. cbn [firstn]. rewrite app_nil_r.
  rewrite skipn_app, skipn_all2 by lia.
  replace (S (length a) - length a)%nat with 1%nat by lia. reflexivity.
Qed.

Lemma store3_after_prefix (a b : Float32Array) (o1 o2 o3 : R) (v : vec3) (i : Z) :
  i = Z.of_nat (length a) ->
  store3 (a ++ o1 :: o2 :: o3 :: b) i v = a ++ vx v :: vy v :: vz v :: b.
Proof.
  intros Hi. unfold store3.
  rewrite (@store_after_prefix a (o2 :: o3 :: b) o1 (vx v) i Hi).
  replace (a ++ vx v :: o2 :: o3 :: b) with ((a ++ [vx v]) ++ o2 :: o3 :: b)
    by (now rewrite <- app_assoc).
  rewrite store_after_prefix by (rewrite length_app; cbn; lia).
  replace ((a ++ [vx v]) ++ vy v :: o3 :: b)
    with ((a ++ [vx v; vy v]) ++ o3 :: b) by (now rewrite <- !app_assoc).
  rewrite store_after_prefix by (rewrite length_app; cbn; lia).
  now rewrite <- app_assoc.
Qed.

(** Writing one more particle into the first free slots. *)
Lemma write_particle_filled (ps : list Particle) (rest k k' : nat) (p : Particle) :
  write_particle p (Z.of_nat (length ps)) k' (filled ps (S rest) k)
  = filled (ps ++ [p]) rest k'.
Proof.
  unfold write_particle, filled. cbn [pos randPos cols siz idx drawn].
  replace (3 * S rest)%nat with (S (S (S (3 * rest)))) by lia.
  cbn [repeat].
  rewrite !store3_after_prefix
    by (rewrite flatten3_length, length_map; reflexivity).
  rewrite store_after_prefix by (now rewrite length_map).
  rewrite !map_app. cbn [map]. rewrite !flatten3_snoc.
  rewrite <- !app_assoc. cbn [app].
  f_equal. rewrite length_app. cbn [length]. lia.
Qed.

End TypedArrays.

Section GeneratorLoops.

Import Scene.
Local Open Scope R_scope.

Variable allocates : nat -> Z -> bool.
Variable PARTICLE_COUNT : Z.
Variables SATURN_RADIUS RING_INNER_RADIUS RING_OUTER_RADIUS EXPANSION_SCALE : R.
Variables colorSaturn1 colorSaturn2 colorRing1 colorRing2 : Color.
Variable random : nat -> Q.

Local Abbreviation sc := (sphereCount PARTICLE_COUNT).
Local Abbreviation rc := (ringCount PARTICLE_COUNT).
Local Abbreviation body_p :=
  (body_particle PARTICLE_COUNT SATURN_RADIUS EXPANSION_SCALE
                 colorSaturn1 colorSaturn2 random).
Local Abbreviation ring_p :=
  (ring_particle PARTICLE_COUNT RING_INNER_RADIUS RING_OUTER_RADIUS
                 EXPANSION_SCALE colorRing1 colorRing2 random).
Local Abbreviation sphere_b :=
  (sphere_body PARTICLE_COUNT SATURN_RADIUS EXPANSION_SCALE
               colorSaturn1 colorSaturn2 random).
Local Abbreviation ring_b :=
  (ring_body PARTICLE_COUNT RING_INNER_RADIUS RING_OUTER_RADIUS
             EXPANSION_SCALE colorRing1 colorRing2 random).
Local Abbreviation groups :=
  (particles_of_groups PARTICLE_COUNT SATURN_RADIUS RING_INNER_RADIUS
     RING_OUTER_RADIUS EXPANSION_SCALE colorSaturn1 colorSaturn2
     colorRing1 colorRing2 random).
Local Abbreviation gen :=
  (generate allocates PARTICLE_COUNT SATURN_RADIUS RING_INNER_RADIUS
     RING_OUTER_RADIUS EXPANSION_SCALE colorSaturn1 colorSaturn2
     colorRing1 colorRing2 random).

(** The four allocations of the generator, in its order. *)
Local Abbreviation allocated :=
  (allocates 0%nat (PARTICLE_COUNT * 3)%Z && allocates 1%nat (PARTICLE_COUNT * 3)%Z
   && allocates 2%nat (PARTICLE_COUNT * 3)%Z && allocates 3%nat PARTICLE_COUNT).

Lemma sphere_body_write (i : nat) (g : Gen) :
  drawn g = (4 * i)%nat ->
  sphere_b i g = write_particle (body_p i) (Z.of_nat i) (4 * i + 4) g.
Proof. intros Hk. unfold sphere_body, write_particle. rewrite Hk. reflexivity. Qed.

Lemma ring_body_write (j : nat) (g : Gen) :
  drawn g = (4 * Z.to_nat sc + 8 * j)%nat ->
  ring_b j g = write_particle (ring_p j) (sc + Z.of_nat j)
                 (4 * Z.to_nat sc + 8 * j + 8) g.
Proof. intros Hk. unfold ring_body, write_particle. rewrite Hk. reflexivity. Qed.

(** Invariant of the first loop: after [n] iterations the first [n] slots
    hold the body particles [0 .. n-1], [4 n] random numbers are used. *)
Lemma sphere_loop (n rest : nat) :
  for_loop n sphere_b (filled [] (n + rest) 0)
  = filled (map body_p (seq 0 n)) rest (4 * n).
Proof.
  revert rest. induction n as [|n IH]; intros rest.
  - reflexivity.
  - rewrite for_loop_S.
    replace (S n + rest)%nat with (n + S rest)%nat by lia.
    rewrite IH, sphere_body_write by reflexivity.
    rewrite seq_S, map_app. cbn [map Nat.add].
    rewrite <- write_particle_filled with (k := (4 * n)%nat).
    rewrite length_map, length_seq. f_equal. lia.
Qed.

(** Invariant of the second loop: it continues behind the body particles. *)
Lemma ring_loop (ps0 : list Particle) (j rest : nat) :
  (0 <= sc)%Z -> length ps0 = Z.to_nat sc ->
  for_loop j ring_b (filled ps0 (j + rest) (4 * Z.to_nat sc))
  = filled (ps0 ++ map ring_p (seq 0 j)) rest (4 * Z.to_nat sc + 8 * j).
Proof.
  intros Hsc Hlen. revert rest. induction j as [|j IH]; intros rest.
  - cbn [for_loop seq fold_left map]. rewrite app_nil_r. unfold for_loop. cbn.
    f_equal. lia.
  - rewrite for_loop_S.
    replace (S j + rest)%nat with (j + S rest)%nat by lia.
    rewrite IH, ring_body_write by reflexivity.
    rewrite seq_S, map_app. cbn [map Nat.add]. rewrite app_assoc.
    rewrite <- write_particle_filled with (k := (4 * Z.to_nat sc + 8 * j)%nat).
    rewrite length_app, length_map, length_seq, Hlen.
    f_equal; lia.
Qed.

Lemma new_Float32Array_ok (answer : Z -> bool) (n : Z) :
  (0 <= n < 2 ^ 53)%Z -> answer n = true ->
  new_Float32Array answer n = Some (repeat 0 (Z.to_nat n)).
Proof.
  intros H Ha. unfold new_Float32Array.
  destruct (Z.ltb_spec n 0); [lia|]. destruct (Z.leb_spec (2 ^ 53) n); [lia|].
  cbn [orb]. now rewrite Ha.
Qed.

(** An allocation that returns was given a length in range, was granted by
    the engine, and returns zeros. *)
Lemma new_Float32Array_Some (answer : Z -> bool) (n : Z) (a : Float32Array) :
  new_Float32Array answer n = Some a ->
  (0 <= n < 2 ^ 53)%Z /\ answer n = true /\ a = repeat 0 (Z.to_nat n).
Proof.
  unfold new_Float32Array.
  destruct (Z.ltb_spec n 0); [discriminate|].
  destruct (Z.leb_spec (2 ^ 53) n); [discriminate|]. cbn [orb].
  destruct (answer n); [|discriminate].
  intros E. injection E as <-. repeat split; [lia | assumption].
Qed.

(** The generator fails exactly when one of its allocations does. *)
Lemma generate_None_iff :
  gen = None <->
  ((PARTICLE_COUNT < 0)%Z \/ (2 ^ 53 <= PARTICLE_COUNT * 3)%Z \/ allocated = false).
Proof.
  unfold generate, new_Float32Array.
  destruct (Z.ltb_spec (PARTICLE_COUNT * 3) 0);
    destruct (Z.leb_spec (2 ^ 53) (PARTICLE_COUNT * 3));
    destruct (Z.ltb_spec PARTICLE_COUNT 0);
    destruct (Z.leb_spec (2 ^ 53) PARTICLE_COUNT);
    cbn [orb]; try (exfalso; lia);
    try (split; intros H'; [lia | reflexivity]).
  destruct (allocates 0%nat (PARTICLE_COUNT * 3)%Z),
           (allocates 1%nat (PARTICLE_COUNT * 3)%Z),
           (allocates 2%nat (PARTICLE_COUNT * 3)%Z),
           (allocates 3%nat PARTICLE_COUNT); cbn [andb];
    split; intros H'; try reflexivity; try discriminate; auto;
    destruct H' as [H'|[H'|H']]; try lia; discriminate.
Qed.

(** When it returns, the count was in range and every allocation granted. *)
Lemma generate_Some_allocated (a : Attributes) :
  gen = Some a ->
  (0 <= PARTICLE_COUNT)%Z /\ (PARTICLE_COUNT * 3 < 2 ^ 53)%Z /\ allocated = true.
Proof.
  intros Ea.
  destruct (Z_lt_le_dec PARTICLE_COUNT 0) as [Hneg|Hpos].
  { rewrite (proj2 generate_None_iff) in Ea by (left; exact Hneg). discriminate. }
  destruct (Z_lt_le_dec (PARTICLE_COUNT * 3) (2 ^ 53)) as [Hsmall|Hbig].
  2:{ rewrite (proj2 generate_None_iff) in Ea by (right; left; exact Hbig).
      discriminate. }
  destruct allocated eqn:Eall; [auto|].
  rewrite (proj2 generate_None_iff) in Ea by (right; right; exact Eall).
  discriminate.
Qed.

Lemma groups_snd :
  map snd groups
  = map body_p (seq 0 (Z.to_nat sc)) ++ map ring_p (seq 0 (Z.to_nat rc)).
Proof.
  unfold particles_of_groups. rewrite map_app, !map_map. reflexivity.
Qed.

(** The buffers the generator returns hold the body particles followed by
    the ring particles and nothing else. *)
Lemma generate_layout :
  (0 <= sc <= PARTICLE_COUNT)%Z -> (PARTICLE_COUNT * 3 < 2 ^ 53)%Z ->
  allocated = true ->
  gen = Some (layout (map snd groups)).
Proof.
  intros Hsc Hmax Hall.
  apply andb_prop in Hall. destruct Hall as [Hall H3].
  apply andb_prop in Hall. destruct Hall as [Hall H2].
  apply andb_prop in Hall. destruct Hall as [H0 H1].
  unfold generate.
  rewrite !new_Float32Array_ok by (assumption || lia).
  replace (mkGen (repeat 0 (Z.to_nat (PARTICLE_COUNT * 3)))
                 (repeat 0 (Z.to_nat (PARTICLE_COUNT * 3)))
                 (repeat 0 (Z.to_nat (PARTICLE_COUNT * 3)))
                 (repeat 0 (Z.to_nat PARTICLE_COUNT)) 0 0)
    with (filled [] (Z.to_nat sc + (Z.to_nat rc + 0)) 0).
  2:{ unfold filled, ringCount. cbn [map flatten3 flat_map app length].
      f_equal; f_equal; lia. }
  rewrite sphere_loop.
  rewrite ring_loop by (rewrite ?length_map, ?length_seq; lia).
  rewrite groups_snd. unfold filled, layout. cbn [pos randPos cols siz].
  cbn [repeat Nat.mul]. rewrite !app_nil_r. reflexivity.
Qed.

Lemma groups_length :
  (0 <= sc <= PARTICLE_COUNT)%Z -> Z.of_nat (length groups) = PARTICLE_COUNT.
Proof.
  intros Hsc. unfold particles_of_groups, ringCount.
  rewrite length_app, !length_map, !length_seq. lia.
Qed.






End GeneratorLoops.

Section CpuGenerator.

Import Scene.
Local Open Scope R_scope.

Variable PARTICLE_COUNT : Z.
Variables SATURN_RADIUS RING_INNER_RADIUS RING_OUTER_RADIUS EXPANSION_SCALE : R.
Variable random : nat -> Q.

Local Abbreviation sphere_b :=
  (CpuScene.sphere_body PARTICLE_COUNT SATURN_RADIUS EXPANSION_SCALE random).
Local Abbreviation ring_b :=
  (CpuScene.ring_body RING_INNER_RADIUS RING_OUTER_RADIUS EXPANSION_SCALE random).



End CpuGenerator.

Section ParticleField.

Import Scene.
Local Open Scope R_scope.



Lemma sphereCount_range (N : Z) :
  (0 <= N < 2 ^ 53)%Z ->
  (0 <= sphereCount N <= N)%Z /\ (0 <= CpuScene.sphereCount N <= N)%Z.
Proof.
  intros HN. destruct (Z.eq_dec N 0) as [->|Hne]; [cbn; lia|].
  assert (HN1 : (1 <= N < 2 ^ 53)%Z) by lia.
  split; apply floor_fraction_range; try exact HN1; split;
    try reflexivity; discriminate.
Qed.



(** C6 (amended): the initialization validates nothing. It aborts exactly
    when one of its four allocations throws - for a negative count, a
    length of 2^53 or more, or a buffer the engine does not allocate - so
    whether it aborts depends on the count and the engine, never on the
    radii, the scale, the colours or the random numbers; whenever it
    returns, for any radii, valid or not, the buffers hold exactly N
    particles. *)
Theorem initialization_validates_nothing
    (allocates : nat -> Z -> bool)
    (N : Z) (saturn inner outer scale : R) (c1 c2 c3 c4 : Color)
    (random : nat -> Q) :
  (generate allocates N saturn inner outer scale c1 c2 c3 c4 random = None
   <-> ((N < 0)%Z \/ (2 ^ 53 <= N * 3)%Z \/
        allocates 0%nat (N * 3)%Z && allocates 1%nat (N * 3)%Z
          && allocates 2%nat (N * 3)%Z && allocates 3%nat N = false)) /\
  (forall (saturn' inner' outer' scale' : R) (c1' c2' c3' c4' : Color)
          (random' : nat -> Q),
     generate allocates N saturn' inner' outer' scale' c1' c2' c3' c4' random'
       = None <->
     generate allocates N saturn inner outer scale c1 c2 c3 c4 random = None) /\
  forall a,
    generate allocates N saturn inner outer scale c1 c2 c3 c4 random = Some a ->
    a = layout (map snd (particles_of_groups N saturn inner outer scale
                           c1 c2 c3 c4 random)) /\
    Z.of_nat (length (positions a)) = (3 * N)%Z /\
    Z.of_nat (length (randomPositions a)) = (3 * N)%Z /\
    Z.of_nat (length (colors a)) = (3 * N)%Z /\
    Z.of_nat (length (sizes a)) = N.
Proof.
  split; [apply generate_None_iff|]. split.
  { intros saturn' inner' outer' scale' c1' c2' c3' c4' random'.
    rewrite !generate_None_iff. reflexivity. }
  intros a Ea.
  destruct (generate_Some_allocated _ _ _ _ _ _ _ _ _ _ _ Ea)
    as (H0 & Hmax & Hall).
  assert (HN53 : (0 <= N < 2 ^ 53)%Z) by lia.
  destruct (sphereCount_range HN53) as [Hcount _].
  rewrite (@generate_layout allocates N saturn inner outer scale c1 c2 c3 c4
             random Hcount Hmax Hall) in Ea.
  injection Ea as <-.
  pose proof (@groups_length N saturn inner outer scale c1 c2 c3 c4 random Hcount)
    as Hlen.
  unfold layout. cbn [positions randomPositions colors sizes].
  rewrite !flatten3_length, !length_map. repeat split; lia.
Qed.

(** C6 (as stated) fails: an inner radius above the outer one is accepted
    whenever the buffers of the ten particles are allocated. *)
Lemma invalid_radii_accepted : ~ rejects_invalid_parameters.
Proof.
  intros H.
  assert (Hbad : (10 <= 0)%Z \/ 3 <= 5 \/ 5 < 0 \/ 3 < 0 \/ 1 < 0)
    by (right; left; lra).
  pose proof (H (fun _ _ => true) 10%Z 1 5 3 1 sample_color sample_color
                sample_color sample_color sample_random Hbad) as Hnone.
  apply generate_None_iff in Hnone. cbn in Hnone.
  destruct Hnone as [Hn|[Hn|Hn]]; [lia | lia | discriminate].
Qed.

End ParticleField.

(* ===================================================================== *)
(** * The theorems at concrete inputs *)
(* ===================================================================== *)


Lemma ring_radius_law_witness :
  (0 <= 1 < 3)%R /\
  forall t : R, (0 <= t < 1)%R -> (1 <= Scene.ring_radius 1 3 t < 3)%R.
Proof.
  assert (H : (0 <= 1 < 3)%R) by lra.
  split; [exact H|]. exact (proj1 (@ring_radius_law 1 3 H)).
Defined.

Lemma blend_bounded_and_converges_witness :
  (113 <= length (repeat 1%R 113))%nat /\
  (0.99 < Scene.uExpansion
            (Scene.run_frames
               ([(false, 0%R)] ++ Scene.frames_with true (repeat 1%R 113))
               (Scene.mounted no_particles)) < 1)%R.
Proof.
  assert (H : (113 <= length (repeat 1%R 113))%nat)
    by (rewrite repeat_length; apply le_n).
  split; [exact H|].
  exact (proj2 (@blend_bounded_and_converges no_particles [(false, 0%R)]
                  (repeat 1%R 113) H)).
Defined.

Lemma initialization_validates_nothing_witness :
  exists a,
    Scene.generate (fun _ _ => true) 10 1 5 3 1 sample_color sample_color
      sample_color sample_color sample_random = Some a /\
    Z.of_nat (length (Scene.sizes a)) = 10%Z.
Proof.
  destruct (@initialization_validates_nothing (fun _ _ => true) 10 1 5 3 1
              sample_color sample_color sample_color sample_color sample_random)
    as (Hnone & _ & Hsome).
  destruct (Scene.generate (fun _ _ => true) 10 1 5 3 1 sample_color
              sample_color sample_color sample_color sample_random) as [a|].
  - exists a. split; [reflexivity|].
    destruct (Hsome a eq_refl) as (_ & _ & _ & _ & Hs). exact Hs.
  - destruct (proj1 Hnone eq_refl) as [H|[H|H]];
      [vm_compute in H; discriminate H | exfalso; apply H; reflexivity
      | discriminate H].
Defined.

Lemma shader_interpolation_witness :
  (0.01 < 0.5 < 0.99)%R /\
  Scene.between3 (Scene.bob 0 (Scene.mkVec3 0 1 0))
                 (Scene.wander 0 (Scene.mkVec3 0 0 0))
                 (Scene.finalPos 0 0.5 (Scene.mkVec3 0 1 0) (Scene.mkVec3 0 0 0)).
Proof.
  assert (H : (0.01 < 0.5 < 0.99)%R) by lra.
  split; [exact H|].
  destruct (@shader_interpolation 0 0.5 (Scene.mkVec3 0 1 0) (Scene.mkVec3 0 0 0))
    as (_ & _ & _ & _ & Hmid).
  exact (Hmid H).
Defined.

(* ===================================================================== *)
(** * Properties of App.tsx over sequences of events *)
(* ===================================================================== *)

Unset Implicit Arguments.

Section AppRunProperties.

Import App AppRuns.

Variable PHRASES : list string.
Variable random : nat -> Q.

Local Abbreviation handle := (handleGestureDetected PHRASES random).
Local Abbreviation trigger := (triggerNewPhrase PHRASES random).
Local Abbreviation toggle := (handleManualToggle PHRASES random).

(** The index list a selection made from the closure [c] draws from. *)
Local Abbreviation pool c :=
  (if Nat.eqb (length (availableIndices c)) 0
   then index_range (length PHRASES) else availableIndices c).

(** What a call of the gesture handler of a render with state [c] does to
    the world [w]. *)
Lemma dispatch_from_handle (c : State) (g : GestureState) (w : World) :
  dispatch_from c (handle g) w =
  if GestureState_eqb g OPEN && negb (isExpanded c) then
    let r := floor_scaled (random (rng w)) (length (pool c)) in
    mkWorld (mkState g true (phrase_at PHRASES (nth_error (pool c) r))
               (splice1 r (pool c)))
            (S (rng w)) (history w ++ [nth_error (pool c) r])
  else if GestureState_eqb g CLOSED && isExpanded c then
    mkWorld (mkState g false (currentPhrase (app w)) (availableIndices (app w)))
            (rng w) (history w)
  else
    mkWorld (mkState g (isExpanded (app w)) (currentPhrase (app w))
               (availableIndices (app w)))
            (rng w) (history w).
Proof. destruct c as [g0 [|] p0 a0], w as [[gs e p a] r h], g; reflexivity. Qed.

Lemma dispatch_toggle (w : World) :
  dispatch toggle w =
  if isExpanded (app w) then
    mkWorld (mkState CLOSED false (currentPhrase (app w))
               (availableIndices (app w)))
            (rng w) (history w)
  else
    let r := floor_scaled (random (rng w)) (length (pool (app w))) in
    mkWorld (mkState OPEN true (phrase_at PHRASES (nth_error (pool (app w)) r))
               (splice1 r (pool (app w))))
            (S (rng w)) (history w ++ [nth_error (pool (app w)) r]).
Proof. destruct w as [[gs [|] p a] r h]; reflexivity. Qed.

Lemma gestureState_dispatch_from (c : State) (g : GestureState) (w : World) :
  gestureState (app (dispatch_from c (handle g) w)) = g.
Proof.
  rewrite dispatch_from_handle.
  destruct (GestureState_eqb g OPEN && negb (isExpanded c));
    [|destruct (GestureState_eqb g CLOSED && isExpanded c)]; reflexivity.
Qed.

Lemma play_cons (e : Event) (es : list Event) (w : World) :
  play PHRASES random (e :: es) w
  = dispatch (handler PHRASES random e) w
    :: play PHRASES random es (dispatch (handler PHRASES random e) w).
Proof. reflexivity. Qed.

(** ** Repeated signals *)

(** X1: the gesture handler of the current render is idempotent: a signal
    delivered to it a second time in a row changes nothing - no second
    phrase is selected and no random number is drawn. (The analysis loop
    does not deliver this way: it keeps the handler it was started
    with.) *)
Theorem repeated_signal_idempotent (g : GestureState) (w : World) :
  dispatch (handle g) (dispatch (handle g) w) = dispatch (handle g) w.
Proof. destruct w as [[gs [|] p a] r h], g; reflexivity. Qed.

(** One event selects a phrase, and draws a random number, exactly when it
    takes the scene from COLLAPSED to EXPANDED. *)
Lemma event_counts (e : Event) (w : World) :
  let w' := dispatch (handler PHRASES random e) w in
  let entered :=
    if Bool.eqb (isExpanded (app w)) (negb true)
       && Bool.eqb (isExpanded (app w')) true then 1 else 0 in
  selections w' = selections w + entered /\ rng w' = rng w + entered.
Proof.
  destruct e as [g|]; destruct w as [[gs [|] p a] r h]; try destruct g;
    unfold selections; cbn; rewrite ?length_app; cbn; lia.
Qed.

(** X2: over any sequence of gesture signals (NONE included) and manual
    toggles, each handled by the current render, the number of phrase
    selections made and the number of random numbers drawn both equal the
    number of transitions from COLLAPSED to EXPANDED. *)
Theorem selections_count_expansions (es : list Event) (w : World) :
  let ws := play PHRASES random es w in
  selections (last ws w) = selections w + entries true w ws /\
  rng (last ws w) = rng w + entries true w ws.
Proof.
  revert w. induction es as [|e es IH]; intros w.
  - cbn. lia.
  - cbv zeta. rewrite play_cons, last_cons_default.
    cbn [entries].
    destruct (event_counts e w) as [Hs Hr]. cbv zeta in Hs, Hr.
    destruct (IH (dispatch (handler PHRASES random e) w)) as [IHs IHr].
    cbv zeta in IHs, IHr. rewrite IHs, IHr, Hs, Hr. lia.
Qed.

(** ** The memoised handler *)

(** The handler reads two things of its closure: [isExpanded] and, through
    [triggerNewPhrase], [availableIndices]. *)
Lemma dispatch_from_agree (c c' : State) (g : GestureState) (w : World) :
  isExpanded c = isExpanded c' ->
  availableIndices c = availableIndices c' ->
  dispatch_from c (handle g) w = dispatch_from c' (handle g) w.
Proof. intros E1 E2. now rewrite !dispatch_from_handle, E1, E2. Qed.

Lemma deliver_current (r : Rendered) (e : Event) :
  isExpanded (memo r) = isExpanded (app (world r)) ->
  availableIndices (memo r) = availableIndices (app (world r)) ->
  world (deliver PHRASES random r e)
    = dispatch (handler PHRASES random e) (world r) /\
  isExpanded (memo (deliver PHRASES random r e))
    = isExpanded (app (world (deliver PHRASES random r e))) /\
  availableIndices (memo (deliver PHRASES random r e))
    = availableIndices (app (world (deliver PHRASES random r e))).
Proof.
  destruct r as [[[gs e0 p a] rn h] [mg me mp ma]]. cbn [memo world app].
  cbn [isExpanded availableIndices]. intros -> ->.
  destruct e as [g|]; [destruct g|]; destruct e0; cbn; repeat split; reflexivity.
Qed.

Lemma play_memoised_current (es : list Event) (r : Rendered) :
  isExpanded (memo r) = isExpanded (app (world r)) ->
  availableIndices (memo r) = availableIndices (app (world r)) ->
  let r' := play_memoised PHRASES random es r in
  world r' = last (play PHRASES random es (world r)) (world r) /\
  isExpanded (memo r') = isExpanded (app (world r')) /\
  availableIndices (memo r') = availableIndices (app (world r')).
Proof.
  revert r. induction es as [|e es IH]; intros r H1 H2.
  - cbn. auto.
  - cbv zeta. rewrite play_cons, last_cons_default.
    destruct (@deliver_current r e H1 H2) as (Hw & H1' & H2').
    destruct (IH _ H1' H2') as (IHw & IH1 & IH2). cbv zeta in IHw, IH1, IH2.
    change (play_memoised PHRASES random (e :: es) r)
      with (play_memoised PHRASES random es (deliver PHRASES random r e)).
    rewrite <- Hw. auto.
Qed.

(** X3: the dependency list [isExpanded] of the memoised gesture handler is
    enough as long as every event goes to the callbacks of the latest
    render: from the first render on, the memoised handler - rebuilt only
    when [isExpanded] changes - acts exactly like a handler that reads the
    current state, and the [availableIndices] it captured are the current
    ones. *)
Theorem memoised_handler_sees_current_state (es : list Event) :
  let r := play_memoised PHRASES random es (first_render PHRASES) in
  world r = last (play PHRASES random es (initial PHRASES)) (initial PHRASES) /\
  isExpanded (memo r) = isExpanded (app (world r)) /\
  availableIndices (memo r) = availableIndices (app (world r)).
Proof.
  apply (@play_memoised_current es (first_render PHRASES)); reflexivity.
Qed.

(** ** Invariants of the reachable states *)

Lemma splice1_cons {A} (i : nat) (x : A) (xs : list A) :
  splice1 (S i) (x :: xs) = x :: splice1 i xs.
Proof. reflexivity. Qed.

Lemma splice1_In {A} (i : nat) (xs : list A) (x : A) :
  In x (splice1 i xs) -> In x xs.
Proof.
  revert xs. induction i as [|i IH]; intros [|y ys] H.
  - exact H.
  - right. exact H.
  - destruct H.
  - rewrite splice1_cons in H. destruct H as [->|H]; [now left|].
    right. now apply IH.
Qed.

Lemma splice1_NoDup {A} (i : nat) (xs : list A) :
  NoDup xs -> NoDup (splice1 i xs).
Proof.
  revert xs. induction i as [|i IH]; intros [|y ys] H.
  - constructor.
  - now inversion H.
  - constructor.
  - rewrite splice1_cons. inversion H as [|? ? Hn Hd]; subst.
    constructor; [|now apply IH].
    intros Hin. apply Hn. eapply splice1_In, Hin.
Qed.

Lemma splice1_Forall {A} (P : A -> Prop) (i : nat) (xs : list A) :
  Forall P xs -> Forall P (splice1 i xs).
Proof.
  intros H. apply Forall_forall. intros x Hx.
  eapply Forall_forall; [exact H|]. eapply splice1_In, Hx.
Qed.

(** The list a selection draws from holds distinct valid indices when the
    remaining-index list of its closure does. *)
Lemma pool_valid (c : State) :
  NoDup (availableIndices c) ->
  Forall (fun i => i < length PHRASES) (availableIndices c) ->
  NoDup (pool c) /\ Forall (fun i => i < length PHRASES) (pool c).
Proof.
  intros Hn Hf. destruct (Nat.eqb (length (availableIndices c)) 0).
  - split; [apply seq_NoDup|]. apply Forall_forall. intros i Hi.
    apply in_seq in Hi. lia.
  - now split.
Qed.

Lemma pool_nonempty (c : State) : 1 <= length PHRASES -> pool c <> [].
Proof.
  intros HK. destruct (Nat.eqb (length (availableIndices c)) 0) eqn:E.
  - unfold index_range. destruct (length PHRASES); [lia | discriminate].
  - intros E'. rewrite E' in E. discriminate.
Qed.

(** A selection from a valid pool shows a phrase of [PHRASES]. *)
Lemma pool_phrase (c : State) (k : nat) :
  random_ok random -> 1 <= length PHRASES ->
  Forall (fun i => i < length PHRASES) (pool c) ->
  exists p,
    phrase_at PHRASES
      (nth_error (pool c) (floor_scaled (random k) (length (pool c)))) = Some p /\
    In p (EmptyString :: PHRASES).
Proof.
  intros Hr HK Hf.
  destruct (@floor_scaled_pick random (pool c) k Hr (pool_nonempty c HK))
    as [i Hi].
  rewrite Hi. cbn [phrase_at].
  assert (Hlt : i < length PHRASES).
  { pose proof (proj1 (Forall_forall _ _) Hf) as Hall. apply Hall.
    eapply nth_error_In, Hi. }
  apply nth_error_Some in Hlt.
  destruct (nth_error PHRASES i) as [p|] eqn:Ep; [|congruence].
  exists p. split; [reflexivity|]. right. eapply nth_error_In, Ep.
Qed.

(** X4: in every state the component can reach - gesture signals OPEN and
    CLOSED coming from the handler of any render so far, clicks going to the
    current toggle - the remaining-index list holds pairwise distinct
    indices of the phrase pool, the stored gesture state is never NONE, one
    random number has been drawn per selection, and (for a non-empty pool
    and a random source within [0, 1)) the current phrase is defined: the
    initial empty string or a phrase of the pool. *)
Theorem reachable_pool_invariant (w : World) :
  reachable PHRASES random w ->
  NoDup (availableIndices (app w)) /\
  Forall (fun i => i < length PHRASES) (availableIndices (app w)) /\
  gestureState (app w) <> NONE /\
  rng w = selections w /\
  (random_ok random -> 1 <= length PHRASES ->
   exists p, currentPhrase (app w) = Some p /\ In p (EmptyString :: PHRASES)).
Proof.
  induction 1 as [|w c g Hw IHw Hc IHc Hg|w Hw IHw].
  - cbn. split; [apply seq_NoDup|]. split.
    { apply Forall_forall. intros i Hi. apply in_seq in Hi. lia. }
    split; [discriminate|]. split; [reflexivity|].
    intros _ _. exists EmptyString. split; [reflexivity | now left].
  - destruct IHw as (Hn & Hf & Hgs & Hrng & Hp).
    destruct IHc as (Hcn & Hcf & _).
    destruct (pool_valid (app c) Hcn Hcf) as [Hpn Hpf].
    rewrite dispatch_from_handle.
    destruct (GestureState_eqb g OPEN && negb (isExpanded (app c)));
      [|destruct (GestureState_eqb g CLOSED && isExpanded (app c))];
      cbv zeta; unfold selections; cbn [app rng history availableIndices
        gestureState currentPhrase].
    + split; [now apply splice1_NoDup|]. split; [now apply splice1_Forall|].
      split; [exact Hg|]. split.
      { rewrite length_app. cbn [length]. unfold selections in Hrng. lia. }
      intros Hr HK. now apply pool_phrase.
    + repeat split; assumption.
    + repeat split; assumption.
  - destruct IHw as (Hn & Hf & Hgs & Hrng & Hp).
    destruct (pool_valid (app w) Hn Hf) as [Hpn Hpf].
    rewrite dispatch_toggle. destruct (isExpanded (app w));
      cbv zeta; unfold selections; cbn [app rng history availableIndices
        gestureState currentPhrase].
    + repeat split; try assumption. discriminate.
    + split; [now apply splice1_NoDup|]. split; [now apply splice1_Forall|].
      split; [discriminate|]. split.
      { rewrite length_app. cbn [length]. unfold selections in Hrng. lia. }
      intros Hr HK. now apply pool_phrase.
Qed.

(** Two clicks on the toggle from a collapsed state: one selection, made
    from the current list, then back to COLLAPSED. *)
Lemma toggle_pair (w : World) :
  isExpanded (app w) = false ->
  let r := floor_scaled (random (rng w)) (length (pool (app w))) in
  let chosen := nth_error (pool (app w)) r in
  play PHRASES random [ManualToggle; ManualToggle] w =
  [mkWorld (mkState OPEN true (phrase_at PHRASES chosen)
              (splice1 r (pool (app w))))
           (S (rng w)) (history w ++ [chosen]);
   mkWorld (mkState CLOSED false (phrase_at PHRASES chosen)
              (splice1 r (pool (app w))))
           (S (rng w)) (history w ++ [chosen])].
Proof. destruct w as [[gs e p a] r h]. cbn. intros ->. reflexivity. Qed.

(** Emptying a cycle with the button: [n] expansions from [n] remaining
    indices choose each of them once. *)
Lemma toggle_pairs_drain (Hr : random_ok random) (n : nat) :
  forall w,
    isExpanded (app w) = false ->
    length (availableIndices (app w)) = n ->
    let ws := play PHRASES random (repeat ManualToggle (2 * n)) w in
    exists idxs,
      Permutation idxs (availableIndices (app w)) /\
      history (last ws w) = history w ++ map Some idxs /\
      map (fun x => currentPhrase (app x)) ws
        = flat_map (fun i => [nth_error PHRASES i; nth_error PHRASES i]) idxs /\
      availableIndices (app (last ws w)) = [] /\
      isExpanded (app (last ws w)) = false.
Proof.
  induction n as [|n IH]; intros w Hc Hlen.
  - exists []. apply length_zero_iff_nil in Hlen. cbn. rewrite Hlen, app_nil_r.
    repeat split; auto.
  - cbv zeta. replace (2 * S n) with (S (S (2 * n))) by lia.
    change (repeat ManualToggle (S (S (2 * n))))
      with ([ManualToggle; ManualToggle] ++ repeat ManualToggle (2 * n)).
    unfold play. rewrite map_app.
    assert (Hne : availableIndices (app w) <> []).
    { intros E. rewrite E in Hlen. discriminate. }
    destruct (@floor_scaled_pick random (availableIndices (app w)) (rng w) Hr Hne)
      as [i Hi].
    rewrite Hlen in Hi.
    set (w1 := mkWorld (mkState OPEN true (nth_error PHRASES i)
                          (splice1 (floor_scaled (random (rng w)) (S n))
                             (availableIndices (app w))))
                       (S (rng w)) (history w ++ [Some i])).
    set (w2 := mkWorld (mkState CLOSED false (nth_error PHRASES i)
                          (splice1 (floor_scaled (random (rng w)) (S n))
                             (availableIndices (app w))))
                       (S (rng w)) (history w ++ [Some i])).
    assert (E1 : dispatch toggle w = w1).
    { rewrite dispatch_toggle, Hc. cbv zeta.
      rewrite Hlen. cbn [Nat.eqb]. rewrite Hlen, Hi. reflexivity. }
    assert (E2 : dispatch toggle w1 = w2) by reflexivity.
    assert (Hrun : forall hs,
               run (map (handler PHRASES random) [ManualToggle; ManualToggle] ++ hs) w
               = w1 :: w2 :: run hs w2).
    { intros hs.
      change (run (map (handler PHRASES random) [ManualToggle; ManualToggle] ++ hs) w)
        with (dispatch toggle w
              :: dispatch toggle (dispatch toggle w)
              :: run hs (dispatch toggle (dispatch toggle w))).
      now rewrite E1, E2. }
    rewrite Hrun.
    assert (Hlen2 : length (availableIndices (app w2)) = n).
    { unfold w2. cbn [app availableIndices]. rewrite splice1_length.
      - lia.
      - apply nth_error_Some. rewrite Hi. discriminate. }
    destruct (IH w2 eq_refl Hlen2) as (idxs & Hp & Hh & Hs & Ha & He).
    cbv zeta in Hh, Hs, Ha, He. unfold play in Hh, Hs, Ha, He.
    exists (i :: idxs).
    rewrite !last_cons_default.
    split.
    { eapply perm_trans; [apply perm_skip, Hp|].
      unfold w2. cbn [app availableIndices]. now apply splice1_perm. }
    split.
    { rewrite Hh. unfold w2. cbn [history map]. now rewrite <- app_assoc. }
    split.
    { cbn [map flat_map app]. rewrite Hs. reflexivity. }
    split; assumption.
Qed.

(** X5: in the middle of a cycle too, the manual toggle repeats no phrase
    before the pool is used up: from any collapsed state with [n] pairwise
    distinct remaining indices, the next [n] expansions by the button
    ([2 n] clicks, each handled by the current render) choose exactly those
    indices, each once, show the phrases stored at them - each until the
    next expansion - and leave the list empty. *)
Theorem remaining_indices_shown_once (w : World) (n : nat) :
  random_ok random ->
  isExpanded (app w) = false ->
  length (availableIndices (app w)) = n ->
  NoDup (availableIndices (app w)) ->
  let ws := play PHRASES random (repeat ManualToggle (2 * n)) w in
  exists idxs,
    Permutation idxs (availableIndices (app w)) /\
    NoDup idxs /\
    history (last ws w) = history w ++ map Some idxs /\
    map (fun x => currentPhrase (app x)) ws
      = flat_map (fun i => [nth_error PHRASES i; nth_error PHRASES i]) idxs /\
    availableIndices (app (last ws w)) = [].
Proof.
  intros Hr Hc Hlen Hn ws.
  destruct (toggle_pairs_drain Hr n w Hc Hlen) as (idxs & Hp & Hh & Hs & Ha & _).
  exists idxs. split; [exact Hp|]. split.
  { eapply Permutation_NoDup; [apply Permutation_sym, Hp | exact Hn]. }
  split; [exact Hh|]. split; [exact Hs | exact Ha].
Qed.

(** X6: an empty phrase pool raises no error: in every reachable state the
    remaining-index list is empty, every selection made so far chose the
    index [undefined], and once a selection has been made the current
    phrase is [undefined] - the scene expands and shows no text. *)
Theorem empty_pool_shows_nothing (w : World) :
  length PHRASES = 0 ->
  reachable PHRASES random w ->
  availableIndices (app w) = [] /\
  Forall (fun i => i = None) (history w) /\
  (history w = [] -> currentPhrase (app w) = Some EmptyString) /\
  (history w <> [] -> currentPhrase (app w) = None).
Proof.
  intros HK.
  assert (Hpool : forall c : State, availableIndices c = [] -> pool c = []).
  { intros c E. rewrite E, HK. reflexivity. }
  induction 1 as [|w c g Hw IHw Hc IHc Hg|w Hw IHw].
  - cbn. rewrite HK. repeat split; [constructor | congruence].
  - destruct IHw as (Ha & Hh & He & Hne). destruct IHc as (Hca & _).
    rewrite dispatch_from_handle.
    destruct (GestureState_eqb g OPEN && negb (isExpanded (app c)));
      [|destruct (GestureState_eqb g CLOSED && isExpanded (app c))];
      cbv zeta; cbn [app history availableIndices currentPhrase];
      try (repeat split; assumption).
    rewrite (Hpool (app c) Hca). cbn [length]. unfold splice1.
    rewrite firstn_nil, skipn_nil. cbn [app nth_error].
    assert (E : nth_error (@nil nat) (floor_scaled (random (rng w)) 0) = None)
      by now destruct (floor_scaled _ _).
    rewrite E. repeat split.
    + apply Forall_app. split; [exact Hh | now constructor].
    + intros E'. now apply app_eq_nil in E'.
  - destruct IHw as (Ha & Hh & He & Hne).
    rewrite dispatch_toggle. destruct (isExpanded (app w));
      cbv zeta; cbn [app history availableIndices currentPhrase];
      try (repeat split; assumption).
    rewrite (Hpool (app w) Ha). cbn [length]. unfold splice1.
    rewrite firstn_nil, skipn_nil. cbn [app nth_error].
    assert (E : nth_error (@nil nat) (floor_scaled (random (rng w)) 0) = None)
      by now destruct (floor_scaled _ _).
    rewrite E. repeat split.
    + apply Forall_app. split; [exact Hh | now constructor].
    + intros E'. now apply app_eq_nil in E'.
Qed.

(** X7: the phrase on display is the one stored at the index chosen last
    (the index the later revision of the component keeps in
    [activePhraseIndex]): in every reachable state in which a selection has
    been made, the current phrase is [PHRASES] read at the last chosen
    index - whichever render's handler made the selection. *)
Theorem active_index_matches_phrase (w : World) :
  reachable PHRASES random w ->
  history w <> [] ->
  currentPhrase (app w) = phrase_at PHRASES (last (history w) None).
Proof.
  induction 1 as [|w c g Hw IHw Hc IHc Hg|w Hw IHw].
  - intros H. now contradiction H.
  - rewrite dispatch_from_handle.
    destruct (GestureState_eqb g OPEN && negb (isExpanded (app c)));
      [|destruct (GestureState_eqb g CLOSED && isExpanded (app c))];
      cbv zeta; cbn [app history currentPhrase]; try exact IHw.
    intros _. now rewrite last_last.
  - rewrite dispatch_toggle. destruct (isExpanded (app w));
      cbv zeta; cbn [app history currentPhrase]; try exact IHw.
    intros _. now rewrite last_last.
Qed.

End AppRunProperties.

(* ===================================================================== *)
(** * Properties of CameraHandler.tsx and visionService.ts *)
(* ===================================================================== *)

Section CameraProperties.

Import App.

Variable PHRASES : list string.
Variable random : nat -> Q.

Local Abbreviation handle := (handleGestureDetected PHRASES random).
Local Abbreviation loop := (Camera.analysis_loop PHRASES random).
Local Abbreviation respond := (Camera.respond PHRASES random).

(** The index list a selection made from the closure [c] draws from. *)
Local Abbreviation pool c :=
  (if Nat.eqb (length (availableIndices c)) 0
   then index_range (length PHRASES) else availableIndices c).

(** ** The response filter *)

Lemma on_response_not_NONE (response : Vision.Parsed) :
  Camera.on_response response <> Some NONE.
Proof.
  destruct response as [|gesture confidence]; cbn; [discriminate|].
  destruct (negb _); [|discriminate].
  destruct (Camera.gesture_is _ _); discriminate.
Qed.

(** X8: the analysis loop never calls the handler with NONE, and it does
    not validate the answer: the gesture string "OPEN" is passed on as
    OPEN, "NONE" is dropped, and every other answer - any other string, a
    missing or non-string gesture - is passed on as CLOSED; the confidence
    is never looked at. *)
Theorem unknown_gesture_is_CLOSED :
  (forall response, Camera.on_response response <> Some NONE) /\
  (forall confidence,
     Camera.on_response (Vision.ParsedValue (Some "OPEN"%string) confidence)
       = Some OPEN /\
     Camera.on_response (Vision.ParsedValue (Some "NONE"%string) confidence)
       = None /\
     Camera.on_response (Vision.ParsedValue None confidence) = Some CLOSED) /\
  (forall s confidence,
     s <> "OPEN"%string -> s <> "NONE"%string ->
     Camera.on_response (Vision.ParsedValue (Some s) confidence) = Some CLOSED) /\
  (forall gesture confidence confidence',
     Camera.on_response (Vision.ParsedValue gesture confidence)
       = Camera.on_response (Vision.ParsedValue gesture confidence')).
Proof.
  split; [exact on_response_not_NONE|]. split; [|split].
  - intros confidence. repeat split; reflexivity.
  - intros s confidence Ho Hn. cbn.
    apply String.eqb_neq in Ho, Hn. now rewrite Ho, Hn.
  - reflexivity.
Qed.

Lemma respond_cases (captured : State) (response : Vision.Parsed) (w : World) :
  (Camera.on_response response = None /\ respond captured response w = w) \/
  (exists g, (g = OPEN \/ g = CLOSED) /\
             Camera.on_response response = Some g /\
             respond captured response w = dispatch_from captured (handle g) w).
Proof.
  unfold Camera.respond.
  destruct (Camera.on_response response) as [g|] eqn:E; [|now left].
  right. exists g. split; [|now split].
  destruct g; auto. exfalso. exact (on_response_not_NONE response E).
Qed.

(** X9: through the camera the stored gesture state never becomes NONE:
    whatever the classifier answers and whichever render's handler the
    loop holds, a gesture state that is not NONE stays so after every
    response. *)
Theorem camera_gesture_state_never_NONE
    (captured : State) (responses : list Vision.Parsed) (w : World) :
  gestureState (app w) <> NONE ->
  Forall (fun w' => gestureState (app w') <> NONE) (loop captured responses w).
Proof.
  revert w. induction responses as [|r rs IH]; intros w Hw; [constructor|].
  cbn [Camera.analysis_loop].
  assert (Hw' : gestureState (app (respond captured r w)) <> NONE).
  { destruct (respond_cases captured r w) as [[_ E]|(g & Hg & _ & E)];
      rewrite E; [exact Hw|].
    rewrite (@gestureState_dispatch_from PHRASES random captured g w).
    destruct Hg as [->| ->]; discriminate. }
  constructor; [exact Hw' | now apply IH].
Qed.

(** ** A loop that holds the handler of a collapsed render *)

Lemma stale_respond (captured : State) (response : Vision.Parsed) (w : World) :
  isExpanded captured = false ->
  let opened :=
    match Camera.on_response response with Some OPEN => true | _ => false end in
  let w' := respond captured response w in
  isExpanded (app w') = isExpanded (app w) || opened /\
  selections w' = selections w + (if opened then 1 else 0) /\
  (opened = true ->
   let r := floor_scaled (random (rng w)) (length (pool captured)) in
   availableIndices (app w') = splice1 r (pool captured) /\
   currentPhrase (app w') = phrase_at PHRASES (nth_error (pool captured) r)).
Proof.
  intros Hc. cbv zeta.
  destruct (respond_cases captured response w) as [[E1 E2]|(g & Hg & E1 & E2)];
    rewrite E1, E2.
  - rewrite orb_false_r. repeat split; [lia | discriminate | discriminate].
  - rewrite (@dispatch_from_handle PHRASES random captured g w), Hc.
    destruct Hg as [->| ->]; cbn [GestureState_eqb andb negb]; cbv zeta;
      unfold selections; cbn [app history isExpanded availableIndices
        currentPhrase].
    + rewrite orb_true_r, length_app. cbn [length]. repeat split; lia.
    + rewrite orb_false_r. repeat split; [lia | discriminate | discriminate].
Qed.

(** X10: the analysis loop keeps calling the handler it was started with.
    When that handler is the one of a collapsed render, the responses of
    the loop can expand the scene but never collapse it (CLOSED only
    overwrites the stored gesture state), every OPEN response selects a
    phrase - also while the scene is already expanded - and every such
    selection is drawn from the index list captured at the start of the
    loop, not from the current one: whatever the current list is, the list
    left is the captured one without the entry at the chosen position, and
    the phrase shown is the one that entry points to, so the no-repeat
    cycle does not advance. *)
Theorem stale_loop_never_collapses
    (captured : State) (responses : list Vision.Parsed) (w : World) :
  isExpanded captured = false ->
  let ws := loop captured responses w in
  entries false w ws = 0 /\
  (isExpanded (app w) = true ->
   Forall (fun w' => isExpanded (app w') = true) ws) /\
  selections (last ws w) = selections w + Camera.opens responses /\
  (forall response w0,
     Camera.on_response response = Some OPEN ->
     exists r,
       (random_ok random -> pool captured <> [] -> r < length (pool captured)) /\
       availableIndices (app (respond captured response w0))
         = splice1 r (pool captured) /\
       currentPhrase (app (respond captured response w0))
         = phrase_at PHRASES (nth_error (pool captured) r)).
Proof.
  intros Hc. cbv zeta. split; [|split; [|split]].
  - revert w. induction responses as [|r rs IH]; intros w; [reflexivity|].
    cbn [Camera.analysis_loop entries]. rewrite IH.
    destruct (stale_respond captured r w Hc) as (He & _). cbv zeta in He. rewrite He.
    destruct (isExpanded (app w)); reflexivity.
  - revert w. induction responses as [|r rs IH]; intros w Hw; [constructor|].
    cbn [Camera.analysis_loop].
    destruct (stale_respond captured r w Hc) as (He & _). cbv zeta in He.
    rewrite Hw in He. constructor; [exact He | now apply IH].
  - revert w. induction responses as [|r rs IH]; intros w.
    + cbn. lia.
    + cbn [Camera.analysis_loop]. rewrite last_cons_default, IH.
      destruct (stale_respond captured r w Hc) as (_ & Hs & _). cbv zeta in Hs.
      rewrite Hs. unfold Camera.opens. cbn [filter].
      destruct (Camera.on_response r) as [[| |]|]; cbn [length]; lia.
  - intros response w0 E.
    destruct (stale_respond captured response w0 Hc) as (_ & _ & Ha). cbv zeta in Ha.
    rewrite E in Ha.
    exists (floor_scaled (random (rng w0)) (length (pool captured))).
    split; [|exact (Ha eq_refl)].
    intros Hr Hne. destruct (Hr (rng w0)) as [H0 H1].
    apply (@floor_scaled_lt _ _ H0 H1).
    destruct (pool captured); [congruence | cbn; lia].
Qed.

(** ** A loop that holds the handler of an expanded render *)

Lemma stale_respond_expanded
    (captured : State) (response : Vision.Parsed) (w : World) :
  isExpanded captured = true ->
  let closed :=
    match Camera.on_response response with Some CLOSED => true | _ => false end in
  let w' := respond captured response w in
  isExpanded (app w') = isExpanded (app w) && negb closed /\
  selections w' = selections w /\
  rng w' = rng w /\
  availableIndices (app w') = availableIndices (app w) /\
  currentPhrase (app w') = currentPhrase (app w).
Proof.
  intros Hc. cbv zeta.
  destruct (respond_cases captured response w) as [[E1 E2]|(g & Hg & E1 & E2)];
    rewrite E1, E2.
  - rewrite andb_true_r. repeat split.
  - rewrite (@dispatch_from_handle PHRASES random captured g w), Hc.
    destruct Hg as [->| ->]; cbn [GestureState_eqb andb negb]; cbv zeta;
      unfold selections; cbn [app history isExpanded availableIndices
        currentPhrase rng].
    + rewrite andb_true_r. repeat split.
    + rewrite andb_false_r. repeat split.
Qed.

(** X11: the mirror case. A loop started while the scene was expanded (the
    permission arrived after a manual toggle) holds the handler of an
    expanded render: its responses can collapse the scene but never expand
    it again - OPEN only overwrites the stored gesture state - so through
    that loop no phrase is ever selected, no random number drawn, and the
    phrase and the remaining indices stay as they are. *)
Theorem stale_loop_never_expands
    (captured : State) (responses : list Vision.Parsed) (w : World) :
  isExpanded captured = true ->
  let ws := loop captured responses w in
  entries true w ws = 0 /\
  (isExpanded (app w) = false ->
   Forall (fun w' => isExpanded (app w') = false) ws) /\
  Forall (fun w' =>
            selections w' = selections w /\ rng w' = rng w /\
            availableIndices (app w') = availableIndices (app w) /\
            currentPhrase (app w') = currentPhrase (app w)) ws.
Proof.
  intros Hc. cbv zeta. split; [|split].
  - revert w. induction responses as [|r rs IH]; intros w; [reflexivity|].
    cbn [Camera.analysis_loop entries]. rewrite IH.
    destruct (stale_respond_expanded captured r w Hc) as (He & _).
    cbv zeta in He. rewrite He.
    destruct (isExpanded (app w));
      destruct (match Camera.on_response r with Some CLOSED => true | _ => false end);
      reflexivity.
  - revert w. induction responses as [|r rs IH]; intros w Hw; [constructor|].
    cbn [Camera.analysis_loop].
    destruct (stale_respond_expanded captured r w Hc) as (He & _).
    cbv zeta in He. rewrite Hw in He. cbn [andb] in He.
    constructor; [exact He | now apply IH].
  - revert w. induction responses as [|r rs IH]; intros w; [constructor|].
    cbn [Camera.analysis_loop].
    destruct (stale_respond_expanded captured r w Hc)
      as (_ & Hs & Hr & Ha & Hp). cbv zeta in Hs, Hr, Ha, Hp.
    constructor; [now repeat split|].
    specialize (IH (respond captured r w)).
    rewrite Hs, Hr, Ha, Hp in IH. exact IH.
Qed.

(** ** Failed detections *)

(** X12: a detection that fails - the model call throws, its answer has no
    or an empty text, or the text is not JSON - resolves to gesture NONE
    with confidence 0 instead of rejecting, and the tick of the analysis
    loop that requested it leaves the application state untouched. *)
Theorem failed_detection_changes_nothing
    (generateContent : string -> Vision.ApiResult)
    (JSON_parse : string -> option Vision.Parsed)
    (captured : State) (dataUrl : string) (w : World) :
  (generateContent (Vision.clean_base64 dataUrl) = Vision.ApiError \/
   generateContent (Vision.clean_base64 dataUrl) = Vision.ApiResponse None \/
   generateContent (Vision.clean_base64 dataUrl)
     = Vision.ApiResponse (Some EmptyString) \/
   exists text,
     generateContent (Vision.clean_base64 dataUrl)
       = Vision.ApiResponse (Some text) /\
     JSON_parse text = None) ->
  Vision.detectGesture generateContent JSON_parse dataUrl = Vision.no_gesture /\
  Camera.tick PHRASES random generateContent JSON_parse captured (Some dataUrl) w
    = w.
Proof.
  intros H.
  assert (E : Vision.detectGesture generateContent JSON_parse dataUrl
              = Vision.no_gesture).
  { unfold Vision.detectGesture. cbv zeta.
    destruct H as [-> | [-> | [-> | (text & -> & Hp)]]]; try reflexivity.
    rewrite Hp. now destruct (String.eqb text EmptyString). }
  split; [exact E|]. unfold Camera.tick. rewrite E. reflexivity.
Qed.

(** ** Many OPEN responses in a loop started in the first render *)

Lemma stale_opens (n : nat) (w : World) :
  let captured := initial_state PHRASES in
  let ws := loop captured (Camera.reports (repeat "OPEN"%string (S n))) w in
  selections (last ws w) = selections w + S n /\
  length PHRASES - 1 <= length (availableIndices (app (last ws w))).
Proof.
  cbv zeta. revert w. induction n as [|n IH]; intros w.
  - cbn [repeat Camera.reports map Camera.analysis_loop last].
    destruct (stale_respond (initial_state PHRASES)
                (Vision.ParsedValue (Some "OPEN"%string) (Some 1%Q)) w eq_refl)
      as (_ & Hs & Ha). cbv zeta in Hs, Ha.
    change (Camera.on_response
              (Vision.ParsedValue (Some "OPEN"%string) (Some 1%Q)))
      with (Some OPEN) in Hs, Ha.
    split; [exact Hs|]. destruct (Ha eq_refl) as [Ea _]. rewrite Ea.
    assert (Hpool : length (pool (initial_state PHRASES)) = length PHRASES).
    { cbn [initial_state availableIndices]. unfold index_range.
      destruct (Nat.eqb _ 0); apply length_seq. }
    unfold splice1. rewrite length_app, length_firstn, length_skipn. lia.
  - change (Camera.reports (repeat "OPEN"%string (S (S n))))
      with (Vision.ParsedValue (Some "OPEN"%string) (Some 1%Q)
            :: Camera.reports (repeat "OPEN"%string (S n))).
    cbn [Camera.analysis_loop]. rewrite last_cons_default.
    destruct (IH (respond (initial_state PHRASES)
                    (Vision.ParsedValue (Some "OPEN"%string) (Some 1%Q)) w))
      as [Hs Ha].
    split; [|exact Ha]. rewrite Hs.
    destruct (stale_respond (initial_state PHRASES)
                (Vision.ParsedValue (Some "OPEN"%string) (Some 1%Q)) w eq_refl)
      as (_ & Hs1 & _). cbv zeta in Hs1.
    change (Camera.on_response
              (Vision.ParsedValue (Some "OPEN"%string) (Some 1%Q)))
      with (Some OPEN) in Hs1.
    rewrite Hs1. lia.
Qed.

End CameraProperties.

(* ===================================================================== *)
(** * The gesture path as it is wired *)
(* ===================================================================== *)

(** CameraHandler starts its interval in an effect that depends on
    [active] and [hasPermission] only, so the interval keeps the
    [onGestureDetected] of the render it was started in for as long as the
    camera runs. [handleGestureDetected] is memoised on [isExpanded]: it is
    written to be replaced when the mode changes, and the interval never
    takes the replacement. Below, the loop is started in the first render
    (the permission arrives before any click). *)
Section ClassifierDelivery.

Import App.

(** C4 (defect of the code): starting COLLAPSED, with the classifier
    reporting CLOSED, OPEN, OPEN, CLOSED, CLOSED to the analysis loop, the
    scene enters EXPANDED once and never returns to COLLAPSED, and the
    phrase selector is called twice: the second OPEN selects again and no
    CLOSED collapses. The same signals delivered each to the handler of the
    current render give one entry into EXPANDED, one into COLLAPSED and one
    selection, as the claim says. *)
Theorem gesture_sequence_through_camera
    (PHRASES : list string) (random : nat -> Q) :
  let w := initial PHRASES in
  let ws :=
    Camera.analysis_loop PHRASES random (initial_state PHRASES)
      (Camera.reports ["CLOSED"; "OPEN"; "OPEN"; "CLOSED"; "CLOSED"]%string) w in
  let ws' := feed PHRASES random [CLOSED; OPEN; OPEN; CLOSED; CLOSED] w in
  (map (fun x => isExpanded (app x)) ws = [false; true; true; true; true] /\
   entries true w ws = 1 /\
   entries false w ws = 0 /\
   map selections ws = [0; 1; 2; 2; 2]) /\
  (map (fun x => isExpanded (app x)) ws' = [false; true; true; false; false] /\
   entries true w ws' = 1 /\
   entries false w ws' = 1 /\
   map selections ws' = [0; 1; 1; 1; 1]).
Proof. cbv zeta. split; repeat split. Qed.

(** C5 (defect of the code): two selections in a row made through the
    analysis loop show the same phrase. With three phrases and
    [Math.random()] returning 0 and then 1/4, two OPEN responses show
    "Ad astra" twice and leave the indices 1 and 2, where two expansions by
    the manual toggle show "Ad astra" and "Per aspera". Whatever the
    phrases and the random numbers, after any number of OPEN responses all
    but at most one index remain: the cycle does not advance. *)
Theorem phrase_repeats_through_camera :
  (let w := initial sample_phrases in
   let ws :=
     Camera.analysis_loop sample_phrases sample_random
       (initial_state sample_phrases)
       (Camera.reports ["OPEN"; "OPEN"]%string) w in
   map (fun x => currentPhrase (app x)) ws
     = [Some "Ad astra"; Some "Ad astra"]%string /\
   history (last ws w) = [Some 0; Some 0] /\
   availableIndices (app (last ws w)) = [1; 2]) /\
  (let w := initial sample_phrases in
   let ws :=
     AppRuns.play sample_phrases sample_random
       (repeat AppRuns.ManualToggle 3) w in
   map (fun x => currentPhrase (app x)) ws
     = [Some "Ad astra"; Some "Ad astra"; Some "Per aspera"]%string /\
   history (last ws w) = [Some 0; Some 1] /\
   availableIndices (app (last ws w)) = [2]) /\
  (forall (PHRASES : list string) (random : nat -> Q) (n : nat),
     let w := initial PHRASES in
     let ws :=
       Camera.analysis_loop PHRASES random (initial_state PHRASES)
         (Camera.reports (repeat "OPEN"%string (S n))) w in
     selections (last ws w) = S n /\
     length PHRASES - 1 <= length (availableIndices (app (last ws w)))).
Proof.
  split; [|split].
  - cbv zeta. repeat split.
  - cbv zeta. repeat split.
  - intros PHRASES random n. apply (stale_opens PHRASES random n (initial PHRASES)).
Qed.

(** C7 (defect of the code): the classifier-driven path is not equivalent
    to the manual toggle. After one click has expanded the scene, another
    click collapses it, while the corresponding signal CLOSED coming from
    the classifier leaves it expanded (only the stored gesture state
    changes), and an OPEN coming from the classifier selects a phrase with
    no transition at all. The handler of the current render fed CLOSED
    does what the toggle does. *)
Theorem manual_toggle_differs_from_camera
    (PHRASES : list string) (random : nat -> Q) :
  let toggle := handleManualToggle PHRASES random in
  let classifier :=
    Camera.respond PHRASES random (initial_state PHRASES) in
  let CLOSED_report := Vision.ParsedValue (Some "CLOSED"%string) (Some 1%Q) in
  let OPEN_report := Vision.ParsedValue (Some "OPEN"%string) (Some 1%Q) in
  let w := dispatch toggle (initial PHRASES) in
  (isExpanded (app w) = true /\ corresponding_signal (app w) = CLOSED) /\
  (isExpanded (app (dispatch toggle w)) = false /\
   selections (dispatch toggle w) = selections w) /\
  (isExpanded (app (classifier CLOSED_report w)) = true /\
   gestureState (app (classifier CLOSED_report w)) = CLOSED /\
   selections (classifier CLOSED_report w) = selections w) /\
  (isExpanded (app (classifier OPEN_report w)) = true /\
   selections (classifier OPEN_report w) = S (selections w)) /\
  dispatch (handleGestureDetected PHRASES random CLOSED) w = dispatch toggle w.
Proof. cbv zeta. repeat split. Qed.

End ClassifierDelivery.

Section CameraLifecycle.

(** ** The interval of the analysis loop *)

Variable handle_of : nat -> nat.
Hypothesis handle_positive : forall k, 0 < handle_of k.

Lemma clearInterval_only (id : nat) : Camera.clearInterval id [id] = [].
Proof. unfold Camera.clearInterval. cbn. now rewrite Nat.eqb_refl. Qed.

Lemma truthy_positive (id : nat) : 0 < id -> Camera.truthy (Some id) = Some id.
Proof. intros H. cbn. destruct id; [lia | reflexivity]. Qed.

Lemma start_single (l : Camera.LoopState) :
  (Camera.live l = match Camera.intervalRef l with
                   | Some id => [id]
                   | None => []
                   end) ->
  (forall id, Camera.intervalRef l = Some id -> 0 < id) ->
  let l' := Camera.startAnalysisLoop handle_of l in
  Camera.intervalRef l' = Some (handle_of (Camera.calls l)) /\
  Camera.live l' = [handle_of (Camera.calls l)].
Proof.
  intros Hl Hp. unfold Camera.startAnalysisLoop. cbn. split; [reflexivity|].
  destruct (Camera.intervalRef l) as [id|] eqn:E.
  - rewrite truthy_positive by now apply Hp.
    now rewrite Hl, clearInterval_only.
  - cbn. now rewrite Hl.
Qed.

Lemma stop_single (l : Camera.LoopState) :
  (Camera.live l = match Camera.intervalRef l with
                   | Some id => [id]
                   | None => []
                   end) ->
  (forall id, Camera.intervalRef l = Some id -> 0 < id) ->
  let l' := Camera.stopAnalysisLoop l in
  Camera.intervalRef l' = None /\ Camera.live l' = [].
Proof.
  intros Hl Hp. unfold Camera.stopAnalysisLoop.
  destruct (Camera.intervalRef l) as [id|] eqn:E.
  - rewrite truthy_positive by now apply Hp.
    cbn. now rewrite Hl, clearInterval_only.
  - cbn. now rewrite E.
Qed.

Lemma loop_call_single (cs : list Camera.LoopCall) (l : Camera.LoopState) :
  (Camera.live l = match Camera.intervalRef l with
                   | Some id => [id]
                   | None => []
                   end) ->
  (forall id, Camera.intervalRef l = Some id -> 0 < id) ->
  let l' := fold_left (Camera.loop_call handle_of) cs l in
  (Camera.live l' = match Camera.intervalRef l' with
                    | Some id => [id]
                    | None => []
                    end) /\
  (forall id, Camera.intervalRef l' = Some id -> 0 < id).
Proof.
  revert l. induction cs as [|c cs IH]; intros l Hl Hp; [now split|].
  cbn [fold_left]. apply IH; destruct c; cbn [Camera.loop_call].
  - destruct (start_single l Hl Hp) as [E1 E2]. cbv zeta in E1, E2.
    now rewrite E1, E2.
  - destruct (stop_single l Hl Hp) as [E1 E2]. cbv zeta in E1, E2.
    now rewrite E1, E2.
  - destruct (start_single l Hl Hp) as [E1 _]. cbv zeta in E1.
    rewrite E1. intros id [= <-]. apply handle_positive.
  - destruct (stop_single l Hl Hp) as [E1 _]. cbv zeta in E1.
    rewrite E1. discriminate.
Qed.

(** X13: the component never runs two intervals and never loses one: given
    that the browser hands out non-zero interval handles, after any
    sequence of [startAnalysisLoop] and [stopAnalysisLoop] calls the
    running intervals are exactly the one [intervalRef] holds, or none;
    after the effect ran for dependencies [active, hasPermission] an
    interval runs exactly when both are true; and the cleanup leaves none
    running. *)
Theorem analysis_loop_single_interval
    (cs : list Camera.LoopCall) (active hasPermission : bool) :
  let l := fold_left (Camera.loop_call handle_of) cs Camera.unmounted in
  let l' := Camera.rerun_effect handle_of l (active, hasPermission) in
  (Camera.live l = match Camera.intervalRef l with
                   | Some id => [id]
                   | None => []
                   end) /\
  (Camera.live l' = if active && hasPermission
                    then [handle_of (Camera.calls l)] else []) /\
  (Camera.intervalRef l' = if active && hasPermission
                           then Some (handle_of (Camera.calls l)) else None) /\
  Camera.live (Camera.stopAnalysisLoop l') = [].
Proof.
  cbv zeta.
  destruct (@loop_call_single cs Camera.unmounted eq_refl) as [Hl Hp];
    [discriminate|]. cbv zeta in Hl, Hp.
  set (l := fold_left (Camera.loop_call handle_of) cs Camera.unmounted) in *.
  destruct (stop_single l Hl Hp) as [S1 S2]. cbv zeta in S1, S2.
  assert (Hl0 : Camera.live (Camera.stopAnalysisLoop l)
                = match Camera.intervalRef (Camera.stopAnalysisLoop l) with
                  | Some id => [id]
                  | None => []
                  end) by now rewrite S1, S2.
  assert (Hp0 : forall id,
             Camera.intervalRef (Camera.stopAnalysisLoop l) = Some id -> 0 < id)
    by (rewrite S1; discriminate).
  assert (Hcalls : Camera.calls (Camera.stopAnalysisLoop l) = Camera.calls l).
  { unfold Camera.stopAnalysisLoop. now destruct (Camera.truthy _). }
  split; [exact Hl|].
  unfold Camera.rerun_effect, Camera.analysis_effect. cbn [fst snd].
  destruct (active && hasPermission).
  - destruct (start_single _ Hl0 Hp0) as [E1 E2]. cbv zeta in E1, E2.
    rewrite Hcalls in E1, E2. split; [exact E2|]. split; [exact E1|].
    apply stop_single; [now rewrite E1, E2|].
    rewrite E1. intros id [= <-]. apply handle_positive.
  - destruct (stop_single _ Hl0 Hp0) as [E1 E2]. cbv zeta in E1, E2.
    split; [exact E2|]. split; [exact E1|].
    apply stop_single; [now rewrite E1, E2 | rewrite E1; discriminate].
Qed.

End CameraLifecycle.

Section CameraStartup.

(** ** Camera start-up *)

Lemma error_stays (later : list Camera.CameraEvent) (s : Camera.CameraState) :
  Camera.error s = Some Camera.camera_error ->
  Camera.error (fold_left Camera.camera_step later s) = Some Camera.camera_error.
Proof.
  revert s. induction later as [|e es IH]; intros s Hs; [exact Hs|].
  cbn [fold_left]. apply IH. destruct e as [|[|]|]; cbn; auto.
Qed.

Lemma error_hides_retry (s : Camera.CameraState) :
  Camera.error s = Some Camera.camera_error -> Camera.retry_button s = false.
Proof.
  intros E. unfold Camera.retry_button, Camera.error_shown. rewrite E.
  cbn. now rewrite !andb_false_r.
Qed.

(** X14: a failed camera start cannot be retried. Once [startCamera] has
    caught an error, the error message is never cleared again, whatever
    calls complete later, so the retry button (shown only without an error)
    is never rendered again; right after the failure the restart button is
    hidden too, and if no other call is still waiting nothing can happen
    any more: no button that calls [startCamera] is left. *)
Theorem camera_failure_is_final
    (c : Camera.Cam) (later : list Camera.CameraEvent) :
  let c' := Camera.fire c Camera.Rejected in
  let s := fold_left Camera.camera_step later (Camera.cam c') in
  Camera.error (Camera.cam c') = Some Camera.camera_error /\
  Camera.retry_button (Camera.cam c') = false /\
  Camera.restart_button (Camera.cam c') = false /\
  (Camera.pending c' = 0 -> forall e, Camera.enabled c' e = false) /\
  Camera.error s = Some Camera.camera_error /\
  Camera.retry_button s = false.
Proof.
  cbv zeta. split; [reflexivity|]. split; [reflexivity|].
  split; [reflexivity|]. split.
  { intros Hp [|b|]; unfold Camera.enabled; rewrite ?Hp; reflexivity. }
  assert (E : Camera.error
                (fold_left Camera.camera_step later
                   (Camera.cam (Camera.fire c Camera.Rejected)))
              = Some Camera.camera_error) by now apply error_stays.
  split; [exact E | now apply error_hides_retry].
Qed.

End CameraStartup.

Section VisionProperties.

(** ** The data-URL prefix *)

Local Open Scope string_scope.

Lemma strip_prefix_Some (p s rest : string) :
  Vision.strip_prefix p s = Some rest <-> s = p ++ rest.
Proof.
  revert s. induction p as [|a p IH]; intros s; cbn.
  - split; [now intros [= ->] | now intros ->].
  - destruct s as [|b s].
    + split; discriminate.
    + destruct (Ascii.eqb_spec a b) as [->|Hne].
      * rewrite IH. split; [now intros -> | now intros [= ->]].
      * split; [discriminate | intros [= E _]; congruence].
Qed.

Lemma strip_prefix_None (p s : string) :
  Vision.strip_prefix p s = None -> forall rest, s <> p ++ rest.
Proof.
  intros E rest Hs. apply strip_prefix_Some in Hs. congruence.
Qed.

(** X15: [detectGesture] removes exactly one leading data-URL header of a
    png, jpeg or webp image: sent the header followed by a payload it
    forwards the payload, whatever the payload; any other input - no
    header, another media type, different letter case, a header that is
    not at the start - is forwarded unchanged. *)
Theorem clean_base64_strips_data_url (s : string) :
  (forall p payload,
     In p Vision.data_url_prefixes -> Vision.clean_base64 (p ++ payload) = payload) /\
  ((exists p, In p Vision.data_url_prefixes /\ s = p ++ Vision.clean_base64 s) \/
   (Vision.clean_base64 s = s /\
    forall p payload, In p Vision.data_url_prefixes -> s <> p ++ payload)).
Proof.
  split.
  - intros p payload [<-|[<-|[<-|[]]]]; reflexivity.
  - unfold Vision.clean_base64, Vision.data_url_prefixes.
    cbn [Vision.strip_first].
    destruct (Vision.strip_prefix "data:image/png;base64," s) as [r|] eqn:E1.
    { left. exists "data:image/png;base64,". split; [now left|].
      now apply strip_prefix_Some. }
    destruct (Vision.strip_prefix "data:image/jpeg;base64," s) as [r|] eqn:E2.
    { left. exists "data:image/jpeg;base64,". split; [right; now left|].
      now apply strip_prefix_Some. }
    destruct (Vision.strip_prefix "data:image/webp;base64," s) as [r|] eqn:E3.
    { left. exists "data:image/webp;base64,". split; [right; right; now left|].
      now apply strip_prefix_Some. }
    right. split; [reflexivity|].
    intros p payload [<-|[<-|[<-|[]]]]; now apply strip_prefix_None.
Qed.

End VisionProperties.

(* ===================================================================== *)
(** * Properties of the generated particles (SaturnScene.tsx) *)
(* ===================================================================== *)

Section BufferItems.

Import Scene Shading.
Local Open Scope R_scope.

Lemma flatten3_cons (v : vec3) (vs : list vec3) :
  flatten3 (v :: vs) = vx v :: vy v :: vz v :: flatten3 vs.
Proof. reflexivity. Qed.

(** Item [k] of a buffer laid out from a list of vectors is the [k]-th
    vector. *)
Lemma attribute3_flatten3 (vs : list vec3) (k : nat) :
  attribute3 (flatten3 vs) k = nth_error vs k.
Proof.
  revert k. induction vs as [|v vs IH]; intros k.
  - unfold attribute3. cbn [flatten3 flat_map].
    destruct k; [reflexivity|]. now destruct (3 * S k)%nat.
  - rewrite flatten3_cons. destruct k as [|k].
    + destruct v. reflexivity.
    + specialize (IH k). unfold attribute3 in *.
      replace (3 * S k)%nat with (S (S (S (3 * k)))) by lia.
      cbn [nth_error Nat.add]. exact IH.
Qed.

(** ** Elementary geometry used below *)

(** A point given in spherical angles and flattened along y lies on the
    spheroid. *)
Lemma spheroid_identity (r s1 c1 s2 c2 : R) :
  s1 * s1 + c1 * c1 = 1 -> s2 * s2 + c2 * c2 = 1 ->
  r * c1 * s2 * (r * c1 * s2)
  + r * s1 * s2 * 0.9 / 0.9 * (r * s1 * s2 * 0.9 / 0.9)
  + r * c2 * (r * c2) = r * r.
Proof.
  intros H1 H2.
  replace (r * s1 * s2 * 0.9 / 0.9) with (r * s1 * s2) by lra.
  transitivity (r * r * (s2 * s2 * (s1 * s1 + c1 * c1) + c2 * c2)); [ring|].
  rewrite H1. rewrite Rmult_1_r, H2. ring.
Qed.

Lemma square_le_bound (v b : R) : 0 <= b -> v * v <= b * b -> - b <= v <= b.
Proof. intros Hb Hv. split; nra. Qed.


(** ** Values within a distance of the computed ones *)

Lemma Rabs_le_inv (a b : R) : Rabs a <= b -> - b <= a <= b.
Proof.
  intros H. pose proof (Rle_abs a) as H1. pose proof (Rle_abs (- a)) as H2.
  rewrite Rabs_Ropp in H2. lra.
Qed.

Lemma near_bounds (eps lo hi v v' : R) :
  near eps v v' -> lo <= v <= hi -> lo - eps <= v' <= hi + eps.
Proof.
  unfold near. intros Hn Hv. apply Rabs_le_inv in Hn. lra.
Qed.

Lemma near_square (eps r v v' : R) :
  0 <= eps -> 0 <= r -> v * v <= r * r -> near eps v v' ->
  Rabs (v' * v' - v * v) <= eps * (2 * r + eps).
Proof.
  unfold near. intros He Hr Hv Hn. apply Rabs_le_inv in Hn.
  assert (Hb : - r <= v <= r) by (split; nra).
  apply Rabs_le. split; nra.
Qed.

Lemma near_in_box (eps b : R) (v v' : vec3) :
  near3 eps v v' -> in_box b v -> in_box (b + eps) v'.
Proof.
  unfold near3, in_box. intros (Hx & Hy & Hz) (Bx & By & Bz).
  pose proof (near_bounds _ _ _ _ _ Hx Bx).
  pose proof (near_bounds _ _ _ _ _ Hy By).
  pose proof (near_bounds _ _ _ _ _ Hz Bz).
  repeat split; lra.
Qed.



End BufferItems.

Section GeneratedParticles.

Import Scene Shading.
Local Open Scope R_scope.

Variable allocates : nat -> Z -> bool.
Variable PARTICLE_COUNT : Z.
Variables SATURN_RADIUS RING_INNER_RADIUS RING_OUTER_RADIUS EXPANSION_SCALE : R.
Variables colorSaturn1 colorSaturn2 colorRing1 colorRing2 : Color.
Variable random : nat -> Q.

Local Abbreviation sc := (sphereCount PARTICLE_COUNT).
Local Abbreviation rc := (ringCount PARTICLE_COUNT).
Local Abbreviation body_p :=
  (body_particle PARTICLE_COUNT SATURN_RADIUS EXPANSION_SCALE
                 colorSaturn1 colorSaturn2 random).
Local Abbreviation ring_p :=
  (ring_particle PARTICLE_COUNT RING_INNER_RADIUS RING_OUTER_RADIUS
                 EXPANSION_SCALE colorRing1 colorRing2 random).
Local Abbreviation groups :=
  (particles_of_groups PARTICLE_COUNT SATURN_RADIUS RING_INNER_RADIUS
     RING_OUTER_RADIUS EXPANSION_SCALE colorSaturn1 colorSaturn2
     colorRing1 colorRing2 random).
Local Abbreviation gen :=
  (generate allocates PARTICLE_COUNT SATURN_RADIUS RING_INNER_RADIUS
     RING_OUTER_RADIUS EXPANSION_SCALE colorSaturn1 colorSaturn2
     colorRing1 colorRing2 random).

(** [Math.random()] as a real number lies in [0, 1). *)
Lemma rnd_range (k : nat) : random_ok random -> 0 <= rnd random k < 1.
Proof.
  intros Hr. destruct (Hr k) as [H0 H1]. unfold rnd.
  apply Qle_Rle in H0. apply Qlt_Rlt in H1.
  rewrite RMicromega.Q2R_0 in H0. rewrite RMicromega.Q2R_1 in H1. lra.
Qed.

(** The buffers a successful generation returns. *)
Lemma generate_Some (a : Attributes) :
  gen = Some a ->
  a = layout (map snd groups) /\ (0 <= sc <= PARTICLE_COUNT)%Z.
Proof.
  intros Ea.
  destruct (@generate_Some_allocated allocates PARTICLE_COUNT SATURN_RADIUS
              RING_INNER_RADIUS RING_OUTER_RADIUS EXPANSION_SCALE colorSaturn1
              colorSaturn2 colorRing1 colorRing2 random a Ea)
    as (H0 & Hmax & Hall).
  assert (HN53 : (0 <= PARTICLE_COUNT < 2 ^ 53)%Z) by lia.
  destruct (@sphereCount_range PARTICLE_COUNT HN53) as [Hcount _].
  rewrite (@generate_layout allocates PARTICLE_COUNT SATURN_RADIUS
             RING_INNER_RADIUS RING_OUTER_RADIUS EXPANSION_SCALE colorSaturn1
             colorSaturn2 colorRing1 colorRing2 random Hcount Hmax Hall) in Ea.
  injection Ea as <-. now split.
Qed.

(** The particle found at position [k] of the buffers. *)
Lemma nth_body (k : nat) :
  (Z.of_nat k < sc)%Z -> nth_error (map snd groups) k = Some (body_p k).
Proof.
  intros Hk. rewrite groups_snd.
  rewrite nth_error_app1 by (rewrite length_map, length_seq; lia).
  rewrite nth_error_map, nth_error_seq.
  replace (k <? Z.to_nat sc)%nat with true
    by (symmetry; apply Nat.ltb_lt; lia).
  reflexivity.
Qed.

Lemma nth_ring (k : nat) :
  (0 <= sc <= Z.of_nat k)%Z -> (Z.of_nat k < PARTICLE_COUNT)%Z ->
  nth_error (map snd groups) k = Some (ring_p (k - Z.to_nat sc)).
Proof.
  intros Hk Hn. rewrite groups_snd.
  rewrite nth_error_app2 by (rewrite length_map, length_seq; lia).
  rewrite length_map, length_seq, nth_error_map, nth_error_seq.
  replace (k - Z.to_nat sc <? Z.to_nat rc)%nat with true
    by (symmetry; apply Nat.ltb_lt; unfold ringCount; lia).
  reflexivity.
Qed.

Lemma items_of_layout (ps : list Particle) (k : nat) (p : Particle) :
  nth_error ps k = Some p ->
  attribute3 (positions (layout ps)) k = Some (home p) /\
  attribute3 (randomPositions (layout ps)) k = Some (scatter p) /\
  attribute3 (colors (layout ps)) k = Some (color_vec (color p)) /\
  attribute1 (sizes (layout ps)) k = Some (size p).
Proof.
  intros E. unfold layout, attribute1.
  cbn [positions randomPositions colors sizes].
  rewrite !attribute3_flatten3, !nth_error_map, E. auto.
Qed.

(** *** What the loops put into one particle *)

Lemma body_home_on_spheroid (k : nat) :
  let v := home (body_p k) in
  vx v * vx v + (vy v / 0.9) * (vy v / 0.9) + vz v * vz v
    = SATURN_RADIUS * SATURN_RADIUS.
Proof.
  cbv zeta. unfold body_particle. cbn [home vx vy vz].
  set (phi := acos _). set (theta := sqrt _ * phi).
  pose proof (sin2_cos2 theta) as Ht. pose proof (sin2_cos2 phi) as Hp.
  unfold Rsqr in Ht, Hp. now apply spheroid_identity.
Qed.

Lemma ring_home_in_annulus (j : nat) :
  random_ok random ->
  0 <= RING_INNER_RADIUS < RING_OUTER_RADIUS ->
  let v := home (ring_p j) in
  RING_INNER_RADIUS * RING_INNER_RADIUS
    <= vx v * vx v + vz v * vz v
    < RING_OUTER_RADIUS * RING_OUTER_RADIUS /\
  -0.2 <= vy v < 0.2.
Proof.
  intros Hr [Hi Hio]. cbv zeta. unfold ring_particle. cbn [home vx vy vz].
  set (n := (4 * Z.to_nat sc + 8 * j)%nat).
  pose proof (rnd_range (n + 1) Hr) as Ht.
  pose proof (rnd_range (n + 2) Hr) as Hy.
  pose proof (@ring_radius_range RING_INNER_RADIUS RING_OUTER_RADIUS
                (rnd random (n + 1)) Hio Ht) as Hrad.
  set (r := ring_radius _ _ _) in *.
  pose proof (sin2_cos2 (rnd random n * PI * 2)) as Hsc2. unfold Rsqr in Hsc2.
  generalize dependent (sin (rnd random n * PI * 2)).
  generalize dependent (cos (rnd random n * PI * 2)).
  intros c s Hsc2.
  assert (E : c * r * (c * r) + s * r * (s * r) = r * r).
  { transitivity (r * r * (s * s + c * c)); [ring|]. rewrite Hsc2. ring. }
  rewrite E. split; [nra | lra].
Qed.

Lemma body_scatter_size (k : nat) :
  random_ok random -> 0 <= EXPANSION_SCALE ->
  in_box (1.25 * EXPANSION_SCALE) (scatter (body_p k)) /\
  0.2 <= size (body_p k) < 0.6.
Proof.
  intros Hr Hs. unfold body_particle, in_box. cbn [scatter size vx vy vz].
  pose proof (rnd_range (4 * k) Hr). pose proof (rnd_range (4 * k + 1) Hr).
  pose proof (rnd_range (4 * k + 2) Hr). pose proof (rnd_range (4 * k + 3) Hr).
  repeat split; nra.
Qed.

Lemma ring_scatter_size (j : nat) :
  random_ok random -> 0 <= EXPANSION_SCALE ->
  in_box (2 * EXPANSION_SCALE) (scatter (ring_p j)) /\
  0.1 <= size (ring_p j) < 0.35.
Proof.
  intros Hr Hs. unfold ring_particle, in_box. cbn [scatter size vx vy vz].
  set (n := (4 * Z.to_nat sc + 8 * j)%nat).
  pose proof (rnd_range (n + 3) Hr). pose proof (rnd_range (n + 4) Hr).
  pose proof (rnd_range (n + 5) Hr). pose proof (rnd_range (n + 7) Hr).
  repeat split; nra.
Qed.

(** The particle behind item [k] of the returned buffers. *)
Lemma particle_at (a : Attributes) (k : nat) :
  gen = Some a -> (Z.of_nat k < PARTICLE_COUNT)%Z ->
  exists p,
    attribute3 (positions a) k = Some (home p) /\
    attribute3 (randomPositions a) k = Some (scatter p) /\
    attribute1 (sizes a) k = Some (size p) /\
    ((Z.of_nat k < sc)%Z -> p = body_p k) /\
    ((sc <= Z.of_nat k)%Z -> p = ring_p (k - Z.to_nat sc)).
Proof.
  intros Ea Hk. destruct (generate_Some a Ea) as [-> Hsc].
  destruct (Z_lt_le_dec (Z.of_nat k) sc) as [Hb|Hb].
  - destruct (items_of_layout _ k _ (nth_body k Hb)) as (H1 & H2 & _ & H4).
    exists (body_p k). split; [exact H1|]. split; [exact H2|].
    split; [exact H4|]. split; [reflexivity | lia].
  - assert (Hnth : nth_error (map snd groups) k
                   = Some (ring_p (k - Z.to_nat sc))) by (apply nth_ring; lia).
    destruct (items_of_layout _ k _ Hnth) as (H1 & H2 & _ & H4).
    exists (ring_p (k - Z.to_nat sc)). split; [exact H1|]. split; [exact H2|].
    split; [exact H4|]. split; [lia | reflexivity].
Qed.

(** X16: every particle of the body group is placed on the oblate
    spheroid of equatorial radius SATURN_RADIUS flattened to 0.9 along y,
    up to the rounding of what is stored: a position (x, y, z) whose
    coordinates are within eps of the ones the first loop computes for the
    particle satisfies
    |x^2 + (y / 0.9)^2 + z^2 - SATURN_RADIUS^2|
      <= 7 eps |SATURN_RADIUS| + 4 eps^2,
    for every particle count and radius; with eps = 0 the identity is
    exact. *)
Theorem body_on_spheroid (a : Attributes) (k : nat) (eps : R) :
  gen = Some a ->
  (Z.of_nat k < sc)%Z ->
  0 <= eps ->
  exists v,
    attribute3 (positions a) k = Some v /\
    forall stored,
      near3 eps v stored ->
      Rabs (vx stored * vx stored + (vy stored / 0.9) * (vy stored / 0.9)
            + vz stored * vz stored - SATURN_RADIUS * SATURN_RADIUS)
      <= 7 * eps * Rabs SATURN_RADIUS + 4 * (eps * eps).
Proof.
  intros Ea Hk He. destruct (generate_Some a Ea) as [_ Hsc].
  destruct (particle_at a k Ea) as (p & Hpos & _ & _ & Hb & _); [lia|].
  rewrite (Hb Hk) in Hpos. eexists. split; [exact Hpos|].
  intros stored (Hx & Hy & Hz).
  pose proof (body_home_on_spheroid k) as E. cbv zeta in E.
  set (v := home (body_p k)) in *.
  set (r := Rabs SATURN_RADIUS).
  assert (Hr : 0 <= r) by apply Rabs_pos.
  assert (Err : r * r = SATURN_RADIUS * SATURN_RADIUS).
  { unfold r. rewrite <- Rabs_mult. apply Rabs_pos_eq. nra. }
  assert (H0 : forall u : R, 0 <= u * u) by (intros u; nra).
  pose proof (H0 (vx v)). pose proof (H0 (vy v / 0.9)). pose proof (H0 (vz v)).
  assert (Hy' : near (eps / 0.9) (vy v / 0.9) (vy stored / 0.9)).
  { unfold near in *. apply Rabs_le_inv in Hy. apply Rabs_le. lra. }
  assert (He' : 0 <= eps / 0.9) by lra.
  pose proof (near_square eps r (vx v) (vx stored) He Hr ltac:(lra) Hx) as Bx.
  pose proof (near_square (eps / 0.9) r (vy v / 0.9) (vy stored / 0.9)
                He' Hr ltac:(lra) Hy') as By.
  pose proof (near_square eps r (vz v) (vz stored) He Hr ltac:(lra) Hz) as Bz.
  apply Rabs_le_inv in Bx, By, Bz.
  assert (Hprod : 0 <= eps * r) by nra.
  assert (Hsq : 0 <= eps * eps) by nra.
  apply Rabs_le. rewrite <- E. split; nra.
Qed.

(** X17: for radii 0 <= inner < outer and a random source within [0, 1),
    every particle of the ring group lies in the flat annulus between the
    two radii, up to the rounding of what is stored: a position (x, y, z)
    whose coordinates are within eps of the ones the second loop computes
    satisfies
    inner^2 - 2 eps (2 outer + eps) <= x^2 + z^2
      <= outer^2 + 2 eps (2 outer + eps)
    and -0.2 - eps <= y <= 0.2 + eps. *)
Theorem ring_in_annulus (a : Attributes) (k : nat) (eps : R) :
  random_ok random ->
  0 <= RING_INNER_RADIUS < RING_OUTER_RADIUS ->
  gen = Some a ->
  (sc <= Z.of_nat k < PARTICLE_COUNT)%Z ->
  0 <= eps ->
  exists v,
    attribute3 (positions a) k = Some v /\
    forall stored,
      near3 eps v stored ->
      RING_INNER_RADIUS * RING_INNER_RADIUS
        - 2 * eps * (2 * RING_OUTER_RADIUS + eps)
        <= vx stored * vx stored + vz stored * vz stored
        <= RING_OUTER_RADIUS * RING_OUTER_RADIUS
           + 2 * eps * (2 * RING_OUTER_RADIUS + eps) /\
      -0.2 - eps <= vy stored <= 0.2 + eps.
Proof.
  intros Hr Hio Ea [Hk1 Hk2] He.
  destruct (particle_at a k Ea Hk2) as (p & Hpos & _ & _ & _ & Hring).
  rewrite (Hring Hk1) in Hpos. eexists. split; [exact Hpos|].
  intros stored (Hx & Hy & Hz).
  destruct (ring_home_in_annulus (k - Z.to_nat sc) Hr Hio) as [Hxz Hyv].
  cbv zeta in Hxz, Hyv. set (v := home (ring_p (k - Z.to_nat sc))) in *.
  assert (H0 : forall u : R, 0 <= u * u) by (intros u; nra).
  pose proof (H0 (vx v)). pose proof (H0 (vz v)).
  assert (Ho : 0 <= RING_OUTER_RADIUS) by lra.
  pose proof (near_square eps RING_OUTER_RADIUS (vx v) (vx stored)
                He Ho ltac:(lra) Hx) as Bx.
  pose proof (near_square eps RING_OUTER_RADIUS (vz v) (vz stored)
                He Ho ltac:(lra) Hz) as Bz.
  apply Rabs_le_inv in Bx, Bz.
  pose proof (near_bounds _ _ _ _ _ Hy (conj (proj1 Hyv) (Rlt_le _ _ (proj2 Hyv)))).
  split; [split; lra | lra].
Qed.

(** X18: for a non-negative EXPANSION_SCALE and a random source within
    [0, 1), the scatter target of every body particle lies in the cube of
    half-width 1.25 EXPANSION_SCALE around the origin and its size in
    [0.2, 0.6], the scatter target of every ring particle in the cube of
    half-width 2 EXPANSION_SCALE and its size in [0.1, 0.35], up to the
    rounding of what is stored: for values within eps of the ones the
    loops compute, each bound is widened by eps. *)
Theorem scatter_and_size_ranges (a : Attributes) (k : nat) (eps : R) :
  random_ok random ->
  0 <= EXPANSION_SCALE ->
  gen = Some a ->
  (Z.of_nat k < PARTICLE_COUNT)%Z ->
  exists v s,
    attribute3 (randomPositions a) k = Some v /\
    attribute1 (sizes a) k = Some s /\
    forall v' s',
      near3 eps v v' -> near eps s s' ->
      if (Z.of_nat k <? sc)%Z
      then in_box (1.25 * EXPANSION_SCALE + eps) v' /\
           0.2 - eps <= s' <= 0.6 + eps
      else in_box (2 * EXPANSION_SCALE + eps) v' /\
           0.1 - eps <= s' <= 0.35 + eps.
Proof.
  intros Hr Hs Ea Hk.
  destruct (particle_at a k Ea Hk) as (p & _ & Hsca & Hsiz & Hbody & Hring).
  exists (scatter p), (size p). split; [exact Hsca|]. split; [exact Hsiz|].
  intros v' s' Hv' Hs'.
  destruct (Z.ltb_spec (Z.of_nat k) sc) as [Hb|Hb].
  - rewrite (Hbody Hb) in Hv', Hs'.
    destruct (body_scatter_size k Hr Hs) as [Hbox Hsize].
    split; [now apply (near_in_box eps _ _ _ Hv')|].
    apply (near_bounds _ _ _ _ _ Hs'). lra.
  - rewrite (Hring Hb) in Hv', Hs'.
    destruct (ring_scatter_size (k - Z.to_nat sc) Hr Hs) as [Hbox Hsize].
    split; [now apply (near_in_box eps _ _ _ Hv')|].
    apply (near_bounds _ _ _ _ _ Hs'). lra.
Qed.

(** *** Where a generated particle can be drawn *)






End GeneratedParticles.

(* ===================================================================== *)
(** * Properties of the fragment shader and of the return to COMPACT *)
(* ===================================================================== *)

Section FragmentShader.

Import Scene Shading.
Local Open Scope R_scope.

Lemma centre_distance_nonneg (pc : R * R) : 0 <= centre_distance pc.
Proof. apply sqrt_pos. Qed.

Lemma fragment_kept (vColor : vec3) (alpha0 : R) (pc : R * R) :
  centre_distance pc <= 0.5 ->
  fragment vColor alpha0 pc
  = Some (mkVec4 (vx vColor) (vy vColor) (vz vColor)
            ((1 - 2 * centre_distance pc) * (1 - 2 * centre_distance pc) * alpha0)).
Proof.
  intros Hd. unfold fragment. fold (centre_distance pc). cbv zeta.
  destruct (Rlt_dec 0.5 (centre_distance pc)); [lra|].
  f_equal. f_equal. cbn [pow]. lra.
Qed.

(** X20: the fragment shader draws every particle as a disc with a soft
    edge: a fragment farther than 0.5 from the centre of its point is
    discarded (the corners of the point always are); any other fragment
    gets the particle's colour and the opacity (1 - 2 d)^2 vAlpha, which is
    the full [vAlpha] at the centre, 0 on the rim, and - [vAlpha] coming
    from the vertex shader - always between 0 and 1. *)
Theorem fragment_alpha_range (vColor : vec3) (blend : R) (pc : R * R) :
  (0.5 < centre_distance pc -> fragment vColor (vAlpha blend) pc = None) /\
  (centre_distance pc <= 0.5 ->
   exists alpha,
     fragment vColor (vAlpha blend) pc
       = Some (mkVec4 (vx vColor) (vy vColor) (vz vColor) alpha) /\
     alpha = (1 - 2 * centre_distance pc) * (1 - 2 * centre_distance pc)
             * vAlpha blend /\
     0 <= alpha <= vAlpha blend /\ vAlpha blend <= 1) /\
  fragment vColor (vAlpha blend) (0.5, 0.5)
    = Some (mkVec4 (vx vColor) (vy vColor) (vz vColor) (vAlpha blend)) /\
  fragment vColor (vAlpha blend) (0, 0) = None.
Proof.
  pose proof (vAlpha_range blend) as Ha.
  split; [|split; [|split]].
  - intros Hd. unfold fragment. fold (centre_distance pc). cbv zeta.
    destruct (Rlt_dec 0.5 (centre_distance pc)); [reflexivity | lra].
  - intros Hd. eexists. split; [now apply fragment_kept|].
    split; [reflexivity|].
    pose proof (centre_distance_nonneg pc) as H0.
    set (d := centre_distance pc) in *.
    assert (H1 : 0 <= (1 - 2 * d) * (1 - 2 * d) <= 1) by nra.
    split; [nra | lra].
  - assert (E : centre_distance (0.5, 0.5) = 0).
    { unfold centre_distance. cbn [fst snd].
      replace ((0.5 - 0.5) * (0.5 - 0.5) + (0.5 - 0.5) * (0.5 - 0.5)) with 0
        by lra.
      apply sqrt_0. }
    rewrite fragment_kept by (rewrite E; lra). rewrite E.
    f_equal. f_equal. lra.
  - unfold fragment. cbn [fst snd]. cbv zeta.
    destruct (Rlt_dec 0.5 _) as [|Hn]; [reflexivity|]. exfalso. apply Hn.
    replace 0.5 with (sqrt (0.5 * 0.5)) at 1 by (apply sqrt_square; lra).
    apply sqrt_lt_1; lra.
Qed.

End FragmentShader.

Section ShaderGates.

Import Scene.
Local Open Scope R_scope.

Lemma smoothstep_low (blend : R) :
  blend <= 0.01 -> 0 <= smoothstep 0.0 1.0 blend <= 0.0003.
Proof.
  intros H. rewrite smoothstep_unit. cbv zeta.
  assert (Hc : 0 <= clamp blend 0 1 <= 0.01).
  { unfold clamp, Rmin, Rmax.
    destruct (Rle_dec blend 0); destruct (Rle_dec _ 1); lra. }
  set (c := clamp blend 0 1) in *.
  assert (H1 : 0 <= c * c <= 0.0001) by nra.
  split; nra.
Qed.

Lemma smoothstep_high (blend : R) :
  0.99 <= blend -> 0.9997 <= smoothstep 0.0 1.0 blend <= 1.
Proof.
  intros H. rewrite smoothstep_unit. cbv zeta.
  assert (Hc : 0.99 <= clamp blend 0 1 <= 1).
  { unfold clamp, Rmin, Rmax.
    destruct (Rle_dec blend 0); destruct (Rle_dec _ 1); lra. }
  set (c := clamp blend 0 1) in *.
  assert (E : c * c * (3 - 2 * c) = 1 - (1 - c) * (1 - c) * (1 + 2 * c)) by ring.
  assert (H1 : 0 <= (1 - c) * (1 - c) <= 0.0001) by nra.
  rewrite E. split; nra.
Qed.

(** X21: what the two gates of the vertex shader cost. Whatever the blend,
    the position the shader computes differs on each coordinate by at most
    0.0006 from the plain smoothstep mix of the compact formula (home plus
    bob) and the dispersed formula (scatter plus wander), and equals it for
    0.01 < blend < 0.99: switching the wander on at 0.01 and the bob off at
    0.99 moves no particle by more than that. *)
Theorem shader_gates_change_little
    (uTime blend : R) (position aRandomPosition : vec3) :
  let out := finalPos uTime blend position aRandomPosition in
  let ungated :=
    mix3 (bob uTime position) (wander uTime aRandomPosition)
         (smoothstep 0.0 1.0 blend) in
  -0.0006 <= vx out - vx ungated <= 0.0006 /\
  -0.0006 <= vy out - vy ungated <= 0.0006 /\
  -0.0006 <= vz out - vz ungated <= 0.0006 /\
  (0.01 < blend < 0.99 -> out = ungated).
Proof.
  cbv zeta. unfold finalPos, saturnPos, nebulaPos.
  pose proof (smoothstep_range blend) as Ht.
  destruct (Rlt_dec 0.01 blend) as [Hlo|Hlo];
    destruct (Rlt_dec blend 0.99) as [Hhi|Hhi].
  - split; [lra|]. split; [lra|]. split; [lra|]. reflexivity.
  - pose proof (smoothstep_high blend ltac:(lra)) as Hs.
    set (t := smoothstep 0.0 1.0 blend) in *.
    unfold mix3, mix, bob, wander. cbv zeta. cbn [vx vy vz].
    pose proof (SIN_bound (uTime * 2.0 + vx position)) as Hb.
    generalize dependent (sin (uTime * 2.0 + vx position)). intros s Hb.
    split; [nra|]. split; [nra|]. split; [nra|]. intros [_ H']. lra.
  - pose proof (smoothstep_low blend ltac:(lra)) as Hs.
    set (t := smoothstep 0.0 1.0 blend) in *.
    unfold mix3, mix, bob, wander. cbv zeta. cbn [vx vy vz].
    pose proof (SIN_bound (uTime * 0.5 + vy aRandomPosition * 0.5)) as H1.
    pose proof (COS_bound (uTime * 0.3 + vx aRandomPosition * 0.5)) as H2.
    pose proof (SIN_bound (uTime * 0.4 + vz aRandomPosition * 0.5)) as H3.
    generalize dependent (sin (uTime * 0.5 + vy aRandomPosition * 0.5)).
    generalize dependent (cos (uTime * 0.3 + vx aRandomPosition * 0.5)).
    generalize dependent (sin (uTime * 0.4 + vz aRandomPosition * 0.5)).
    intros s3 H3 c2 H2 s1 H1.
    split; [nra|]. split; [nra|]. split; [nra|]. intros [H' _]. lra.
  - lra.
Qed.

Lemma clamp_unit_monotone (u v : R) : u <= v -> clamp u 0 1 <= clamp v 0 1.
Proof.
  intros H. unfold clamp, Rmin, Rmax.
  destruct (Rle_dec u 0); destruct (Rle_dec v 0);
    repeat match goal with |- context [Rle_dec ?p ?q] => destruct (Rle_dec p q) end;
    lra.
Qed.

Lemma smoothstep_monotone (u v : R) :
  u <= v -> smoothstep 0.0 1.0 u <= smoothstep 0.0 1.0 v.
Proof.
  intros H. rewrite !smoothstep_unit. cbv zeta.
  pose proof (clamp_unit_range u) as Hu. pose proof (clamp_unit_range v) as Hv.
  pose proof (clamp_unit_monotone u v H) as Hm.
  set (c := clamp u 0 1) in *. set (d := clamp v 0 1) in *.
  assert (E : d * d * (3 - 2 * d) - c * c * (3 - 2 * c)
              = (d - c) * (3 * (c + d) - 2 * (c * c + c * d + d * d))) by ring.
  assert (H1 : c * c <= c) by nra. assert (H2 : d * d <= d) by nra.
  assert (H3 : c * d <= c) by nra. assert (H4 : c * d <= d) by nra.
  assert (H5 : 0 <= 3 * (c + d) - 2 * (c * c + c * d + d * d)) by lra.
  assert (H6 : 0 <= (d - c) * (3 * (c + d) - 2 * (c * c + c * d + d * d)))
    by (apply Rmult_le_pos; lra).
  lra.
Qed.

(** X22: particles fade as the scene disperses and never the other way:
    the opacity factor [vAlpha] the vertex shader hands on is a
    non-increasing function of the blend, equal to 1 for every blend up to
    0, to 0.7 for every blend from 1 on, and within [0.7, 1] in between. *)
Theorem vAlpha_fades_monotonically (blend blend' : R) :
  (blend <= blend' -> vAlpha blend' <= vAlpha blend) /\
  (blend <= 0 -> vAlpha blend = 1) /\
  (1 <= blend -> vAlpha blend = 0.7) /\
  0.7 <= vAlpha blend <= 1.
Proof.
  unfold vAlpha. split; [|split; [|split]].
  - intros H. pose proof (smoothstep_monotone blend blend' H). lra.
  - intros H. rewrite smoothstep_unit. cbv zeta.
    replace (clamp blend 0 1) with 0; [lra|].
    unfold clamp, Rmin, Rmax.
    destruct (Rle_dec blend 0); destruct (Rle_dec _ 1); lra.
  - intros H. rewrite smoothstep_unit. cbv zeta.
    replace (clamp blend 0 1) with 1; [lra|].
    unfold clamp, Rmin, Rmax.
    destruct (Rle_dec blend 0); destruct (Rle_dec _ 1); lra.
  - pose proof (smoothstep_range blend). lra.
Qed.

End ShaderGates.

Section ReturnToCompact.

Import Scene.
Local Open Scope R_scope.



End ReturnToCompact.

(* ===================================================================== *)
(** * Properties of the CPU-interpolating variant *)
(* ===================================================================== *)

Section TypedArrayAccess.

Import Scene Shading.
Local Open Scope R_scope.

Lemma store_length (a : Float32Array) (i : Z) (v : R) :
  length (store a i v) = length a.
Proof.
  unfold store.
  destruct ((0 <=? i)%Z && (i <? Z.of_nat (length a))%Z) eqn:E; [|reflexivity].
  apply andb_prop in E. destruct E as [E1 E2].
  apply Z.leb_le in E1. apply Z.ltb_lt in E2.
  rewrite length_app, length_firstn. cbn [length]. rewrite length_skipn. lia.
Qed.

(** Reading after a store: the stored value at the stored index, the old
    content elsewhere. *)
Lemma nth_error_store (a : Float32Array) (n j : nat) (v : R) :
  (n < length a)%nat ->
  nth_error (store a (Z.of_nat n) v) j
  = if (j =? n)%nat then Some v else nth_error a j.
Proof.
  intros Hn. unfold store.
  replace ((0 <=? Z.of_nat n)%Z) with true by (symmetry; apply Z.leb_le; lia).
  replace ((Z.of_nat n <? Z.of_nat (length a))%Z) with true
    by (symmetry; apply Z.ltb_lt; lia).
  cbn [andb]. rewrite Nat2Z.id, nth_error_app, length_firstn.
  replace (Nat.min n (length a)) with n by lia.
  destruct (Nat.ltb_spec j n) as [Hj|Hj].
  - rewrite nth_error_firstn.
    replace (j <? n)%nat with true by (symmetry; apply Nat.ltb_lt; lia).
    destruct (Nat.eqb_spec j n); [lia | reflexivity].
  - destruct (Nat.eqb_spec j n) as [->|Hne].
    + now rewrite Nat.sub_diag.
    + replace (j - n)%nat with (S (j - n - 1)) by lia. cbn [nth_error].
      rewrite nth_error_skipn. f_equal. lia.
Qed.

Lemma attribute3_Some (a : Float32Array) (k : nat) :
  (3 * k + 2 < length a)%nat -> exists v, attribute3 a k = Some v.
Proof.
  intros Hk. unfold attribute3.
  destruct (nth_error a (3 * k)) as [x0|] eqn:E0;
    [|apply nth_error_None in E0; lia].
  destruct (nth_error a (3 * k + 1)) as [x1|] eqn:E1;
    [|apply nth_error_None in E1; lia].
  destruct (nth_error a (3 * k + 2)) as [x2|] eqn:E2;
    [|apply nth_error_None in E2; lia].
  now eexists.
Qed.

End TypedArrayAccess.

Section CpuFrameProperties.

Import Scene Shading CpuScene CpuFrame.
Local Open Scope R_scope.

Variable PARTICLE_COUNT : Z.
Variable particles : list ParticlePoint.

Local Abbreviation move_p := (move particles).
Local Abbreviation frame := (useFrame PARTICLE_COUNT particles).

Lemma load_nat (a : Float32Array) (n : nat) : load a (Z.of_nat n) = nth_error a n.
Proof.
  unfold load.
  replace ((0 <=? Z.of_nat n)%Z) with true by (symmetry; apply Z.leb_le; lia).
  now rewrite Nat2Z.id.
Qed.

(** One iteration of the loop moves the three coordinates of particle [i]
    and touches nothing else. *)
Lemma move_spec (b : bool) (time : R) (i : nat) (a : Float32Array)
    (p : ParticlePoint) (cur : vec3) :
  nth_error particles i = Some p ->
  attribute3 a i = Some cur ->
  exists a',
    move_p b time i (Done a) = Done a' /\
    length a' = length a /\
    attribute3 a' i = Some (lerp_towards b cur (target b time i p)) /\
    forall k, k <> i -> attribute3 a' k = attribute3 a k.
Proof.
  intros Hp Hcur. unfold move. rewrite Hp. cbv zeta.
  unfold attribute3 in Hcur.
  destruct (nth_error a (3 * i)) as [cx|] eqn:E0; [|discriminate].
  destruct (nth_error a (3 * i + 1)) as [cy|] eqn:E1; [|discriminate].
  destruct (nth_error a (3 * i + 2)) as [cz|] eqn:E2; [|discriminate].
  injection Hcur as <-.
  assert (Hlen : (3 * i + 2 < length a)%nat)
    by (apply nth_error_Some; congruence).
  replace (Z.of_nat i * 3)%Z with (Z.of_nat (3 * i)) by lia.
  replace (Z.of_nat (3 * i) + 1)%Z with (Z.of_nat (3 * i + 1)) by lia.
  replace (Z.of_nat (3 * i) + 2)%Z with (Z.of_nat (3 * i + 2)) by lia.
  rewrite !load_nat, E0, E1, E2. unfold store_lerp.
  set (s := if b then 0.03 else 0.05).
  set (tgt := target b time i p).
  set (a1 := store a (Z.of_nat (3 * i)) (cx + (vx tgt - cx) * s)).
  set (a2 := store a1 (Z.of_nat (3 * i + 1)) (cy + (vy tgt - cy) * s)).
  set (a3 := store a2 (Z.of_nat (3 * i + 2)) (cz + (vz tgt - cz) * s)).
  assert (L1 : length a1 = length a) by apply store_length.
  assert (L2 : length a2 = length a)
    by (unfold a2; now rewrite store_length).
  assert (L3 : length a3 = length a)
    by (unfold a3; now rewrite store_length).
  assert (Hread : forall j,
             nth_error a3 j
             = if (j =? 3 * i + 2)%nat then Some (cz + (vz tgt - cz) * s)
               else if (j =? 3 * i + 1)%nat then Some (cy + (vy tgt - cy) * s)
               else if (j =? 3 * i)%nat then Some (cx + (vx tgt - cx) * s)
               else nth_error a j).
  { intros j. unfold a3, a2, a1.
    rewrite !nth_error_store by (rewrite ?store_length; lia). reflexivity. }
  exists a3. split; [reflexivity|]. split; [exact L3|]. split.
  - unfold attribute3. rewrite !Hread.
    repeat match goal with
           | |- context [Nat.eqb ?u ?v] =>
               destruct (Nat.eqb_spec u v); try lia
           end.
    reflexivity.
  - intros k Hk. unfold attribute3. rewrite !Hread.
    repeat match goal with
           | |- context [Nat.eqb ?u ?v] =>
               destruct (Nat.eqb_spec u v); try lia
           end.
    reflexivity.
Qed.

(** Invariant of the loop: after [n] iterations the first [n] particles
    have moved, the others have not. *)
Lemma move_loop (b : bool) (time : R) (a : Float32Array) (n : nat) :
  (n <= length particles)%nat ->
  (3 * length particles <= length a)%nat ->
  exists a',
    for_loop n (move_p b time) (Done a) = Done a' /\
    length a' = length a /\
    (forall k, (n <= k)%nat -> attribute3 a' k = attribute3 a k) /\
    (forall k p cur,
       (k < n)%nat -> nth_error particles k = Some p ->
       attribute3 a k = Some cur ->
       attribute3 a' k = Some (lerp_towards b cur (target b time k p))).
Proof.
  intros Hn Hlen. induction n as [|n IH].
  - exists a. repeat split; try reflexivity. intros k p cur Hk. lia.
  - destruct IH as (an & Ean & Lan & Hrest & Hdone); [lia|].
    rewrite for_loop_S, Ean.
    destruct (nth_error particles n) as [p|] eqn:Ep;
      [|apply nth_error_None in Ep; lia].
    destruct (attribute3_Some a n) as [cur Hcur]; [lia|].
    assert (Hcur' : attribute3 an n = Some cur)
      by (rewrite Hrest by lia; exact Hcur).
    destruct (move_spec b time n an p cur Ep Hcur')
      as (a' & Ea' & La' & Hn' & Hother).
    exists a'. split; [exact Ea'|]. split; [lia|]. split.
    + intros k Hk. rewrite Hother by lia. apply Hrest. lia.
    + intros k q c Hk Hq Hc. destruct (Nat.eq_dec k n) as [->|Hne].
      * rewrite Hn'. congruence.
      * rewrite Hother by exact Hne. apply Hdone; [lia | exact Hq | exact Hc].
Qed.

(** A frame returns when every index below PARTICLE_COUNT has a particle
    and three buffer slots. *)
Lemma cpu_frame_returns (b : bool) (time : R) (a : Float32Array) (rot : Euler) :
  length particles = Z.to_nat PARTICLE_COUNT ->
  length a = (3 * Z.to_nat PARTICLE_COUNT)%nat ->
  exists a',
    frame b time (Some (a, rot))
      = Done (Some (a', mkEuler (PI / 12) (rot_y rot) (PI / 6))) /\
    length a' = length a.
Proof.
  intros Hp Ha.
  destruct (move_loop b time a (Z.to_nat PARTICLE_COUNT))
    as (a' & Ea' & La' & _); [lia | lia |].
  exists a'. unfold useFrame. rewrite Ea'. now split.
Qed.


(** The loop returns as long as it finds a particle at every index, and
    throws as soon as it does not. *)
Lemma move_loop_returns (b : bool) (time : R) (a : Float32Array) (n : nat) :
  (n <= length particles)%nat ->
  exists a', for_loop n (move_p b time) (Done a) = Done a'.
Proof.
  intros Hn. induction n as [|n IH]; [now exists a|].
  destruct IH as (an & Ean); [lia|]. rewrite for_loop_S, Ean.
  unfold move.
  destruct (nth_error particles n) as [p|] eqn:Ep;
    [|apply nth_error_None in Ep; lia].
  now eexists.
Qed.

Lemma move_loop_throws (b : bool) (time : R) (a : Float32Array) (n : nat) :
  (length particles < n)%nat ->
  for_loop n (move_p b time) (Done a) = Threw.
Proof.
  intros Hn. induction n as [|n IH]; [lia|].
  rewrite for_loop_S.
  destruct (Nat.eq_dec (length particles) n) as [E|Hne].
  - destruct (move_loop_returns b time a n) as (an & Ean); [lia|].
    rewrite Ean. unfold move.
    replace (nth_error particles n) with (@None ParticlePoint);
      [reflexivity|].
    symmetry. apply nth_error_None. lia.
  - rewrite IH by lia. reflexivity.
Qed.

End CpuFrameProperties.

Section CpuParticles.

Import Scene Shading CpuScene CpuFrame.
Local Open Scope R_scope.

Variable PARTICLE_COUNT : Z.
Variables SATURN_RADIUS RING_INNER_RADIUS RING_OUTER_RADIUS EXPANSION_SCALE : R.
Variable random : nat -> Q.

Local Abbreviation sc := (CpuScene.sphereCount PARTICLE_COUNT).
Local Abbreviation rc := (CpuScene.ringCount PARTICLE_COUNT).
Local Abbreviation sphere_b :=
  (CpuScene.sphere_body PARTICLE_COUNT SATURN_RADIUS EXPANSION_SCALE random).
Local Abbreviation ring_b :=
  (CpuScene.ring_body RING_INNER_RADIUS RING_OUTER_RADIUS EXPANSION_SCALE random).
Local Abbreviation cpu_particles :=
  (CpuScene.particles PARTICLE_COUNT SATURN_RADIUS RING_INNER_RADIUS
     RING_OUTER_RADIUS EXPANSION_SCALE random).

(** A loop that pushes one element per iteration builds a list whose
    [i]-th new element has whatever property iteration [i] gives it. *)
Lemma push_loop_each (P : nat -> ParticlePoint -> Prop)
    (body : nat -> CpuScene.Gen -> CpuScene.Gen) (n : nat) (g : CpuScene.Gen) :
  (forall i g', exists p k, body i g' = (fst g' ++ [p], k) /\ P i p) ->
  exists l k,
    for_loop n body g = (fst g ++ l, k) /\ length l = n /\
    forall i p, nth_error l i = Some p -> P i p.
Proof.
  intros Hpush. induction n as [|n IH].
  - exists [], (snd g). unfold for_loop. cbn. rewrite app_nil_r.
    split; [now destruct g|]. split; [reflexivity|].
    intros i p E. now destruct i.
  - destruct IH as (l & k & E & Hl & HP). rewrite for_loop_S, E.
    destruct (Hpush n (fst g ++ l, k)) as (p & k' & Ep & Pp). rewrite Ep.
    exists (l ++ [p]), k'. cbn [fst]. rewrite app_assoc, length_app, Hl.
    split; [reflexivity|]. split; [cbn; lia|].
    intros i q Eq. destruct (Nat.lt_ge_cases i n) as [Hi|Hi].
    + rewrite nth_error_app1 in Eq by lia. now apply HP.
    + rewrite nth_error_app2 in Eq by lia. rewrite Hl in Eq.
      destruct (i - n)%nat as [|d] eqn:Ed.
      * injection Eq as <-. replace i with n by lia. exact Pp.
      * cbn in Eq. now destruct d.
Qed.

(** The two groups of the particle list, with what the loops put in them. *)
Lemma cpu_particles_groups :
  exists body ring,
    cpu_particles = body ++ ring /\
    length body = Z.to_nat sc /\
    length ring = Z.to_nat rc /\
    (forall i p, nth_error body i = Some p ->
       (x p, y p, z p) = (initialX p, initialY p, initialZ p) /\
       color p = (if Nat.even i then "#C5A984" else "#EAD6B8")%string /\
       initialX p * initialX p + (initialY p / 0.9) * (initialY p / 0.9)
         + initialZ p * initialZ p = SATURN_RADIUS * SATURN_RADIUS) /\
    (forall j p, nth_error ring j = Some p ->
       (x p, y p, z p) = (initialX p, initialY p, initialZ p) /\
       (color p = "#A89F91" \/ color p = "#8B7355")%string).
Proof.
  unfold CpuScene.particles.
  destruct (push_loop_each
              (fun i p =>
                 (x p, y p, z p) = (initialX p, initialY p, initialZ p) /\
                 color p = (if Nat.even i then "#C5A984" else "#EAD6B8")%string /\
                 initialX p * initialX p
                   + (initialY p / 0.9) * (initialY p / 0.9)
                   + initialZ p * initialZ p = SATURN_RADIUS * SATURN_RADIUS)
              sphere_b (Z.to_nat sc) ([], 0%nat))
    as (body & k1 & E1 & H1 & P1).
  { intros i [temp k]. unfold CpuScene.sphere_body.
    eexists. eexists. split; [reflexivity|].
    cbn [x y z initialX initialY initialZ color].
    split; [reflexivity|]. split; [reflexivity|].
    set (phi := acos _). set (theta := sqrt _ * phi).
    pose proof (sin2_cos2 theta) as Ht. pose proof (sin2_cos2 phi) as Hp.
    unfold Rsqr in Ht, Hp.
    generalize dependent (sin theta). generalize dependent (cos theta).
    generalize dependent (sin phi). generalize dependent (cos phi).
    intros c2 s2 Hp c1 s1 Ht.
    replace (SATURN_RADIUS * s1 * s2 * 0.9 / 0.9) with (SATURN_RADIUS * s1 * s2)
      by lra.
    transitivity (SATURN_RADIUS * SATURN_RADIUS
                  * (s2 * s2 * (s1 * s1 + c1 * c1) + c2 * c2)); [ring|].
    rewrite Ht. rewrite Rmult_1_r, Hp. ring. }
  rewrite E1. cbn [fst app].
  destruct (push_loop_each
              (fun (_ : nat) p =>
                 (x p, y p, z p) = (initialX p, initialY p, initialZ p) /\
                 (color p = "#A89F91" \/ color p = "#8B7355")%string)
              ring_b (Z.to_nat rc) (body, k1))
    as (ring & k2 & E2 & H2 & P2).
  { intros i [temp k]. unfold CpuScene.ring_body.
    eexists. eexists. split; [reflexivity|].
    cbn [x y z initialX initialY initialZ color].
    split; [reflexivity|]. destruct (Rlt_dec _ _); auto. }
  rewrite E2. cbn [fst]. exists body, ring. auto.
Qed.

Lemma cpu_particles_length :
  (0 <= PARTICLE_COUNT < 2 ^ 53)%Z ->
  length cpu_particles = Z.to_nat PARTICLE_COUNT.
Proof.
  intros HN. destruct cpu_particles_groups as (body & ring & E & Hb & Hr & _).
  destruct (@sphereCount_range PARTICLE_COUNT HN) as [_ Hcpu].
  rewrite E, length_app, Hb, Hr. unfold CpuScene.ringCount. lia.
Qed.

(** X25: in the particle list of the CPU variant the fields x, y, z of
    every particle hold its home position; the body particles come first,
    lie on the flattened spheroid and alternate between the colours #C5A984
    (even index) and #EAD6B8 (odd index); the ring particles behind them
    are #A89F91 or #8B7355 - so the colour of a particle tells its group. *)
Theorem cpu_palette_identifies_group (k : nat) (p : ParticlePoint) :
  nth_error cpu_particles k = Some p ->
  (x p, y p, z p) = (initialX p, initialY p, initialZ p) /\
  ((k < Z.to_nat sc)%nat ->
   color p = (if Nat.even k then "#C5A984" else "#EAD6B8")%string /\
   initialX p * initialX p + (initialY p / 0.9) * (initialY p / 0.9)
     + initialZ p * initialZ p = SATURN_RADIUS * SATURN_RADIUS) /\
  ((Z.to_nat sc <= k)%nat ->
   (color p = "#A89F91" \/ color p = "#8B7355")%string) /\
  ((color p = "#C5A984" \/ color p = "#EAD6B8")%string
   <-> (k < Z.to_nat sc)%nat).
Proof.
  intros Hk.
  destruct cpu_particles_groups as (body & ring & E & Hb & Hr & Pb & Pr).
  rewrite E in Hk. destruct (Nat.lt_ge_cases k (Z.to_nat sc)) as [Hlt|Hge].
  - rewrite nth_error_app1 in Hk by lia.
    destruct (Pb k p Hk) as (Hpos & Hcol & Hsph).
    split; [exact Hpos|]. split; [now split|]. split; [lia|].
    split; [now intros _|]. intros _. rewrite Hcol.
    destruct (Nat.even k); auto.
  - rewrite nth_error_app2 in Hk by lia.
    destruct (Pr _ p Hk) as (Hpos & Hcol).
    split; [exact Hpos|]. split; [lia|]. split; [now intros _|].
    split; [|lia]. intros [H|H]; destruct Hcol as [H'|H'];
      rewrite H' in H; discriminate.
Qed.

Lemma cpu_run_frames_cons (ps : list ParticlePoint) (f : Frame)
    (fs : list Frame) (points : Points) :
  run_frames PARTICLE_COUNT ps (f :: fs) points
  = match useFrame PARTICLE_COUNT ps (fst f) (snd f) points with
    | Done points' => run_frames PARTICLE_COUNT ps fs points'
    | Threw => Threw
    end.
Proof. reflexivity. Qed.

(** X26: the CPU variant never throws while it animates its own particles:
    once the position buffer is allocated, it is all zero (every particle
    starts at the origin), the generator's list has one particle per slot,
    and every sequence of frames returns with a buffer of the same length.
    The loop bound is the constant PARTICLE_COUNT, not the length of the
    list: with a list shorter than that a frame throws on the first missing
    particle. *)
Theorem cpu_frames_never_throw
    (allocated : Z -> bool) (buffer : Float32Array)
    (frames : list Frame) (rot : Euler) :
  new_Float32Array allocated (PARTICLE_COUNT * 3) = Some buffer ->
  buffer = repeat 0 (3 * Z.to_nat PARTICLE_COUNT) /\
  length cpu_particles = Z.to_nat PARTICLE_COUNT /\
  (forall i, (i < Z.to_nat PARTICLE_COUNT)%nat ->
     position_of buffer i = Some (mkVec3 0 0 0)) /\
  (exists a' rot',
     run_frames PARTICLE_COUNT cpu_particles frames (Some (buffer, rot))
     = Done (Some (a', rot')) /\
     length a' = (3 * Z.to_nat PARTICLE_COUNT)%nat /\
     rot_y rot' = rot_y rot) /\
  forall (short : list ParticlePoint) (b : bool) (time : R) (a : Float32Array),
    (length short < Z.to_nat PARTICLE_COUNT)%nat ->
    useFrame PARTICLE_COUNT short b time (Some (a, rot)) = Threw.
Proof.
  intros Halloc.
  destruct (@new_Float32Array_Some allocated _ buffer Halloc)
    as (Hrange & _ & Hzero).
  assert (H0 : (0 <= PARTICLE_COUNT)%Z) by lia.
  assert (Hmax : (PARTICLE_COUNT * 3 < 2 ^ 53)%Z) by lia.
  assert (Epos : buffer = repeat 0 (3 * Z.to_nat PARTICLE_COUNT)).
  { rewrite Hzero. f_equal. lia. }
  assert (Hlen : length cpu_particles = Z.to_nat PARTICLE_COUNT)
    by (apply cpu_particles_length; lia).
  split; [exact Epos|]. rewrite Epos.
  split; [exact Hlen|]. split.
  { intros i Hi. unfold position_of, attribute3.
    rewrite !nth_error_repeat by lia. reflexivity. }
  split.
  - assert (Hgen : forall (a : Float32Array) (r : Euler),
               length a = (3 * Z.to_nat PARTICLE_COUNT)%nat ->
               exists a' rot',
                 run_frames PARTICLE_COUNT cpu_particles frames (Some (a, r))
                 = Done (Some (a', rot')) /\
                 length a' = (3 * Z.to_nat PARTICLE_COUNT)%nat /\
                 rot_y rot' = rot_y r).
    { induction frames as [|f fs IH]; intros a r Ha.
      - exists a, r. split; [reflexivity|]. split; [exact Ha | reflexivity].
      - destruct (cpu_frame_returns PARTICLE_COUNT cpu_particles
                    (fst f) (snd f) a r Hlen Ha) as (a1 & E1 & L1).
        rewrite cpu_run_frames_cons, E1.
        destruct (IH a1 (mkEuler (PI / 12) (rot_y r) (PI / 6)))
          as (a' & rot' & E' & L' & R'); [lia|].
        exists a', rot'. repeat split; assumption. }
    apply Hgen. apply repeat_length.
  - intros short b time a Hs. unfold useFrame.
    now rewrite move_loop_throws.
Qed.

(** X27: where the CPU variant sends a particle. The compact target is the
    home position turned around the vertical axis - its distance from the
    axis is the home's - and lifted or lowered by at most 0.1; the
    dispersed target stays within 2, on each coordinate, of the home
    position displaced by the particle's random offset. *)
Theorem cpu_targets_stay_near (time : R) (i : nat) (p : ParticlePoint) :
  let c := target false time i p in
  let d := target true time i p in
  vx c * vx c + vz c * vz c
    = initialX p * initialX p + initialZ p * initialZ p /\
  -0.1 <= vy c - initialY p <= 0.1 /\
  -2 <= vx d - (initialX p + randomX p) <= 2 /\
  -2 <= vy d - (initialY p + randomY p) <= 2 /\
  -2 <= vz d - (initialZ p + randomZ p) <= 2.
Proof.
  cbv zeta. unfold target. cbn [vx vy vz].
  pose proof (sin2_cos2 (time * 0.2)) as Hsc. unfold Rsqr in Hsc.
  pose proof (SIN_bound (time * 2 + initialX p)) as Hbob.
  pose proof (SIN_bound (time + INR i)) as H1.
  pose proof (COS_bound (time + INR i)) as H2.
  pose proof (SIN_bound (time * 0.5 + INR i)) as H3.
  split; [|repeat split; lra].
  generalize dependent (sin (time * 0.2)). generalize dependent (cos (time * 0.2)).
  intros c s Hsc.
  transitivity ((initialX p * initialX p + initialZ p * initialZ p)
                * (s * s + c * c)); [ring|].
  rewrite Hsc. ring.
Qed.

End CpuParticles.

Section CpuBounds.

Import Scene Shading CpuScene CpuFrame.
Local Open Scope R_scope.

Variable PARTICLE_COUNT : Z.
Variables SATURN_RADIUS RING_INNER_RADIUS RING_OUTER_RADIUS EXPANSION_SCALE : R.
Variable random : nat -> Q.

Hypothesis random_in_range : random_ok random.
Hypothesis saturn_valid : 0 <= SATURN_RADIUS.
Hypothesis ring_valid : 0 <= RING_INNER_RADIUS < RING_OUTER_RADIUS.
Hypothesis scale_valid : 0 <= EXPANSION_SCALE.

Local Abbreviation sc := (CpuScene.sphereCount PARTICLE_COUNT).
Local Abbreviation rc := (CpuScene.ringCount PARTICLE_COUNT).
Local Abbreviation sphere_b :=
  (CpuScene.sphere_body PARTICLE_COUNT SATURN_RADIUS EXPANSION_SCALE random).
Local Abbreviation ring_b :=
  (CpuScene.ring_body RING_INNER_RADIUS RING_OUTER_RADIUS EXPANSION_SCALE random).
Local Abbreviation cpu_particles :=
  (CpuScene.particles PARTICLE_COUNT SATURN_RADIUS RING_INNER_RADIUS
     RING_OUTER_RADIUS EXPANSION_SCALE random).
Local Abbreviation reach :=
  (Rmax (Rmax SATURN_RADIUS RING_OUTER_RADIUS) 0.25).

Lemma reach_bounds :
  SATURN_RADIUS <= reach /\ RING_OUTER_RADIUS <= reach /\ 0.25 <= reach.
Proof.
  pose proof (Rmax_l (Rmax SATURN_RADIUS RING_OUTER_RADIUS) 0.25).
  pose proof (Rmax_r (Rmax SATURN_RADIUS RING_OUTER_RADIUS) 0.25).
  pose proof (Rmax_l SATURN_RADIUS RING_OUTER_RADIUS).
  pose proof (Rmax_r SATURN_RADIUS RING_OUTER_RADIUS).
  repeat split; lra.
Qed.

(** Every particle the two loops push is within reach. *)
Lemma cpu_particles_within (k : nat) (p : ParticlePoint) :
  nth_error cpu_particles k = Some p ->
  particle_within reach (1.5 * EXPANSION_SCALE) p.
Proof.
  destruct reach_bounds as (Hm1 & Hm2 & Hm3).
  assert (Hr : forall n, 0 <= rnd random n < 1)
    by (intros n; now apply rnd_range).
  unfold CpuScene.particles.
  destruct (push_loop_each
              (fun (_ : nat) q =>
                 particle_within reach (1.5 * EXPANSION_SCALE) q)
              sphere_b (Z.to_nat sc) ([], 0%nat))
    as (body & k1 & E1 & H1 & P1).
  { intros i [temp n]. unfold CpuScene.sphere_body.
    eexists. eexists. split; [reflexivity|].
    unfold particle_within, in_box.
    cbn [initialX initialY initialZ randomX randomY randomZ vx vy vz].
    set (phi := acos _). set (theta := sqrt _ * phi).
    pose proof (sin2_cos2 theta) as Ht. pose proof (sin2_cos2 phi) as Hp.
    unfold Rsqr in Ht, Hp.
    pose proof (spheroid_identity SATURN_RADIUS _ _ _ _ Ht Hp) as E.
    set (hx := SATURN_RADIUS * cos theta * sin phi) in *.
    set (hy := SATURN_RADIUS * sin theta * sin phi * 0.9) in *.
    set (hz := SATURN_RADIUS * cos phi) in *.
    assert (H0 : forall u : R, 0 <= u * u) by (intros u; nra).
    pose proof (H0 hx). pose proof (H0 (hy / 0.9)). pose proof (H0 hz).
    assert (Hy : hy * hy <= hy / 0.9 * (hy / 0.9)) by nra.
    assert (Hs2 : SATURN_RADIUS * SATURN_RADIUS <= reach * reach) by nra.
    assert (Hyb : - SATURN_RADIUS <= hy <= SATURN_RADIUS)
      by (apply square_le_bound; lra).
    pose proof (Hr n). pose proof (Hr (n + 1)%nat). pose proof (Hr (n + 2)%nat).
    split; [lra|]. split; [lra|]. repeat split; nra. }
  rewrite E1. cbn [fst app].
  destruct (push_loop_each
              (fun (_ : nat) q =>
                 particle_within reach (1.5 * EXPANSION_SCALE) q)
              ring_b (Z.to_nat rc) (body, k1))
    as (ring & k2 & E2 & H2 & P2).
  { intros i [temp n]. unfold CpuScene.ring_body.
    eexists. eexists. split; [reflexivity|].
    unfold particle_within, in_box.
    cbn [initialX initialY initialZ randomX randomY randomZ vx vy vz].
    pose proof (Hr (n + 1)%nat) as Ht.
    pose proof (@ring_radius_range RING_INNER_RADIUS RING_OUTER_RADIUS
                  (rnd random (n + 1)) (proj2 ring_valid) Ht) as Hrad.
    set (r := ring_radius _ _ _) in *.
    pose proof (sin2_cos2 (rnd random n * PI * 2)) as Hsc2.
    unfold Rsqr in Hsc2.
    generalize dependent (sin (rnd random n * PI * 2)).
    generalize dependent (cos (rnd random n * PI * 2)).
    intros c s Hsc2.
    assert (E : c * r * (c * r) + s * r * (s * r) = r * r).
    { transitivity (r * r * (s * s + c * c)); [ring|]. rewrite Hsc2. ring. }
    rewrite E.
    pose proof (Hr (n + 2)%nat). pose proof (Hr (n + 3)%nat).
    pose proof (Hr (n + 4)%nat). pose proof (Hr (n + 5)%nat).
    split; [nra|]. split; [lra|]. repeat split; nra. }
  rewrite E2. cbn [fst]. intros Hk.
  destruct (Nat.lt_ge_cases k (length body)) as [Hlt|Hge].
  - rewrite nth_error_app1 in Hk by lia. exact (P1 k p Hk).
  - rewrite nth_error_app2 in Hk by lia. exact (P2 _ p Hk).
Qed.

(** The target of a particle within reach, in either mode. *)
Lemma target_in_box (m s : R) (b : bool) (time : R) (i : nat) (p : ParticlePoint) :
  0 <= m -> 0 <= s -> particle_within m s p ->
  in_box (m + s + 2) (target b time i p).
Proof.
  intros Hm Hs (Hxz & Hy & Hrx & Hry & Hrz). cbn [vx vy vz] in Hrx, Hry, Hrz.
  assert (H0 : forall u : R, 0 <= u * u) by (intros u; nra).
  pose proof (H0 (initialX p)). pose proof (H0 (initialZ p)).
  assert (Hx : - m <= initialX p <= m) by (apply square_le_bound; lra).
  assert (Hz : - m <= initialZ p <= m) by (apply square_le_bound; lra).
  unfold target, in_box. destruct b; cbv zeta; cbn [vx vy vz].
  - pose proof (SIN_bound (time + INR i)). pose proof (COS_bound (time + INR i)).
    pose proof (SIN_bound (time * 0.5 + INR i)).
    repeat split; lra.
  - pose proof (SIN_bound (time * 2 + initialX p)).
    pose proof (sin2_cos2 (time * 0.2)) as Hsc2. unfold Rsqr in Hsc2.
    generalize dependent (sin (time * 0.2)).
    generalize dependent (cos (time * 0.2)).
    intros c sn Hsc2.
    assert (E : (initialX p * c - initialZ p * sn)
                * (initialX p * c - initialZ p * sn)
                + (initialX p * sn + initialZ p * c)
                  * (initialX p * sn + initialZ p * c)
                = initialX p * initialX p + initialZ p * initialZ p).
    { transitivity ((initialX p * initialX p + initialZ p * initialZ p)
                    * (sn * sn + c * c)); [ring|]. rewrite Hsc2. ring. }
    pose proof (H0 (initialX p * c - initialZ p * sn)).
    pose proof (H0 (initialX p * sn + initialZ p * c)).
    assert (Hx' : - m <= initialX p * c - initialZ p * sn <= m)
      by (apply square_le_bound; lra).
    assert (Hz' : - m <= initialX p * sn + initialZ p * c <= m)
      by (apply square_le_bound; lra).
    repeat split; lra.
Qed.

Lemma lerp_in_box (b : bool) (cur tgt : vec3) (bound : R) :
  in_box bound cur -> in_box bound tgt ->
  in_box bound (lerp_towards b cur tgt).
Proof.
  unfold in_box, lerp_towards. intros (Hx & Hy & Hz) (Kx & Ky & Kz).
  destruct b; cbv zeta; cbn [vx vy vz]; repeat split; lra.
Qed.

(** One frame keeps every particle in a box that holds all targets. *)
Lemma frame_in_box (ps : list ParticlePoint) (b : bool) (time bound : R)
    (a : Float32Array) (rot : Euler) :
  length ps = Z.to_nat PARTICLE_COUNT ->
  length a = (3 * Z.to_nat PARTICLE_COUNT)%nat ->
  (forall i p, nth_error ps i = Some p -> in_box bound (target b time i p)) ->
  (forall i, (i < Z.to_nat PARTICLE_COUNT)%nat ->
     exists v, position_of a i = Some v /\ in_box bound v) ->
  exists a',
    useFrame PARTICLE_COUNT ps b time (Some (a, rot))
      = Done (Some (a', mkEuler (PI / 12) (rot_y rot) (PI / 6))) /\
    length a' = (3 * Z.to_nat PARTICLE_COUNT)%nat /\
    forall i, (i < Z.to_nat PARTICLE_COUNT)%nat ->
      exists v, position_of a' i = Some v /\ in_box bound v.
Proof.
  intros Hp Ha Htgt Hcur.
  destruct (move_loop ps b time a (Z.to_nat PARTICLE_COUNT))
    as (a' & Ea' & La' & _ & Hdone); [lia | lia |].
  exists a'. unfold useFrame. rewrite Ea'. split; [reflexivity|].
  split; [lia|]. intros i Hi.
  destruct (Hcur i Hi) as (v & Hv & Hbox).
  destruct (nth_error ps i) as [p|] eqn:Ep;
    [|apply nth_error_None in Ep; lia].
  eexists. split; [exact (Hdone i p v Hi Ep Hv)|].
  apply lerp_in_box; [exact Hbox | now apply (Htgt i p)].
Qed.

(** X28: the CPU variant keeps every particle in a fixed box. For valid
    constants and a random source within [0, 1), after any sequence of
    frames - in any order of modes and at any clock values - every particle
    of the scene is within
    max SATURN_RADIUS RING_OUTER_RADIUS 0.25 + 1.5 EXPANSION_SCALE + 2
    of the origin on each coordinate. *)
Theorem cpu_positions_stay_in_box (frames : list Frame) (rot : Euler) :
  (0 <= PARTICLE_COUNT)%Z -> (PARTICLE_COUNT * 3 < 2 ^ 53)%Z ->
  exists a' rot',
    run_frames PARTICLE_COUNT cpu_particles frames
      (Some (repeat 0 (3 * Z.to_nat PARTICLE_COUNT), rot))
    = Done (Some (a', rot')) /\
    forall i, (i < Z.to_nat PARTICLE_COUNT)%nat ->
      exists v,
        position_of a' i = Some v /\
        in_box (reach + 1.5 * EXPANSION_SCALE + 2) v.
Proof.
  intros H0 Hmax.
  destruct reach_bounds as (Hm1 & Hm2 & Hm3).
  assert (Hlen : length cpu_particles = Z.to_nat PARTICLE_COUNT)
    by (apply cpu_particles_length; lia).
  assert (Htgt : forall b time i p,
             nth_error cpu_particles i = Some p ->
             in_box (reach + 1.5 * EXPANSION_SCALE + 2) (target b time i p)).
  { intros b time i p Hp. apply target_in_box; [lra | lra |].
    exact (cpu_particles_within i p Hp). }
  assert (Hgen : forall (a : Float32Array) (r : Euler),
             length a = (3 * Z.to_nat PARTICLE_COUNT)%nat ->
             (forall i, (i < Z.to_nat PARTICLE_COUNT)%nat ->
                exists v, position_of a i = Some v /\
                          in_box (reach + 1.5 * EXPANSION_SCALE + 2) v) ->
             exists a' rot',
               run_frames PARTICLE_COUNT cpu_particles frames (Some (a, r))
               = Done (Some (a', rot')) /\
               forall i, (i < Z.to_nat PARTICLE_COUNT)%nat ->
                 exists v, position_of a' i = Some v /\
                           in_box (reach + 1.5 * EXPANSION_SCALE + 2) v).
  { induction frames as [|f fs IH]; intros a r Ha Hbox.
    - exists a, r. split; [reflexivity | exact Hbox].
    - destruct (frame_in_box cpu_particles (fst f) (snd f) _ a r Hlen Ha
                  (Htgt (fst f) (snd f)) Hbox) as (a1 & E1 & L1 & B1).
      rewrite cpu_run_frames_cons, E1. now apply IH. }
  apply Hgen; [apply repeat_length|].
  intros i Hi. exists (mkVec3 0 0 0). split.
  - unfold position_of, attribute3. rewrite !nth_error_repeat by lia.
    reflexivity.
  - unfold in_box. cbn [vx vy vz]. repeat split; lra.
Qed.

End CpuBounds.

Section CpuPrefill.

Import Scene Shading CpuScene CpuFrame.
Local Open Scope R_scope.

Variable set_color : string -> Color.

Local Abbreviation colour_of :=
  (fun p : ParticlePoint => color_vec (set_color (color p))).



End CpuPrefill.

(* ===================================================================== *)
(** * The properties at concrete inputs *)
(* ===================================================================== *)

Lemma reachable_pool_invariant_witness :
  let w := App.dispatch (App.handleManualToggle sample_phrases sample_random)
             (App.initial sample_phrases) in
  AppRuns.reachable sample_phrases sample_random w /\
  NoDup (App.availableIndices (App.app w)) /\
  App.rng w = App.selections w.
Proof.
  cbv zeta.
  assert (H : AppRuns.reachable sample_phrases sample_random
                (App.dispatch (App.handleManualToggle sample_phrases sample_random)
                   (App.initial sample_phrases)))
    by apply AppRuns.reachable_toggle, AppRuns.reachable_initial.
  split; [exact H|].
  destruct (reachable_pool_invariant sample_phrases sample_random _ H)
    as (Hn & _ & _ & Hr & _).
  split; assumption.
Defined.

Lemma remaining_indices_shown_once_witness :
  let w := App.initial sample_phrases in
  let ws := AppRuns.play sample_phrases sample_random
              (repeat AppRuns.ManualToggle (2 * 3)) w in
  random_ok sample_random /\
  App.isExpanded (App.app w) = false /\
  length (App.availableIndices (App.app w)) = 3 /\
  NoDup (App.availableIndices (App.app w)) /\
  exists idxs,
    Permutation idxs [0; 1; 2] /\
    App.availableIndices (App.app (last ws w)) = [].
Proof.
  cbv zeta.
  assert (Hn : NoDup (App.availableIndices
                        (App.app (App.initial sample_phrases))))
    by apply seq_NoDup.
  split; [exact sample_random_ok|]. split; [reflexivity|].
  split; [reflexivity|]. split; [exact Hn|].
  destruct (remaining_indices_shown_once sample_phrases sample_random
              (App.initial sample_phrases) 3 sample_random_ok eq_refl eq_refl Hn)
    as (idxs & Hp & _ & _ & _ & Ha).
  exists idxs. split; assumption.
Defined.

Lemma empty_pool_shows_nothing_witness :
  let w := App.dispatch (App.handleManualToggle [] sample_random)
             (App.initial []) in
  length (@nil string) = 0 /\
  AppRuns.reachable [] sample_random w /\
  App.isExpanded (App.app w) = true /\
  App.currentPhrase (App.app w) = None.
Proof.
  cbv zeta.
  assert (H : AppRuns.reachable [] sample_random
                (App.dispatch (App.handleManualToggle [] sample_random)
                   (App.initial [])))
    by apply AppRuns.reachable_toggle, AppRuns.reachable_initial.
  split; [reflexivity|]. split; [exact H|]. split; [reflexivity|].
  destruct (empty_pool_shows_nothing [] sample_random _ eq_refl H)
    as (_ & _ & _ & Hne).
  apply Hne. discriminate.
Defined.

Lemma active_index_matches_phrase_witness :
  let w := App.dispatch (App.handleManualToggle sample_phrases sample_random)
             (App.initial sample_phrases) in
  AppRuns.reachable sample_phrases sample_random w /\
  App.history w <> [] /\
  App.currentPhrase (App.app w)
    = App.phrase_at sample_phrases (last (App.history w) None).
Proof.
  cbv zeta.
  assert (H : AppRuns.reachable sample_phrases sample_random
                (App.dispatch (App.handleManualToggle sample_phrases sample_random)
                   (App.initial sample_phrases)))
    by apply AppRuns.reachable_toggle, AppRuns.reachable_initial.
  assert (Hh : App.history
                 (App.dispatch (App.handleManualToggle sample_phrases sample_random)
                    (App.initial sample_phrases)) <> [])
    by discriminate.
  split; [exact H|]. split; [exact Hh|].
  exact (active_index_matches_phrase sample_phrases sample_random _ H Hh).
Defined.

Lemma camera_gesture_state_never_NONE_witness :
  App.gestureState (App.app (App.initial sample_phrases)) <> NONE /\
  Forall (fun w' => App.gestureState (App.app w') <> NONE)
    (Camera.analysis_loop sample_phrases sample_random
       (App.initial_state sample_phrases)
       [Vision.ParsedValue (Some "OPEN"%string) None; Vision.ParsedNull;
        Vision.ParsedValue (Some "fist"%string) (Some 1%Q)]
       (App.initial sample_phrases)).
Proof.
  assert (H : App.gestureState (App.app (App.initial sample_phrases)) <> NONE)
    by discriminate.
  split; [exact H|].
  exact (camera_gesture_state_never_NONE sample_phrases sample_random _ _ _ H).
Defined.

Lemma stale_loop_never_collapses_witness :
  let responses :=
    [Vision.ParsedValue (Some "OPEN"%string) None;
     Vision.ParsedValue (Some "CLOSED"%string) None;
     Vision.ParsedValue (Some "OPEN"%string) None] in
  let w := App.initial sample_phrases in
  let ws := Camera.analysis_loop sample_phrases sample_random
              (App.initial_state sample_phrases) responses w in
  App.isExpanded (App.initial_state sample_phrases) = false /\
  App.entries false w ws = 0 /\
  App.selections (last ws w) = 2.
Proof.
  cbv zeta. split; [reflexivity|].
  destruct (stale_loop_never_collapses sample_phrases sample_random
              (App.initial_state sample_phrases)
              [Vision.ParsedValue (Some "OPEN"%string) None;
               Vision.ParsedValue (Some "CLOSED"%string) None;
               Vision.ParsedValue (Some "OPEN"%string) None]
              (App.initial sample_phrases) eq_refl)
    as (He & _ & Hs & _).
  split; [exact He | exact Hs].
Defined.

Lemma failed_detection_changes_nothing_witness :
  let generateContent := fun _ : string => Vision.ApiError in
  let JSON_parse := fun _ : string => @None Vision.Parsed in
  generateContent (Vision.clean_base64 "data:image/jpeg;base64,AAAA"%string)
    = Vision.ApiError /\
  Camera.tick sample_phrases sample_random generateContent JSON_parse
    (App.initial_state sample_phrases)
    (Some "data:image/jpeg;base64,AAAA"%string) (App.initial sample_phrases)
  = App.initial sample_phrases.
Proof.
  cbv zeta. split; [reflexivity|].
  exact (proj2 (failed_detection_changes_nothing sample_phrases sample_random
                  (fun _ => Vision.ApiError) (fun _ => None)
                  (App.initial_state sample_phrases)
                  "data:image/jpeg;base64,AAAA"%string
                  (App.initial sample_phrases) (or_introl eq_refl))).
Defined.

Lemma analysis_loop_single_interval_witness :
  (forall k, 0 < S k) /\
  Camera.live
    (fold_left (Camera.loop_call S)
       [Camera.Start; Camera.Start; Camera.Stop; Camera.Start] Camera.unmounted)
  = [3].
Proof.
  assert (H : forall k, 0 < S k) by (intros k; apply Nat.lt_0_succ).
  split; [exact H|].
  exact (proj1 (analysis_loop_single_interval S H
                  [Camera.Start; Camera.Start; Camera.Stop; Camera.Start]
                  true true)).
Defined.

Lemma sample_generate :
  exists a,
    Scene.generate (fun _ _ => true) 10 1 2 3 1 sample_color sample_color
      sample_color sample_color sample_random = Some a.
Proof.
  eexists. apply generate_layout;
    [split; vm_compute; discriminate | reflexivity | reflexivity].
Qed.

Lemma near3_same (eps : R) (v : Scene.vec3) :
  (0 <= eps)%R -> Shading.near3 eps v v.
Proof.
  intros He. unfold Shading.near3, Shading.near.
  rewrite !Rminus_diag, Rabs_R0. auto.
Qed.

Lemma body_on_spheroid_witness :
  exists a v,
    Scene.generate (fun _ _ => true) 10 1 2 3 1 sample_color sample_color
      sample_color sample_color sample_random = Some a /\
    (Z.of_nat 0 < Scene.sphereCount 10)%Z /\
    (0 <= / 16777216)%R /\
    Shading.attribute3 (Scene.positions a) 0 = Some v /\
    (Rabs (Scene.vx v * Scene.vx v + (Scene.vy v / 0.9) * (Scene.vy v / 0.9)
           + Scene.vz v * Scene.vz v - 1 * 1)
     <= 7 * / 16777216 * Rabs 1 + 4 * (/ 16777216 * / 16777216))%R.
Proof.
  destruct sample_generate as [a E].
  assert (Hk : (Z.of_nat 0 < Scene.sphereCount 10)%Z) by reflexivity.
  assert (He : (0 <= / 16777216)%R) by lra.
  destruct (body_on_spheroid (fun _ _ => true) 10 1 2 3 1 sample_color
              sample_color sample_color sample_color sample_random a 0
              (/ 16777216)%R E Hk He)
    as (v & Hv & Hs).
  exists a, v. split; [exact E|]. split; [exact Hk|]. split; [exact He|].
  split; [exact Hv|]. apply Hs. now apply near3_same.
Defined.

Lemma ring_in_annulus_witness :
  exists a v,
    random_ok sample_random /\ (0 <= 2 < 3)%R /\
    Scene.generate (fun _ _ => true) 10 1 2 3 1 sample_color sample_color
      sample_color sample_color sample_random = Some a /\
    (Scene.sphereCount 10 <= Z.of_nat 5 < 10)%Z /\
    (0 <= / 16777216)%R /\
    Shading.attribute3 (Scene.positions a) 5 = Some v /\
    (2 * 2 - 2 * / 16777216 * (2 * 3 + / 16777216)
     <= Scene.vx v * Scene.vx v + Scene.vz v * Scene.vz v
     <= 3 * 3 + 2 * / 16777216 * (2 * 3 + / 16777216))%R.
Proof.
  assert (Hr : (0 <= 2 < 3)%R) by lra.
  assert (He : (0 <= / 16777216)%R) by lra.
  destruct sample_generate as [a E].
  assert (Hk : (Scene.sphereCount 10 <= Z.of_nat 5 < 10)%Z)
    by (split; [discriminate | reflexivity]).
  destruct (ring_in_annulus (fun _ _ => true) 10 1 2 3 1 sample_color
              sample_color sample_color sample_color sample_random a 5
              (/ 16777216)%R sample_random_ok Hr E Hk He)
    as (v & Hv & Hs).
  exists a, v. split; [exact sample_random_ok|]. split; [exact Hr|].
  split; [exact E|]. split; [exact Hk|]. split; [exact He|].
  split; [exact Hv|]. exact (proj1 (Hs v (near3_same _ v He))).
Defined.

Lemma scatter_and_size_ranges_witness :
  exists a v s,
    random_ok sample_random /\ (0 <= 1)%R /\
    Scene.generate (fun _ _ => true) 10 1 2 3 1 sample_color sample_color
      sample_color sample_color sample_random = Some a /\
    (Z.of_nat 5 < 10)%Z /\
    Shading.attribute3 (Scene.randomPositions a) 5 = Some v /\
    Shading.attribute1 (Scene.sizes a) 5 = Some s /\
    Shading.in_box (2 * 1 + / 16777216) v /\
    (0.1 - / 16777216 <= s <= 0.35 + / 16777216)%R.
Proof.
  assert (Hs : (0 <= 1)%R) by lra.
  assert (He : (0 <= / 16777216)%R) by lra.
  destruct sample_generate as [a E].
  assert (Hk : (Z.of_nat 5 < 10)%Z) by reflexivity.
  destruct (scatter_and_size_ranges (fun _ _ => true) 10 1 2 3 1 sample_color
              sample_color sample_color sample_color sample_random a 5
              (/ 16777216)%R sample_random_ok Hs E Hk)
    as (v & s & Hv & Hsz & Hrange).
  assert (Hnear : Shading.near (/ 16777216) s s).
  { unfold Shading.near. rewrite Rminus_diag, Rabs_R0. exact He. }
  pose proof (Hrange v s (near3_same _ v He) Hnear) as Hb.
  change ((Z.of_nat 5 <? Scene.sphereCount 10)%Z) with false in Hb.
  destruct Hb as [Hbox Hsize].
  exists a, v, s. split; [exact sample_random_ok|]. split; [exact Hs|].
  split; [exact E|]. split; [exact Hk|]. split; [exact Hv|].
  split; [exact Hsz|]. split; [exact Hbox | exact Hsize].
Defined.



Lemma cpu_palette_identifies_group_witness :
  exists p,
    nth_error (CpuScene.particles 10 1 2 3 1 sample_random) 0 = Some p /\
    CpuScene.color p = "#C5A984"%string.
Proof.
  destruct (nth_error (CpuScene.particles 10 1 2 3 1 sample_random) 0)
    as [p|] eqn:E.
  - exists p. split; [reflexivity|].
    destruct (cpu_palette_identifies_group 10 1 2 3 1 sample_random 0 p E)
      as (_ & Hbody & _).
    assert (Hk : 0 < Z.to_nat (CpuScene.sphereCount 10)) by (vm_compute; lia).
    exact (proj1 (Hbody Hk)).
  - apply nth_error_None in E.
    rewrite (cpu_particles_length 10 1 2 3 1 sample_random) in E
      by (split; [discriminate | reflexivity]).
    vm_compute in E. lia.
Defined.

Lemma cpu_frames_never_throw_witness :
  Scene.new_Float32Array (fun _ => true) (10 * 3)
    = Some (repeat 0%R (Z.to_nat (10 * 3))) /\
  exists a' rot',
    CpuFrame.run_frames 10 (CpuScene.particles 10 1 2 3 1 sample_random)
      [(false, 0%R); (true, 1%R)]
      (Some (repeat 0%R (Z.to_nat (10 * 3)), Scene.mkEuler 0 0 0))
    = CpuFrame.Done (Some (a', rot')) /\
    length a' = 3 * Z.to_nat 10.
Proof.
  assert (Halloc : Scene.new_Float32Array (fun _ => true) (10 * 3)
                   = Some (repeat 0%R (Z.to_nat (10 * 3)))) by reflexivity.
  split; [exact Halloc|].
  destruct (cpu_frames_never_throw 10 1 2 3 1 sample_random (fun _ => true)
              (repeat 0%R (Z.to_nat (10 * 3)))
              [(false, 0%R); (true, 1%R)] (Scene.mkEuler 0 0 0) Halloc)
    as (_ & _ & _ & (a' & rot' & E & L & _) & _).
  exists a', rot'. split; [exact E | exact L].
Defined.

Lemma stale_loop_never_expands_witness :
  let captured :=
    App.app (App.dispatch (App.handleManualToggle sample_phrases sample_random)
               (App.initial sample_phrases)) in
  let responses :=
    [Vision.ParsedValue (Some "CLOSED"%string) None;
     Vision.ParsedValue (Some "OPEN"%string) None] in
  let w := App.mkWorld captured 1 [Some 0] in
  let ws := Camera.analysis_loop sample_phrases sample_random captured
              responses w in
  App.isExpanded captured = true /\
  map (fun w' => App.isExpanded (App.app w')) ws = [false; false] /\
  App.entries true w ws = 0.
Proof.
  cbv zeta. split; [reflexivity|]. split; [reflexivity|].
  exact (proj1 (stale_loop_never_expands sample_phrases sample_random
                  (App.app (App.dispatch
                              (App.handleManualToggle sample_phrases sample_random)
                              (App.initial sample_phrases)))
                  [Vision.ParsedValue (Some "CLOSED"%string) None;
                   Vision.ParsedValue (Some "OPEN"%string) None]
                  _ eq_refl)).
Defined.


Lemma cpu_positions_stay_in_box_witness :
  random_ok sample_random /\ (0 <= 1)%R /\ (0 <= 2 < 3)%R /\
  (0 <= 10)%Z /\ (10 * 3 < 2 ^ 53)%Z /\
  exists a' rot',
    CpuFrame.run_frames 10 (CpuScene.particles 10 1 2 3 1 sample_random)
      [(true, 0%R); (false, 1%R)]
      (Some (repeat 0%R (3 * Z.to_nat 10), Scene.mkEuler 0 0 0))
    = CpuFrame.Done (Some (a', rot')) /\
    exists v,
      CpuFrame.position_of a' 0 = Some v /\
      Shading.in_box (Rmax (Rmax 1 3) 0.25 + 1.5 * 1 + 2) v.
Proof.
  assert (H1 : (0 <= 1)%R) by lra.
  assert (Hr : (0 <= 2 < 3)%R) by lra.
  assert (H0 : (0 <= 10)%Z) by discriminate.
  assert (Hmax : (10 * 3 < 2 ^ 53)%Z) by reflexivity.
  split; [exact sample_random_ok|]. split; [exact H1|]. split; [exact Hr|].
  split; [exact H0|]. split; [exact Hmax|].
  destruct (cpu_positions_stay_in_box 10 1 2 3 1 sample_random
              sample_random_ok H1 Hr H1 [(true, 0%R); (false, 1%R)]
              (Scene.mkEuler 0 0 0) H0 Hmax)
    as (a' & rot' & E & Hbox).
  exists a', rot'. split; [exact E|]. apply Hbox. vm_compute. lia.
Defined.

Lemma camera_failure_is_final_witness :
  let c := Camera.fire Camera.mounted_cam Camera.Rejected in
  Camera.pending c = 0 /\
  Camera.enabled c Camera.Started = false /\
  Camera.retry_button
    (fold_left Camera.camera_step [Camera.Started; Camera.Resolved false]
       (Camera.cam c)) = false.
Proof.
  cbv zeta.
  destruct (camera_failure_is_final Camera.mounted_cam
              [Camera.Started; Camera.Resolved false])
    as (_ & _ & _ & Hstuck & _ & Hretry).
  split; [reflexivity|].
  split; [exact (Hstuck eq_refl Camera.Started) | exact Hretry].
Defined.

Lemma random_index_in_range_witness :
  let u := S754_finite false 6004799503160661 (-53) in
  Binary64.unit_random u /\ 1 <= 3 /\ (Z.of_nat 3 < 2 ^ 53)%Z /\
  Binary64.floor_product u (Z.of_nat 3) = 2%Z /\
  (0 <= Binary64.floor_product u (Z.of_nat 3) < Z.of_nat 3)%Z.
Proof.
  cbv zeta.
  assert (Hu : Binary64.unit_random (S754_finite false 6004799503160661 (-53))).
  { split; split; try reflexivity; discriminate. }
  assert (Hn : 1 <= 3) by (apply le_S, le_S, le_n).
  assert (Hmax : (Z.of_nat 3 < 2 ^ 53)%Z) by reflexivity.
  split; [exact Hu|]. split; [exact Hn|]. split; [exact Hmax|].
  split; [reflexivity|].
  exact (proj1 (@random_index_in_range _ 3 Hu Hn Hmax)).
Defined.
